(** * c4: a shallow embedding of [c4_annotated.c]

    The four functions of the compiler ([next], [expr], [stmt], [main]) and
    the virtual machine of [main] are written as functions on an explicit
    record of the program's global variables.  `int` is `long long` in the
    source (`#define int long long`): integers are [Z] with the 64-bit
    wrap-around written out where the source computes on them.  Pointers into
    the three arenas are split into a base address and an index; pointers
    into the (immutable) source text are represented by the text that starts
    at them.  Loops take a bound on their turns, and a run that needs more
    ends in [NoFuel]. *)

From Stdlib Require Import ZArith String Ascii List Lia DecimalString.
From Stdlib Require DecimalFacts DecimalPos HexadecimalString HexadecimalFacts HexadecimalPos.
From stdpp Require Import base list gmap strings.
Local Open Scope Z_scope.

(** ** Machine integers and characters *)

Definition wrap (z : Z) : Z := (z + 2 ^ 63) mod 2 ^ 64 - 2 ^ 63.

(** `(char)z` on a platform whose plain `char` is signed. *)
Definition to_char (z : Z) : Z := (z + 128) mod 256 - 128.

Definition char_val (c : ascii) : Z := to_char (Z.of_N (N_of_ascii c)).

Definition ascii_of_char (z : Z) : ascii := ascii_of_N (Z.to_N (z mod 256)).

(** `*p` for a pointer into a NUL-terminated text: the end of the Rocq string
    is the terminator. *)
Definition deref (q : string) : Z :=
  match q with
  | EmptyString => 0
  | String c _ => char_val c
  end.

Definition advance (q : string) : string :=
  match q with
  | EmptyString => EmptyString
  | String _ r => r
  end.

Definition sizeof_int : Z := 8.
Definition sizeof_char : Z := 1.

(** What `printf("%d", v)` writes when [v] is a `long long`: the conversion
    reads an `int`, the low 32 bits. *)
Definition to_int32 (z : Z) : Z := (z + 2 ^ 31) mod 2 ^ 32 - 2 ^ 31.
Definition fmt_d (z : Z) : string := NilZero.string_of_int (Z.to_int (to_int32 z)).

(** ** The enumerations *)

(** Tokens and classes: `enum { Num = 128, Fun, Sys, ... , Brak }`. *)
Module Tok.
Definition Num : Z := 128.
Definition Fun : Z := 129.
Definition Sys : Z := 130.
Definition Glo : Z := 131.
Definition Loc : Z := 132.
Definition Id : Z := 133.
Definition Char : Z := 134.
Definition Else : Z := 135.
Definition Enum : Z := 136.
Definition If : Z := 137.
Definition Int : Z := 138.
Definition Return : Z := 139.
Definition Sizeof : Z := 140.
Definition While : Z := 141.
Definition Assign : Z := 142.
Definition Cond : Z := 143.
Definition Lor : Z := 144.
Definition Lan : Z := 145.
Definition Or : Z := 146.
Definition Xor : Z := 147.
Definition And : Z := 148.
Definition Eq : Z := 149.
Definition Ne : Z := 150.
Definition Lt : Z := 151.
Definition Gt : Z := 152.
Definition Le : Z := 153.
Definition Ge : Z := 154.
Definition Shl : Z := 155.
Definition Shr : Z := 156.
Definition Add : Z := 157.
Definition Sub : Z := 158.
Definition Mul : Z := 159.
Definition Div : Z := 160.
Definition Mod : Z := 161.
Definition Inc : Z := 162.
Definition Dec : Z := 163.
Definition Brak : Z := 164.
End Tok.

(** Opcodes: `enum { LEA, IMM, ... , EXIT }`, numbered from 0. *)
Module Op.
Definition LEA : Z := 0.
Definition IMM : Z := 1.
Definition JMP : Z := 2.
Definition JSR : Z := 3.
Definition BZ : Z := 4.
Definition BNZ : Z := 5.
Definition ENT : Z := 6.
Definition ADJ : Z := 7.
Definition LEV : Z := 8.
Definition LI : Z := 9.
Definition LC : Z := 10.
Definition SI : Z := 11.
Definition SC : Z := 12.
Definition PSH : Z := 13.
Definition OR : Z := 14.
Definition XOR : Z := 15.
Definition AND : Z := 16.
Definition EQ : Z := 17.
Definition NE : Z := 18.
Definition LT : Z := 19.
Definition GT : Z := 20.
Definition LE : Z := 21.
Definition GE : Z := 22.
Definition SHL : Z := 23.
Definition SHR : Z := 24.
Definition ADD : Z := 25.
Definition SUB : Z := 26.
Definition MUL : Z := 27.
Definition DIV : Z := 28.
Definition MOD : Z := 29.
Definition OPEN : Z := 30.
Definition READ : Z := 31.
Definition CLOS : Z := 32.
Definition PRTF : Z := 33.
Definition MALC : Z := 34.
Definition FREE : Z := 35.
Definition MSET : Z := 36.
Definition MCMP : Z := 37.
Definition EXIT : Z := 38.

(** The enumerators in the order of the declaration. *)
Definition all : list Z :=
  [LEA; IMM; JMP; JSR; BZ; BNZ; ENT; ADJ; LEV; LI; LC; SI; SC; PSH;
   OR; XOR; AND; EQ; NE; LT; GT; LE; GE; SHL; SHR; ADD; SUB; MUL; DIV; MOD;
   OPEN; READ; CLOS; PRTF; MALC; FREE; MSET; MCMP; EXIT].
End Op.

(** Types: `enum { CHAR, INT, PTR }`. *)
Definition CHAR : Z := 0.
Definition INT : Z := 1.
Definition PTR : Z := 2.

(** ** The symbol table

    One record per identifier: `enum { Tk, Hash, Name, Class, Type, Val,
    HClass, HType, HVal, Idsz }`.  [Name] is a pointer into the text the
    identifier was read from; it is only ever passed to `memcmp`, so it is
    kept as the text starting at the pointer. *)
Record symrec := mkSym {
  Tk : Z;
  Hash : Z;
  Name : string;
  Class : Z;
  Type_ : Z;
  Val : Z;
  HClass : Z;
  HType : Z;
  HVal : Z
}.

(** A slot of the zeroed arena (`memset(sym, 0, poolsz)`). *)
Definition sym0 : symrec := mkSym 0 0 EmptyString 0 0 0 0 0 0.

Definition with_Tk (v : Z) (r : symrec) : symrec :=
  mkSym v (Hash r) (Name r) (Class r) (Type_ r) (Val r) (HClass r) (HType r) (HVal r).
Definition with_Hash (v : Z) (r : symrec) : symrec :=
  mkSym (Tk r) v (Name r) (Class r) (Type_ r) (Val r) (HClass r) (HType r) (HVal r).
Definition with_Name (v : string) (r : symrec) : symrec :=
  mkSym (Tk r) (Hash r) v (Class r) (Type_ r) (Val r) (HClass r) (HType r) (HVal r).
Definition with_Class (v : Z) (r : symrec) : symrec :=
  mkSym (Tk r) (Hash r) (Name r) v (Type_ r) (Val r) (HClass r) (HType r) (HVal r).
Definition with_Type (v : Z) (r : symrec) : symrec :=
  mkSym (Tk r) (Hash r) (Name r) (Class r) v (Val r) (HClass r) (HType r) (HVal r).
Definition with_Val (v : Z) (r : symrec) : symrec :=
  mkSym (Tk r) (Hash r) (Name r) (Class r) (Type_ r) v (HClass r) (HType r) (HVal r).
Definition with_HClass (v : Z) (r : symrec) : symrec :=
  mkSym (Tk r) (Hash r) (Name r) (Class r) (Type_ r) (Val r) v (HType r) (HVal r).
Definition with_HType (v : Z) (r : symrec) : symrec :=
  mkSym (Tk r) (Hash r) (Name r) (Class r) (Type_ r) (Val r) (HClass r) v (HVal r).
Definition with_HVal (v : Z) (r : symrec) : symrec :=
  mkSym (Tk r) (Hash r) (Name r) (Class r) (Type_ r) (Val r) (HClass r) (HType r) v.

(** Arrays in a zeroed arena: cells never written read as the zero value,
    and a write beyond the cells written so far leaves zero cells before
    it.  The arenas' fixed size (256K) is not checked by the source and is
    not modelled. *)
Section Arena.
Context {A : Type} (zero : A).

Definition peek (i : nat) (l : list A) : A := nth i l zero.

Definition poke (i : nat) (f : A -> A) (l : list A) : list A :=
  if (i <? length l)%nat then alter f i l
  else l ++ replicate (i - length l) zero ++ [f zero].
End Arena.

Definition sym_at (i : nat) (t : list symrec) : symrec := peek sym0 i t.
Definition sym_upd (i : nat) (f : symrec -> symrec) (t : list symrec) : list symrec :=
  poke sym0 i f t.

(** ** The global variables *)

(** [p], [lp], [data], [e], [le], [id], [sym], [tk], [ival], [ty], [loc],
    [line], [src], [debug] are the globals of the source.
    - [e] and [le] are indices into [text], whose first cell is at address
      [tbase]; the pointer `e` of the source is [tbase + 8 * e].
    - [data] is the address itself; the bytes of the data arena are [dseg],
      whose first byte is at address [dbase].
    - [id_] is the index of the record `id` points at.
    - [past] records that [p] was moved beyond the terminating NUL of the
      text (an unterminated literal does that); nothing is known about what
      is read there.
    - [out] is what has been written to standard output.
    - [m_bt], [m_ty], [m_i], [m_idmain] are the locals `bt`, `ty`, `i` and
      `idmain` of [main]. *)
Record state := mkState {
  p : string;
  past : bool;
  lp : string;
  line : Z;
  data : Z;
  dbase : Z;
  dseg : list Z;
  e : nat;
  le_ : nat;
  tbase : Z;
  text : list Z;
  id_ : nat;
  sym : list symrec;
  tk : Z;
  ival : Z;
  ty : Z;
  loc : Z;
  src : Z;
  debug : Z;
  out : string;
  m_bt : Z;
  m_ty : Z;
  m_i : Z;
  m_idmain : nat
}.

Definition set_p (v : string) (s : state) : state :=
  mkState v (past s) (lp s) (line s) (data s) (dbase s) (dseg s) (e s) (le_ s)
    (tbase s) (text s) (id_ s) (sym s) (tk s) (ival s) (ty s) (loc s) (src s)
    (debug s) (out s) (m_bt s) (m_ty s) (m_i s) (m_idmain s).
Definition set_past (v : bool) (s : state) : state :=
  mkState (p s) v (lp s) (line s) (data s) (dbase s) (dseg s) (e s) (le_ s)
    (tbase s) (text s) (id_ s) (sym s) (tk s) (ival s) (ty s) (loc s) (src s)
    (debug s) (out s) (m_bt s) (m_ty s) (m_i s) (m_idmain s).
Definition set_lp (v : string) (s : state) : state :=
  mkState (p s) (past s) v (line s) (data s) (dbase s) (dseg s) (e s) (le_ s)
    (tbase s) (text s) (id_ s) (sym s) (tk s) (ival s) (ty s) (loc s) (src s)
    (debug s) (out s) (m_bt s) (m_ty s) (m_i s) (m_idmain s).
Definition set_line (v : Z) (s : state) : state :=
  mkState (p s) (past s) (lp s) v (data s) (dbase s) (dseg s) (e s) (le_ s)
    (tbase s) (text s) (id_ s) (sym s) (tk s) (ival s) (ty s) (loc s) (src s)
    (debug s) (out s) (m_bt s) (m_ty s) (m_i s) (m_idmain s).
Definition set_data (v : Z) (s : state) : state :=
  mkState (p s) (past s) (lp s) (line s) v (dbase s) (dseg s) (e s) (le_ s)
    (tbase s) (text s) (id_ s) (sym s) (tk s) (ival s) (ty s) (loc s) (src s)
    (debug s) (out s) (m_bt s) (m_ty s) (m_i s) (m_idmain s).
Definition set_dseg (v : list Z) (s : state) : state :=
  mkState (p s) (past s) (lp s) (line s) (data s) (dbase s) v (e s) (le_ s)
    (tbase s) (text s) (id_ s) (sym s) (tk s) (ival s) (ty s) (loc s) (src s)
    (debug s) (out s) (m_bt s) (m_ty s) (m_i s) (m_idmain s).
Definition set_e (v : nat) (s : state) : state :=
  mkState (p s) (past s) (lp s) (line s) (data s) (dbase s) (dseg s) v (le_ s)
    (tbase s) (text s) (id_ s) (sym s) (tk s) (ival s) (ty s) (loc s) (src s)
    (debug s) (out s) (m_bt s) (m_ty s) (m_i s) (m_idmain s).
Definition set_le (v : nat) (s : state) : state :=
  mkState (p s) (past s) (lp s) (line s) (data s) (dbase s) (dseg s) (e s) v
    (tbase s) (text s) (id_ s) (sym s) (tk s) (ival s) (ty s) (loc s) (src s)
    (debug s) (out s) (m_bt s) (m_ty s) (m_i s) (m_idmain s).
Definition set_text (v : list Z) (s : state) : state :=
  mkState (p s) (past s) (lp s) (line s) (data s) (dbase s) (dseg s) (e s)
    (le_ s) (tbase s) v (id_ s) (sym s) (tk s) (ival s) (ty s) (loc s) (src s)
    (debug s) (out s) (m_bt s) (m_ty s) (m_i s) (m_idmain s).
Definition set_id (v : nat) (s : state) : state :=
  mkState (p s) (past s) (lp s) (line s) (data s) (dbase s) (dseg s) (e s)
    (le_ s) (tbase s) (text s) v (sym s) (tk s) (ival s) (ty s) (loc s)
    (src s) (debug s) (out s) (m_bt s) (m_ty s) (m_i s) (m_idmain s).
Definition set_sym (v : list symrec) (s : state) : state :=
  mkState (p s) (past s) (lp s) (line s) (data s) (dbase s) (dseg s) (e s)
    (le_ s) (tbase s) (text s) (id_ s) v (tk s) (ival s) (ty s) (loc s)
    (src s) (debug s) (out s) (m_bt s) (m_ty s) (m_i s) (m_idmain s).
Definition set_tk (v : Z) (s : state) : state :=
  mkState (p s) (past s) (lp s) (line s) (data s) (dbase s) (dseg s) (e s)
    (le_ s) (tbase s) (text s) (id_ s) (sym s) v (ival s) (ty s) (loc s)
    (src s) (debug s) (out s) (m_bt s) (m_ty s) (m_i s) (m_idmain s).
Definition set_ival (v : Z) (s : state) : state :=
  mkState (p s) (past s) (lp s) (line s) (data s) (dbase s) (dseg s) (e s)
    (le_ s) (tbase s) (text s) (id_ s) (sym s) (tk s) v (ty s) (loc s) (src s)
    (debug s) (out s) (m_bt s) (m_ty s) (m_i s) (m_idmain s).
Definition set_ty (v : Z) (s : state) : state :=
  mkState (p s) (past s) (lp s) (line s) (data s) (dbase s) (dseg s) (e s)
    (le_ s) (tbase s) (text s) (id_ s) (sym s) (tk s) (ival s) v (loc s)
    (src s) (debug s) (out s) (m_bt s) (m_ty s) (m_i s) (m_idmain s).
Definition set_loc (v : Z) (s : state) : state :=
  mkState (p s) (past s) (lp s) (line s) (data s) (dbase s) (dseg s) (e s)
    (le_ s) (tbase s) (text s) (id_ s) (sym s) (tk s) (ival s) (ty s) v
    (src s) (debug s) (out s) (m_bt s) (m_ty s) (m_i s) (m_idmain s).
Definition set_out (v : string) (s : state) : state :=
  mkState (p s) (past s) (lp s) (line s) (data s) (dbase s) (dseg s) (e s)
    (le_ s) (tbase s) (text s) (id_ s) (sym s) (tk s) (ival s) (ty s) (loc s)
    (src s) (debug s) v (m_bt s) (m_ty s) (m_i s) (m_idmain s).
Definition set_m_bt (v : Z) (s : state) : state :=
  mkState (p s) (past s) (lp s) (line s) (data s) (dbase s) (dseg s) (e s)
    (le_ s) (tbase s) (text s) (id_ s) (sym s) (tk s) (ival s) (ty s) (loc s)
    (src s) (debug s) (out s) v (m_ty s) (m_i s) (m_idmain s).
Definition set_m_ty (v : Z) (s : state) : state :=
  mkState (p s) (past s) (lp s) (line s) (data s) (dbase s) (dseg s) (e s)
    (le_ s) (tbase s) (text s) (id_ s) (sym s) (tk s) (ival s) (ty s) (loc s)
    (src s) (debug s) (out s) (m_bt s) v (m_i s) (m_idmain s).
Definition set_m_i (v : Z) (s : state) : state :=
  mkState (p s) (past s) (lp s) (line s) (data s) (dbase s) (dseg s) (e s)
    (le_ s) (tbase s) (text s) (id_ s) (sym s) (tk s) (ival s) (ty s) (loc s)
    (src s) (debug s) (out s) (m_bt s) (m_ty s) v (m_idmain s).
Definition set_m_idmain (v : nat) (s : state) : state :=
  mkState (p s) (past s) (lp s) (line s) (data s) (dbase s) (dseg s) (e s)
    (le_ s) (tbase s) (text s) (id_ s) (sym s) (tk s) (ival s) (ty s) (loc s)
    (src s) (debug s) (out s) (m_bt s) (m_ty s) (m_i s) v.

(** ** Results

    [Fail o]: a diagnostic was printed and the process ended with status -1
    (`exit(-1)` or `return -1` from [main]); [o] is everything written to
    standard output.  [Undef]: the source's behaviour is not determined by
    its input there (a read outside the text, a table index out of range).
    [NoFuel]: the bound given to a loop of the model was too small. *)
Inductive result (A : Type) : Type :=
| Ok (a : A)
| Fail (o : string)
| Undef
| NoFuel.
Arguments Ok {A} a.
Arguments Fail {A} o.
Arguments Undef {A}.
Arguments NoFuel {A}.

Definition M : Type := state -> result state.

Definition seqM (f g : M) : M := fun s =>
  match f s with
  | Ok s' => g s'
  | Fail o => Fail o
  | Undef => Undef
  | NoFuel => NoFuel
  end.
Notation "f >> g" := (seqM f g) (at level 60, right associativity).

Definition upd (f : state -> state) : M := fun s => Ok (f s).
Definition skip : M := Ok.

Definition nl : string := String (ascii_of_nat 10) EmptyString.

(** `printf` of the line number, a colon and the message, then `exit(-1)`. *)
Definition fail (msg : string) : M := fun s =>
  Fail (out s +:+ fmt_d (line s) +:+ ": " +:+ msg +:+ nl).

(** ** The text segment *)

(** `*e` *)
Definition cur (s : state) : Z := peek 0 (e s) (text s).
(** `*e = v` *)
Definition set_cur (v : Z) (s : state) : state :=
  set_text (poke 0 (e s) (fun _ => v) (text s)) s.
(** `*++e = v` *)
Definition emit (v : Z) : M := fun s =>
  Ok (set_text (poke 0 (S (e s)) (fun _ => v) (text s)) (set_e (S (e s)) s)).
(** `--e` *)
Definition retract (s : state) : state := set_e (Nat.pred (e s)) s.
(** `(int)(e + k)` *)
Definition addr_e (k : Z) (s : state) : Z := tbase s + 8 * (Z.of_nat (e s) + k).
(** `*d = v` for a saved pointer [d] into the text *)
Definition patch (d : nat) (v : Z) (s : state) : state :=
  set_text (poke 0 d (fun _ => v) (text s)) s.

(** ** [next]: the lexer *)

Definition is_alpha (c : Z) : bool :=
  (97 <=? c) && (c <=? 122) || (65 <=? c) && (c <=? 90) || (c =? 95).
Definition is_digit (c : Z) : bool := (48 <=? c) && (c <=? 57).
Definition is_alnum (c : Z) : bool :=
  (97 <=? c) && (c <=? 122) || (65 <=? c) && (c <=? 90) || (48 <=? c) && (c <=? 57)
  || (c =? 95).
Definition is_hex (c : Z) : bool :=
  (48 <=? c) && (c <=? 57) || (97 <=? c) && (c <=? 102) || (65 <=? c) && (c <=? 70).
Definition is_octal (c : Z) : bool := (48 <=? c) && (c <=? 55).

(** `while ( *p != 0 && *p != '\n') ++p;` *)
Fixpoint skip_line (q : string) : string :=
  match q with
  | EmptyString => q
  | String c r => if (char_val c =? 0) || (char_val c =? 10) then q else skip_line r
  end.

(** `while (<*p is a letter, digit or _>) tk = tk * 147 + *p++;` *)
Fixpoint scan_ident (h : Z) (q : string) : Z * string :=
  match q with
  | EmptyString => (h, q)
  | String c r =>
      if is_alnum (char_val c) then scan_ident (wrap (h * 147 + char_val c)) r
      else (h, q)
  end.

(** `!memcmp(a, b, n)` *)
Fixpoint memcmp_eq (a b : string) (n : nat) : bool :=
  match n with
  | O => true
  | S k => (deref a =? deref b) && memcmp_eq (advance a) (advance b) k
  end.

(** The walk `id = sym; while (id[Tk]) { if (<match>) ...; id = id + Idsz; }`:
    the index where it stops, and whether it stopped on a match. *)
Fixpoint find_sym (h : Z) (pp : string) (n : nat) (t : list symrec) (i : nat)
  : nat * bool :=
  match t with
  | [] => (i, false)
  | r :: t' =>
      if Tk r =? 0 then (i, false)
      else if (h =? Hash r) && memcmp_eq (Name r) pp n then (i, true)
      else find_sym h pp n t' (S i)
  end.

(** The identifier branch; [pp] is the text at the first character, [r] the
    text after it and [t] that character. *)
Definition lex_ident (t : Z) (pp r : string) : M := fun s =>
  let '(h, q) := scan_ident t r in
  let n := (String.length pp - String.length q)%nat in
  let h := wrap (h * 64 + Z.of_nat n) in
  let '(i, found) := find_sym h pp n (sym s) 0 in
  let s := set_id i (set_p q s) in
  if found then Ok (set_tk (Tk (sym_at i (sym s))) s)
  else
    Ok (set_tk Tok.Id
          (set_sym (sym_upd i (fun r => with_Tk Tok.Id (with_Hash h (with_Name pp r)))
                      (sym s)) s)).

(** `while ( *p >= '0' && *p <= '9') ival = ival * 10 + *p++ - '0';` *)
Fixpoint scan_dec (v : Z) (q : string) : Z * string :=
  match q with
  | EmptyString => (v, q)
  | String c r =>
      if is_digit (char_val c) then scan_dec (wrap (v * 10 + char_val c - 48)) r
      else (v, q)
  end.

(** `while ((tk = *++p) && <tk is a hex digit>) ival = ival * 16 + (tk & 15) + (tk >= 'A' ? 9 : 0);`
    with [q] the text at `p` (at the `x`, then at the digit just used). *)
Fixpoint scan_hex (v : Z) (q : string) : Z * string :=
  match q with
  | EmptyString => (v, q)
  | String _ r =>
      let t := deref r in
      if negb (t =? 0) && is_hex t
      then scan_hex (wrap (v * 16 + Z.land t 15 + (if 65 <=? t then 9 else 0))) r
      else (v, r)
  end.

(** `while ( *p >= '0' && *p <= '7') ival = ival * 8 + *p++ - '0';` *)
Fixpoint scan_oct (v : Z) (q : string) : Z * string :=
  match q with
  | EmptyString => (v, q)
  | String c r =>
      if is_octal (char_val c) then scan_oct (wrap (v * 8 + char_val c - 48)) r
      else (v, q)
  end.

(** The number branch; [t] is the first digit, already consumed. *)
Definition lex_num (t : Z) : M := fun s =>
  let '(v, q) :=
    if negb (t - 48 =? 0) then scan_dec (t - 48) (p s)
    else if (deref (p s) =? 120) || (deref (p s) =? 88) then scan_hex 0 (p s)
    else scan_oct 0 (p s) in
  Ok (set_tk Tok.Num (set_ival v (set_p q s))).

(** `ival = v;` and, in a string literal (the quote is 34), `*data++ = ival;` *)
Definition store_char (quote v : Z) (s : state) : state :=
  let s := set_ival v s in
  if quote =? 34
  then set_data (data s + 1)
         (set_dseg (poke 0 (Z.to_nat (data s - dbase s)) (fun _ => to_char v) (dseg s)) s)
  else s.

(** The body loop of a string or character literal:
    `while ( *p != 0 && *p != tk) { if ((ival = *p++) == '\\') { if ((ival = *p++) == 'n') ival = '\n'; } ... }`.
    A backslash that is the last character of the text moves `p` beyond the
    terminator and the loop condition reads there. *)
Fixpoint scan_str (quote : Z) (q : string) (s : state) : result state :=
  match q with
  | EmptyString => Ok (set_p q s)
  | String c r =>
      let v := char_val c in
      if (v =? 0) || (v =? quote) then Ok (set_p q s)
      else if v =? 92 then
        match r with
        | EmptyString => Undef
        | String c2 r2 =>
            let v2 := char_val c2 in
            scan_str quote r2 (store_char quote (if v2 =? 110 then 10 else v2) s)
        end
      else scan_str quote r (store_char quote v s)
  end.

(** The literal branch: `pp = data; <loop>; ++p;` then `ival = (int)pp` for a
    string (quote 34) and `tk = Num` for a character literal (quote 39). *)
Definition lex_str (quote : Z) : M := fun s =>
  let pp := data s in
  match scan_str quote (p s) s with
  | Ok s1 =>
      let s2 := match p s1 with
                | EmptyString => set_past true s1
                | String _ r => set_p r s1
                end in
      Ok (if quote =? 34 then set_ival pp s2 else set_tk Tok.Num s2)
  | other => other
  end.

(** The source listing printed at a newline when [src] is set. *)
Definition mnemonics : string :=
  "LEA ,IMM ,JMP ,JSR ,BZ  ,BNZ ,ENT ,ADJ ,LEV ,LI  ,LC  ,SI  ,SC  ,PSH ," +:+
  "OR  ,XOR ,AND ,EQ  ,NE  ,LT  ,GT  ,LE  ,GE  ,SHL ,SHR ,ADD ,SUB ,MUL ,DIV ,MOD ," +:+
  "OPEN,READ,CLOS,PRTF,MALC,FREE,MSET,MCMP,EXIT,".

(** The conversion `%.4s` applied to `&mnemonics[i * 5]`; the literal has 195 characters
    and a terminator. *)
Definition mnemonic (i : Z) : option string :=
  if (0 <=? i) && (i <=? 39) then Some (String.substring (Z.to_nat (i * 5)) 4 mnemonics)
  else None.

Fixpoint spaces (n : nat) : string :=
  match n with
  | O => EmptyString
  | S k => String " " (spaces k)
  end.

(** The conversion `%8.4s`: right-justified in eight columns. *)
Definition pad8 (m : string) : string := spaces (8 - String.length m) +:+ m.

(** Whether an opcode is followed by an operand: the test `*le <= ADJ` of the
    listing and `i <= ADJ` of the debug trace. *)
Definition has_operand (i : Z) : bool := i <=? Op.ADJ.

(** `while (le < e) { <print the mnemonic of *++le>; if ( *le <= ADJ) <print the
    operand *++le>; <newline> }` *)
Fixpoint list_code (n : nat) : M := fun s =>
  if (le_ s <? e s)%nat then
    match n with
    | O => NoFuel
    | S n' =>
        let l1 := S (le_ s) in
        let op := peek 0 l1 (text s) in
        match mnemonic op with
        | None => Undef
        | Some m =>
            if has_operand op
            then list_code n'
                   (set_out (out s +:+ pad8 m +:+ " " +:+ fmt_d (peek 0 (S l1) (text s)) +:+ nl)
                      (set_le (S l1) s))
            else list_code n' (set_out (out s +:+ pad8 m +:+ nl) (set_le l1 s))
        end
    end
  else Ok s.

(** The conversion `%.*s` with precision [n]: at most [n] characters, up to a NUL. *)
Fixpoint cstr_take (n : nat) (q : string) : string :=
  match n, q with
  | S k, String c r => if char_val c =? 0 then EmptyString else String c (cstr_take k r)
  | _, _ => EmptyString
  end.

(** `printf` of the line number and of the `p - lp` characters at `lp`;
    `lp = p; while (le < e) ...` *)
Definition listing : M := fun s =>
  let shown := cstr_take (String.length (lp s) - String.length (p s)) (lp s) in
  let s := set_lp (p s) (set_out (out s +:+ fmt_d (line s) +:+ ": " +:+ shown) s) in
  list_code (e s - le_ s) s.

(** `if ( *p == c2) { ++p; tk = yes; } else tk = no; return;` *)
Definition two (c2 yes no : Z) : M := fun s =>
  if deref (p s) =? c2 then Ok (set_tk yes (set_p (advance (p s)) s))
  else Ok (set_tk no s).

(** The scanning loop `while (tk = *p) { ++p; ... }`; [n] bounds the number
    of characters it may consume without returning. *)
Fixpoint next_loop (n : nat) : M := fun s =>
  if past s then Undef else
  let t := deref (p s) in
  let s := set_tk t s in
  if t =? 0 then Ok s else
  match n with
  | O => NoFuel
  | S n' =>
      let pp := p s in
      let s := set_p (advance pp) s in
      if t =? 10 then
        ((if src s =? 0 then skip else listing)
         >> upd (fun s => set_line (wrap (line s + 1)) s)
         >> next_loop n') s
      else if t =? 35 then next_loop n' (set_p (skip_line (p s)) s)
      else if is_alpha t then lex_ident t pp (p s) s
      else if is_digit t then lex_num t s
      else if t =? 47 then
        if deref (p s) =? 47 then next_loop n' (set_p (skip_line (advance (p s))) s)
        else Ok (set_tk Tok.Div s)
      else if (t =? 39) || (t =? 34) then lex_str t s
      else if t =? 61 then two 61 Tok.Eq Tok.Assign s
      else if t =? 43 then two 43 Tok.Inc Tok.Add s
      else if t =? 45 then two 45 Tok.Dec Tok.Sub s
      else if t =? 33 then
        (if deref (p s) =? 61 then Ok (set_tk Tok.Ne (set_p (advance (p s)) s)) else Ok s)
      else if t =? 60 then
        if deref (p s) =? 61 then Ok (set_tk Tok.Le (set_p (advance (p s)) s))
        else if deref (p s) =? 60 then Ok (set_tk Tok.Shl (set_p (advance (p s)) s))
        else Ok (set_tk Tok.Lt s)
      else if t =? 62 then
        if deref (p s) =? 61 then Ok (set_tk Tok.Ge (set_p (advance (p s)) s))
        else if deref (p s) =? 62 then Ok (set_tk Tok.Shr (set_p (advance (p s)) s))
        else Ok (set_tk Tok.Gt s)
      else if t =? 124 then two 124 Tok.Lor Tok.Or s
      else if t =? 38 then two 38 Tok.Lan Tok.And s
      else if t =? 94 then Ok (set_tk Tok.Xor s)
      else if t =? 37 then Ok (set_tk Tok.Mod s)
      else if t =? 42 then Ok (set_tk Tok.Mul s)
      else if t =? 91 then Ok (set_tk Tok.Brak s)
      else if t =? 63 then Ok (set_tk Tok.Cond s)
      else if (t =? 126) || (t =? 59) || (t =? 123) || (t =? 125) || (t =? 40)
              || (t =? 41) || (t =? 93) || (t =? 44) || (t =? 58) then Ok s
      else next_loop n' s
  end.

(** Every turn of the loop consumes a character, so the length of the text
    bounds it. *)
Definition next : M := fun s => next_loop (String.length (p s)) s.

(** ** [expr]: the expression parser and emitter *)

(** `if (tk == c) next(); else { <diagnostic>; exit(-1); }` *)
Definition expect (c : Z) (msg : string) : M := fun s =>
  if tk s =? c then next s else fail msg s.

(** `d = ++e;` followed by the code [k] that uses the pointer [d]. *)
Definition hole (k : nat -> M) : M := fun s =>
  let s := set_e (S (e s)) s in k (e s) s.

(** `*++e = PSH; *++e = IMM; *++e = sizeof(int); *++e = MUL;` *)
Definition scale : M :=
  emit Op.PSH >> emit Op.IMM >> emit sizeof_int >> emit Op.MUL.

(** The code after `expr(Inc)` in the prefix `++`/`--` branch; [t] is the
    token saved in `t`. *)
Definition pre_incdec (t : Z) : M :=
  (fun s => if cur s =? Op.LC then emit Op.LC (set_cur Op.PSH s)
            else if cur s =? Op.LI then emit Op.LI (set_cur Op.PSH s)
            else fail "bad lvalue in pre-increment" s)
  >> emit Op.PSH >> emit Op.IMM
  >> (fun s => emit (if ty s >? PTR then sizeof_int else sizeof_char) s)
  >> emit (if t =? Tok.Inc then Op.ADD else Op.SUB)
  >> (fun s => emit (if ty s =? CHAR then Op.SC else Op.SI) s).

(** The postfix `++`/`--` branch up to its closing `next()`. *)
Definition post_incdec : M :=
  (fun s => if cur s =? Op.LC then emit Op.LC (set_cur Op.PSH s)
            else if cur s =? Op.LI then emit Op.LI (set_cur Op.PSH s)
            else fail "bad lvalue in post-increment" s)
  >> emit Op.PSH >> emit Op.IMM
  >> (fun s => emit (if ty s >? PTR then sizeof_int else sizeof_char) s)
  >> (fun s => emit (if tk s =? Tok.Inc then Op.ADD else Op.SUB) s)
  >> emit Op.PSH >> emit Op.IMM
  >> (fun s => emit (if ty s >? PTR then sizeof_int else sizeof_char) s)
  >> (fun s => emit (if tk s =? Tok.Inc then Op.SUB else Op.ADD) s).

(** The code after `expr(Mul)` in the infix `-` branch; [t] is the type of
    the left operand, saved in `t`. *)
Definition sub_tail (t : Z) : M := fun s =>
  if (t >? PTR) && (t =? ty s) then
    (emit Op.SUB >> emit Op.PSH >> emit Op.IMM >> emit sizeof_int >> emit Op.DIV
     >> upd (set_ty INT)) s
  else if t >? PTR then (scale >> emit Op.SUB) (set_ty t s)
  else emit Op.SUB (set_ty t s).

Section ExprBody.
(** [rec lev] is the recursive call `expr(lev)`; [n] bounds the loops. *)
Variable rec : Z -> M.

(** `while (<tk is the string-literal token, 34>) next();` *)
Fixpoint more_strings (n : nat) : M := fun s =>
  if tk s =? 34 then
    match n with
    | O => NoFuel
    | S n' => (next >> more_strings n') s
    end
  else Ok s.

(** `while (tk == Mul) { next(); t = t + PTR; }` followed by the code [k]
    that uses `t`. *)
Fixpoint stars (n : nat) (t : Z) (k : Z -> M) : M := fun s =>
  if tk s =? Tok.Mul then
    match n with
    | O => NoFuel
    | S n' => (next >> stars n' (t + PTR) k) s
    end
  else k t s.

(** `while (tk != ')') { expr(Assign); *++e = PSH; ++t; if (tk == ',') next(); }` *)
Fixpoint call_args (n : nat) (t : Z) (k : Z -> M) : M := fun s =>
  if negb (tk s =? 41) then
    match n with
    | O => NoFuel
    | S n' =>
        (rec Tok.Assign >> emit Op.PSH
         >> (fun s => if tk s =? 44 then next s else Ok s)
         >> call_args n' (wrap (t + 1)) k) s
    end
  else k t s.

(** The first part of `expr`: primary expressions and prefix operators. *)
Definition expr_head (n : nat) : M := fun s =>
  let t := tk s in
  if t =? 0 then fail "unexpected eof in expression" s
  else if t =? Tok.Num then (emit Op.IMM >> emit (ival s) >> next) s
  else if t =? 34 then
    (emit Op.IMM >> emit (ival s) >> next >> more_strings n
     >> upd (fun s => set_data (Z.land (data s + sizeof_int) (- sizeof_int)) s)) s
  else if t =? Tok.Id then
    let d := id_ s in
    (next >> fun s =>
       if tk s =? 40 then
         (next >> call_args n 0 (fun t =>
            next
            >> (fun s =>
                  let r := sym_at d (sym s) in
                  if Class r =? Tok.Sys then emit (Val r) s
                  else if Class r =? Tok.Fun then (emit Op.JSR >> emit (Val r)) s
                  else fail "bad function call" s)
            >> (if negb (t =? 0) then emit Op.ADJ >> emit t else skip)
            >> upd (fun s => set_ty (Type_ (sym_at d (sym s))) s))) s
       else if Class (sym_at d (sym s)) =? Tok.Num then
         (emit Op.IMM >> emit (Val (sym_at d (sym s))) >> upd (set_ty INT)) s
       else
         ((fun s =>
             let r := sym_at d (sym s) in
             if Class r =? Tok.Loc then (emit Op.LEA >> emit (wrap (loc s - Val r))) s
             else if Class r =? Tok.Glo then (emit Op.IMM >> emit (Val r)) s
             else fail "undefined variable" s)
          >> (fun s =>
                let s := set_ty (Type_ (sym_at d (sym s))) s in
                emit (if ty s =? CHAR then Op.LC else Op.LI) s)) s) s
  else if t =? 40 then
    (next >> fun s =>
       if (tk s =? Tok.Int) || (tk s =? Tok.Char) then
         (next >> stars n (if tk s =? Tok.Int then INT else CHAR) (fun t =>
            expect 41 "bad cast" >> rec Tok.Inc >> upd (set_ty t))) s
       else (rec Tok.Assign >> expect 41 "close paren expected") s) s
  else if t =? Tok.Mul then
    (next >> rec Tok.Inc >> fun s =>
       if ty s >? INT then
         let s := set_ty (ty s - PTR) s in
         emit (if ty s =? CHAR then Op.LC else Op.LI) s
       else fail "bad dereference" s) s
  else if t =? Tok.And then
    (next >> rec Tok.Inc >> fun s =>
       if (cur s =? Op.LC) || (cur s =? Op.LI)
       then Ok (set_ty (ty s + PTR) (retract s))
       else fail "bad address-of" s) s
  else if t =? 33 then
    (next >> rec Tok.Inc >> emit Op.PSH >> emit Op.IMM >> emit 0 >> emit Op.EQ
     >> upd (set_ty INT)) s
  else if t =? 126 then
    (next >> rec Tok.Inc >> emit Op.PSH >> emit Op.IMM >> emit (-1) >> emit Op.XOR
     >> upd (set_ty INT)) s
  else if t =? Tok.Add then (next >> rec Tok.Inc >> upd (set_ty INT)) s
  else if t =? Tok.Sub then
    (next >> emit Op.IMM
     >> (fun s =>
           if tk s =? Tok.Num then (emit (wrap (- ival s)) >> next) s
           else (emit (-1) >> emit Op.PSH >> rec Tok.Inc >> emit Op.MUL) s)
     >> upd (set_ty INT)) s
  else if (t =? Tok.Inc) || (t =? Tok.Dec) then
    (next >> rec Tok.Inc >> pre_incdec t) s
  else fail "bad expression" s.

(** `next(); *++e = PSH; expr(lev); *++e = op; ty = INT;` *)
Definition binop (lev op : Z) : M :=
  next >> emit Op.PSH >> rec lev >> emit op >> upd (set_ty INT).

(** One turn of the loop `while (tk >= lev) { t = ty; ... }`. *)
Definition expr_op : M := fun s =>
  let t := ty s in
  let k := tk s in
  if k =? Tok.Assign then
    (next
     >> (fun s => if (cur s =? Op.LC) || (cur s =? Op.LI) then Ok (set_cur Op.PSH s)
                  else fail "bad lvalue in assignment" s)
     >> rec Tok.Assign
     >> (fun s => emit (if t =? CHAR then Op.SC else Op.SI) (set_ty t s))) s
  else if k =? Tok.Cond then
    (next >> emit Op.BZ >> hole (fun d =>
       rec Tok.Assign >> expect 58 "conditional missing colon"
       >> upd (fun s => patch d (addr_e 3 s) s)
       >> emit Op.JMP >> hole (fun d2 =>
            rec Tok.Cond >> upd (fun s => patch d2 (addr_e 1 s) s)))) s
  else if k =? Tok.Lor then
    (next >> emit Op.BNZ >> hole (fun d =>
       rec Tok.Lan >> upd (fun s => set_ty INT (patch d (addr_e 1 s) s)))) s
  else if k =? Tok.Lan then
    (next >> emit Op.BZ >> hole (fun d =>
       rec Tok.Or >> upd (fun s => set_ty INT (patch d (addr_e 1 s) s)))) s
  else if k =? Tok.Or then binop Tok.Xor Op.OR s
  else if k =? Tok.Xor then binop Tok.And Op.XOR s
  else if k =? Tok.And then binop Tok.Eq Op.AND s
  else if k =? Tok.Eq then binop Tok.Lt Op.EQ s
  else if k =? Tok.Ne then binop Tok.Lt Op.NE s
  else if k =? Tok.Lt then binop Tok.Shl Op.LT s
  else if k =? Tok.Gt then binop Tok.Shl Op.GT s
  else if k =? Tok.Le then binop Tok.Shl Op.LE s
  else if k =? Tok.Ge then binop Tok.Shl Op.GE s
  else if k =? Tok.Shl then binop Tok.Add Op.SHL s
  else if k =? Tok.Shr then binop Tok.Add Op.SHR s
  else if k =? Tok.Add then
    (next >> emit Op.PSH >> rec Tok.Mul
     >> (fun s => (if t >? PTR then scale else skip) (set_ty t s))
     >> emit Op.ADD) s
  else if k =? Tok.Sub then (next >> emit Op.PSH >> rec Tok.Mul >> sub_tail t) s
  else if k =? Tok.Mul then binop Tok.Inc Op.MUL s
  else if k =? Tok.Div then binop Tok.Inc Op.DIV s
  else if k =? Tok.Mod then binop Tok.Inc Op.MOD s
  else if (k =? Tok.Inc) || (k =? Tok.Dec) then (post_incdec >> next) s
  else if k =? Tok.Brak then
    (next >> emit Op.PSH >> rec Tok.Assign >> expect 93 "close bracket expected"
     >> (fun s => if t >? PTR then scale s
                  else if t <? PTR then fail "pointer type expected" s
                  else Ok s)
     >> emit Op.ADD
     >> (fun s =>
           let s := set_ty (t - PTR) s in
           emit (if ty s =? CHAR then Op.LC else Op.LI) s)) s
  else fail ("compiler error tk=" +:+ fmt_d k) s.

(** `while (tk >= lev) { ... }` *)
Fixpoint expr_tail (n : nat) (lev : Z) : M := fun s =>
  if tk s >=? lev then
    match n with
    | O => NoFuel
    | S n' => (expr_op >> expr_tail n' lev) s
    end
  else Ok s.
End ExprBody.

(** `expr(lev)`, with a bound on the depth of the recursion and on the turns
    of each loop. *)
Fixpoint expr (fuel : nat) (lev : Z) : M :=
  match fuel with
  | O => fun _ => NoFuel
  | S f => expr_head (expr f) f >> expr_tail (expr f) f lev
  end.

(** ** [stmt]: the statement parser *)

Section StmtBody.
Variable ex : Z -> M.
Variable st : M.

(** `while (tk != '}') stmt();` *)
Fixpoint stmts (n : nat) : M := fun s =>
  if negb (tk s =? 125) then
    match n with
    | O => NoFuel
    | S n' => (st >> stmts n') s
    end
  else Ok s.

Definition stmt_body (n : nat) : M := fun s =>
  let t := tk s in
  if t =? Tok.If then
    (next >> expect 40 "open paren expected" >> ex Tok.Assign
     >> expect 41 "close paren expected"
     >> emit Op.BZ >> hole (fun b =>
          st >> fun s =>
            if tk s =? Tok.Else then
              (upd (fun s => patch b (addr_e 3 s) s) >> emit Op.JMP >> hole (fun b2 =>
                 next >> st >> upd (fun s => patch b2 (addr_e 1 s) s))) s
            else Ok (patch b (addr_e 1 s) s))) s
  else if t =? Tok.While then
    (next >> fun s =>
       let a := addr_e 1 s in
       (expect 40 "open paren expected" >> ex Tok.Assign
        >> expect 41 "close paren expected"
        >> emit Op.BZ >> hole (fun b =>
             st >> emit Op.JMP >> emit a
             >> upd (fun s => patch b (addr_e 1 s) s))) s) s
  else if t =? Tok.Return then
    (next >> (fun s => if negb (tk s =? 59) then ex Tok.Assign s else Ok s)
     >> emit Op.LEV >> expect 59 "semicolon expected") s
  else if t =? 123 then (next >> stmts n >> next) s
  else if t =? 59 then next s
  else (ex Tok.Assign >> expect 59 "semicolon expected") s.
End StmtBody.

Fixpoint stmt (fuel : nat) : M :=
  match fuel with
  | O => fun _ => NoFuel
  | S f => stmt_body (expr f) (stmt f) f
  end.

(** ** [main]: the driver *)

Definition poolsz : Z := 256 * 1024.

(** An argument of a host call: the value of an object that was never
    assigned is indeterminate. *)
Inductive arg : Type :=
| Indeterminate
| Value (v : Z).

(** The calls of host functions, in the order they are made. *)
Inductive call : Type :=
| Cmalloc (n : Z)
| Cfree (a : Z)
| Copen (path flags : Z)
| Cread (fd : arg) (buf n : Z)
| Cclose (fd : arg).

(** What the host answers.
    - [h_malloc k] is the result of the [k]-th `malloc` of [main] (0 when it
      fails);
    - [h_junk x] is the value the unassigned local [x] of [main] holds;
    - [h_read fd n] is the result of `read(fd, buf, n)` in [main] and the
      bytes it stores in the buffer;
    - [h_argv] is the address of `argv[0]`, [h_mem] the memory the program
      did not allocate itself (the argument vector and strings);
    - [h_vm] answers the calls made by the virtual machine, from the calls
      made before. *)
Record host := mkHost {
  h_malloc : nat -> Z;
  h_junk : string -> Z;
  h_read : Z -> Z -> Z * string;
  h_argv : Z;
  h_mem : Z -> option Z;
  h_vm : list call -> call -> Z * string
}.

(** `**argv == '-' && ( *argv)[1] == c` *)
Definition is_flag (c : Z) (a : string) : bool :=
  (deref a =? 45) && (deref (advance a) =? c).

(** The first lines of [main], on `argc` and `argv` after `--argc; ++argv;`:
    the values of `src` and `debug` and what is left of `argv`.
    `if (argc > 0 && <*argv is -s>) { src = 1; --argc; ++argv; }`
    `if (argc > 0 && <*argv is -d>) { debug = 1; --argc; ++argv; }` *)
Definition flags (argv : list string) : Z * Z * list string :=
  let '(sr, argv) :=
    match argv with
    | a :: rest => if is_flag 115 a then (1, rest) else (0, argv)
    | [] => (0, argv)
    end in
  let '(db, argv) :=
    match argv with
    | a :: rest => if is_flag 100 a then (1, rest) else (0, argv)
    | [] => (0, argv)
    end in
  (sr, db, argv).

(** The text the symbol table is seeded from. *)
Definition keywords : string :=
  "char else enum if int return sizeof while " +:+
  "open read close printf malloc free memset memcmp exit void main".

(** The globals after the arenas are allocated and zeroed and `p` points at
    [keywords]; every other global of the source is zero-initialised. *)
Definition init (sr db tb dbs : Z) : state :=
  mkState keywords false EmptyString 0 dbs dbs [] 0 0 tb [] 0 [] 0 0 0 0 sr db
    EmptyString 0 0 0 0.

(** `id[f] = v` for the field setter [f]. *)
Definition id_set (f : symrec -> symrec) : M :=
  upd (fun s => set_sym (sym_upd (id_ s) f (sym s)) s).
(** `id[...]` *)
Definition id_rec (s : state) : symrec := sym_at (id_ s) (sym s).

(** `while (i <= While) { next(); id[Tk] = i++; }` *)
Fixpoint seed_keywords (n : nat) : M := fun s =>
  if m_i s <=? Tok.While then
    match n with
    | O => NoFuel
    | S n' =>
        (next >> (fun s => id_set (with_Tk (m_i s)) s)
         >> upd (fun s => set_m_i (m_i s + 1) s) >> seed_keywords n') s
    end
  else Ok s.

(** `while (i <= EXIT) { next(); id[Class] = Sys; id[Type] = INT; id[Val] = i++; }` *)
Fixpoint seed_library (n : nat) : M := fun s =>
  if m_i s <=? Op.EXIT then
    match n with
    | O => NoFuel
    | S n' =>
        (next
         >> (fun s => id_set (fun r => with_Val (m_i s) (with_Type INT (with_Class Tok.Sys r))) s)
         >> upd (fun s => set_m_i (m_i s + 1) s) >> seed_library n') s
    end
  else Ok s.

(** The seeding of the symbol table, up to `next(); idmain = id;`. *)
Definition seed : M :=
  upd (set_m_i Tok.Char) >> seed_keywords 8
  >> upd (set_m_i Op.OPEN) >> seed_library 9
  >> next >> id_set (with_Tk Tok.Char)
  >> next >> upd (fun s => set_m_idmain (id_ s) s).

(** *** Declarations *)

(** `if (tk == ',') next();` *)
Definition comma : M := fun s => if tk s =? 44 then next s else Ok s.

(** `while (tk == Mul) { next(); ty = ty + PTR; }` on the local `ty` of [main] *)
Fixpoint ptr_stars (n : nat) : M := fun s =>
  if tk s =? Tok.Mul then
    match n with
    | O => NoFuel
    | S n' => (next >> upd (fun s => set_m_ty (m_ty s + PTR) s) >> ptr_stars n') s
    end
  else Ok s.

(** The body of the loop over the enumerators, `while (tk != '}') { ... }`. *)
Fixpoint enum_items (n : nat) : M := fun s =>
  if negb (tk s =? 125) then
    match n with
    | O => NoFuel
    | S n' =>
        if negb (tk s =? Tok.Id) then fail ("bad enum identifier " +:+ fmt_d (tk s)) s
        else
          (next
           >> (fun s =>
                 if tk s =? Tok.Assign then
                   (next >> fun s =>
                      if negb (tk s =? Tok.Num) then fail "bad enum initializer" s
                      else (upd (fun s => set_m_i (ival s) s) >> next) s) s
                 else Ok s)
           >> (fun s =>
                 id_set (fun r => with_Val (m_i s) (with_Type INT (with_Class Tok.Num r))) s)
           >> upd (fun s => set_m_i (wrap (m_i s + 1)) s)
           >> comma >> enum_items n') s
    end
  else Ok s.

(** The `Enum` branch of a declaration. *)
Definition enum_decl (n : nat) : M :=
  next
  >> (fun s => if negb (tk s =? 123) then next s else Ok s)
  >> (fun s =>
        if tk s =? 123 then (next >> upd (set_m_i 0) >> enum_items n >> next) s
        else Ok s).

(** `id[HClass] = id[Class]; id[Class] = Loc; id[HType] = id[Type]; id[Type] = ty;
    id[HVal] = id[Val]; id[Val] = v;` *)
Definition shadow (t v : Z) (r : symrec) : symrec :=
  mkSym (Tk r) (Hash r) (Name r) Tok.Loc t v (Class r) (Type_ r) (Val r).

(** `id[Class] = id[HClass]; id[Type] = id[HType]; id[Val] = id[HVal];` *)
Definition restore (r : symrec) : symrec :=
  mkSym (Tk r) (Hash r) (Name r) (HClass r) (HType r) (HVal r)
    (HClass r) (HType r) (HVal r).

(** The parameter list, `while (tk != ')') { ... }`. *)
Fixpoint params (n : nat) : M := fun s =>
  if negb (tk s =? 41) then
    match n with
    | O => NoFuel
    | S n' =>
        (upd (set_m_ty INT)
         >> (fun s => if tk s =? Tok.Int then next s
                      else if tk s =? Tok.Char then (next >> upd (set_m_ty CHAR)) s
                      else Ok s)
         >> ptr_stars n'
         >> (fun s =>
               if negb (tk s =? Tok.Id) then fail "bad parameter declaration" s
               else if Class (id_rec s) =? Tok.Loc then fail "duplicate parameter definition" s
               else id_set (shadow (m_ty s) (m_i s)) s)
         >> upd (fun s => set_m_i (wrap (m_i s + 1)) s)
         >> next >> comma >> params n') s
    end
  else Ok s.

(** The declarators of one local declaration, `while (tk != ';') { ... }`. *)
Fixpoint local_names (n : nat) : M := fun s =>
  if negb (tk s =? 59) then
    match n with
    | O => NoFuel
    | S n' =>
        (upd (fun s => set_m_ty (m_bt s) s)
         >> ptr_stars n'
         >> (fun s =>
               if negb (tk s =? Tok.Id) then fail "bad local declaration" s
               else if Class (id_rec s) =? Tok.Loc then fail "duplicate local definition" s
               else
                 let s := set_m_i (wrap (m_i s + 1)) s in
                 id_set (shadow (m_ty s) (m_i s)) s)
         >> next >> comma >> local_names n') s
    end
  else Ok s.

(** `while (tk == Int || tk == Char) { bt = ...; next(); <declarators>; next(); }` *)
Fixpoint local_decls (n : nat) : M := fun s =>
  if (tk s =? Tok.Int) || (tk s =? Tok.Char) then
    match n with
    | O => NoFuel
    | S n' =>
        (upd (set_m_bt (if tk s =? Tok.Int then INT else CHAR))
         >> next >> local_names n' >> next >> local_decls n') s
    end
  else Ok s.

(** The walk that ends a function definition,
    `id = sym; while (id[Tk]) { if (id[Class] == Loc) { <restore> } id = id + Idsz; }`:
    the table it leaves and the index where it stops. *)
Fixpoint unwind_sym (t : list symrec) : list symrec :=
  match t with
  | [] => []
  | r :: t' =>
      if Tk r =? 0 then t
      else (if Class r =? Tok.Loc then restore r else r) :: unwind_sym t'
  end.

Fixpoint unwind_stop (t : list symrec) : nat :=
  match t with
  | [] => O
  | r :: t' => if Tk r =? 0 then O else S (unwind_stop t')
  end.

Definition unwind : M :=
  upd (fun s => set_id (unwind_stop (sym s)) (set_sym (unwind_sym (sym s)) s)).

(** A function definition, from `id[Class] = Fun;` to the end of the walk. *)
Definition fundef (n : nat) : M :=
  (fun s => id_set (fun r => with_Val (addr_e 1 s) (with_Class Tok.Fun r)) s)
  >> next >> upd (set_m_i 0)
  >> params n
  >> next
  >> (fun s => if negb (tk s =? 123) then fail "bad function definition" s else Ok s)
  >> upd (fun s => let i := wrap (m_i s + 1) in set_loc i (set_m_i i s))
  >> next
  >> local_decls n
  >> emit Op.ENT >> (fun s => emit (wrap (m_i s - loc s)) s)
  >> stmts (stmt n) n
  >> emit Op.LEV
  >> unwind.

(** A global variable: `id[Class] = Glo; id[Val] = (int)data; data = data + sizeof(int);` *)
Definition global : M :=
  (fun s => id_set (fun r => with_Val (data s) (with_Class Tok.Glo r)) s)
  >> upd (fun s => set_data (data s + sizeof_int) s).

(** The declarators of one declaration, `while (tk != ';' && tk != '}') { ... }`. *)
Fixpoint declarators (n : nat) : M := fun s =>
  if negb (tk s =? 59) && negb (tk s =? 125) then
    match n with
    | O => NoFuel
    | S n' =>
        (upd (fun s => set_m_ty (m_bt s) s)
         >> ptr_stars n'
         >> (fun s =>
               if negb (tk s =? Tok.Id) then fail "bad global declaration" s
               else if negb (Class (id_rec s) =? 0) then fail "duplicate global definition" s
               else Ok s)
         >> next
         >> (fun s => id_set (with_Type (m_ty s)) s)
         >> (fun s => if tk s =? 40 then fundef n' s else global s)
         >> comma >> declarators n') s
    end
  else Ok s.

(** `while (tk) { bt = INT; ...; <declarators>; next(); }` *)
Fixpoint toplevel (n : nat) : M := fun s =>
  if negb (tk s =? 0) then
    match n with
    | O => NoFuel
    | S n' =>
        (upd (set_m_bt INT)
         >> (fun s => if tk s =? Tok.Int then next s
                      else if tk s =? Tok.Char then (next >> upd (set_m_bt CHAR)) s
                      else if tk s =? Tok.Enum then enum_decl n' s
                      else Ok s)
         >> declarators n' >> next >> toplevel n') s
    end
  else Ok s.

(** `line = 1; next(); while (tk) { ... }` *)
Definition program (fuel : nat) : M :=
  upd (set_line 1) >> next >> toplevel fuel.

(** *** From the command line to the parsed program *)

Definition mallocs (k : nat) : list call := replicate k (Cmalloc poolsz).

Definition no_malloc (area : string) : string :=
  "could not malloc(" +:+ fmt_d poolsz +:+ ") " +:+ area +:+ " area" +:+ nl.

(** [main] up to `close(fd);`: the host calls made and the globals, with `p`
    and `lp` at the text that was read.  The local `fd` is declared and
    never assigned. *)
Definition startup (H : host) (args : list string) : list call * result state :=
  let fd : arg := Indeterminate in
  let '(sr, db, argv) := flags (tail args) in
  if Z.of_nat (length argv) <? 1
  then ([], Fail ("usage: c4 [-s] [-d] file ..." +:+ nl))
  else if h_malloc H 0 =? 0 then (mallocs 1, Fail (no_malloc "symbol"))
  else if h_malloc H 1 =? 0 then (mallocs 2, Fail (no_malloc "text"))
  else if h_malloc H 2 =? 0 then (mallocs 3, Fail (no_malloc "data"))
  else if h_malloc H 3 =? 0 then (mallocs 4, Fail (no_malloc "stack"))
  else
    match seed (init sr db (h_malloc H 1) (h_malloc H 2)) with
    | Ok s =>
        if h_malloc H 4 =? 0 then (mallocs 5, Fail (out s +:+ no_malloc "source"))
        else
          let '(i, bytes) := h_read H (h_junk H "fd") (poolsz - 1) in
          let calls := mallocs 5 ++ [Cread fd (h_malloc H 4) (poolsz - 1)] in
          if i <=? 0
          then (calls, Fail (out s +:+ "read() returned " +:+ fmt_d i +:+ nl))
          else if (Z.of_nat (String.length bytes) <? i) then (calls, Undef)
          else
            let txt := String.substring 0 (Z.to_nat i) bytes in
            (calls ++ [Cclose fd], Ok (set_lp txt (set_p txt s)))
    | other => (mallocs 4, other)
    end.

(** `if (!(pc = (int * )idmain[Val])) { printf("main() not defined\n"); return -1; }` *)
Definition main_defined : M := fun s =>
  if Val (sym_at (m_idmain s) (sym s)) =? 0
  then Fail (out s +:+ "main() not defined" +:+ nl)
  else Ok s.

(** [main] up to the test of `src`: everything before the virtual machine. *)
Definition compile (H : host) (args : list string) (fuel : nat)
  : list call * result state :=
  let '(calls, r) := startup H args in
  (calls, match r with
          | Ok s => (program fuel >> main_defined) s
          | other => other
          end).

(** ** The virtual machine *)

(** The registers `pc`, `sp`, `bp`, `a`, the counter `cycle`, the bytes the
    running program has written ([mem], over the image the compiler left),
    standard output and the host calls made. *)
Record vm := mkVm {
  pc : Z;
  sp : Z;
  bp : Z;
  a : Z;
  cycle : Z;
  mem : gmap Z Z;
  vout : string;
  vcalls : list call
}.

Definition set_pc (x : Z) (v : vm) : vm :=
  mkVm x (sp v) (bp v) (a v) (cycle v) (mem v) (vout v) (vcalls v).
Definition set_sp (x : Z) (v : vm) : vm :=
  mkVm (pc v) x (bp v) (a v) (cycle v) (mem v) (vout v) (vcalls v).
Definition set_bp (x : Z) (v : vm) : vm :=
  mkVm (pc v) (sp v) x (a v) (cycle v) (mem v) (vout v) (vcalls v).
Definition set_a (x : Z) (v : vm) : vm :=
  mkVm (pc v) (sp v) (bp v) x (cycle v) (mem v) (vout v) (vcalls v).
Definition set_cycle (x : Z) (v : vm) : vm :=
  mkVm (pc v) (sp v) (bp v) (a v) x (mem v) (vout v) (vcalls v).
Definition set_mem (x : gmap Z Z) (v : vm) : vm :=
  mkVm (pc v) (sp v) (bp v) (a v) (cycle v) x (vout v) (vcalls v).
Definition print (o : string) (v : vm) : vm :=
  mkVm (pc v) (sp v) (bp v) (a v) (cycle v) (mem v) (vout v +:+ o) (vcalls v).
Definition called (c : call) (v : vm) : vm :=
  mkVm (pc v) (sp v) (bp v) (a v) (cycle v) (mem v) (vout v) (vcalls v ++ [c]).

(** Memory is byte-addressed and little-endian, a word has eight bytes.  A
    byte is [None] where nothing is known to have been stored (the stack
    arena comes from `malloc` and is not cleared).  Which addresses the host
    has mapped is not modelled: a store is taken to succeed. *)
Fixpoint le_bytes (n : nat) (v : Z) : list Z :=
  match n with
  | O => []
  | S k => v mod 256 :: le_bytes k (v / 256)
  end.

Fixpoint le_value (bs : list Z) : Z :=
  match bs with
  | [] => 0
  | b :: r => b + 256 * le_value r
  end.

(** The memory the compiler hands to the machine: the text and data arenas,
    zero where nothing was written, and the host's memory elsewhere. *)
Definition image (H : host) (s : state) : Z -> option Z := fun x =>
  if (tbase s <=? x) && (x <? tbase s + poolsz) then
    Some (nth (Z.to_nat ((x - tbase s) mod 8))
            (le_bytes 8 (peek 0 (Z.to_nat ((x - tbase s) / 8)) (text s))) 0)
  else if (dbase s <=? x) && (x <? dbase s + poolsz) then
    Some (peek 0 (Z.to_nat (x - dbase s)) (dseg s) mod 256)
  else if (h_malloc H 3 <=? x) && (x <? h_malloc H 3 + poolsz) then None
  else h_mem H x.

Section Machine.
Variable H : host.
Variable img : Z -> option Z.
(** The global `debug`. *)
Variable dbg : Z.
(** A bound on the length of the strings `printf` reads. *)
Variable strmax : nat.

Definition load_byte (m : gmap Z Z) (x : Z) : option Z :=
  match m !! x with
  | Some b => Some b
  | None => img x
  end.

Fixpoint load_bytes (m : gmap Z Z) (x : Z) (n : nat) : option (list Z) :=
  match n with
  | O => Some []
  | S k =>
      match load_byte m x, load_bytes m (x + 1) k with
      | Some b, Some bs => Some (b :: bs)
      | _, _ => None
      end
  end.

Fixpoint store_bytes (x : Z) (bs : list Z) (m : gmap Z Z) : gmap Z Z :=
  match bs with
  | [] => m
  | b :: r => store_bytes (x + 1) r (<[x := b]> m)
  end.

(** `*(int * )x` and `*(int * )x = w` *)
Definition load_word (m : gmap Z Z) (x : Z) : option Z :=
  match load_bytes m x 8 with
  | Some bs => Some (wrap (le_value bs))
  | None => None
  end.
Definition store_word (x w : Z) (m : gmap Z Z) : gmap Z Z :=
  store_bytes x (le_bytes 8 w) m.

(** A word passed to a variadic host function without being inspected. *)
Definition load_arg (m : gmap Z Z) (x : Z) : arg :=
  match load_word m x with
  | Some w => Value w
  | None => Indeterminate
  end.

(** The bytes of the NUL-terminated string at [x]. *)
Fixpoint cstring (n : nat) (m : gmap Z Z) (x : Z) : option (list Z) :=
  match n with
  | O => None
  | S k =>
      match load_byte m x with
      | Some b =>
          if b =? 0 then Some []
          else match cstring k m (x + 1) with
               | Some r => Some (b :: r)
               | None => None
               end
      | None => None
      end
  end.

Fixpoint string_of_bytes (bs : list Z) : string :=
  match bs with
  | [] => EmptyString
  | b :: r => String (ascii_of_char b) (string_of_bytes r)
  end.

(** What a C `printf` writes for the format [f] and the variadic arguments
    [args], for the conversions `%d` (of an `int`: the low 32 bits of the
    word passed), `%c`, `%s` and `%%` without flags, width or precision.
    [None]: the output is not defined (a conversion without an argument or
    with an indeterminate one, a string that is not readable) or the
    conversion is not one of these. *)
Fixpoint format (m : gmap Z Z) (f : list Z) (args : list arg) : option string :=
  match f with
  | [] => Some EmptyString
  | b :: r =>
      if b =? 37 then
        match r with
        | [] => None
        | c :: r' =>
            if c =? 37 then
              match format m r' args with
              | Some o => Some (String "%" o)
              | None => None
              end
            else
              match args with
              | Value x :: args' =>
                  match
                    (if c =? 100 then Some (fmt_d x)
                     else if c =? 99 then Some (String (ascii_of_char x) EmptyString)
                     else if c =? 115 then
                       match cstring strmax m x with
                       | Some bs => Some (string_of_bytes bs)
                       | None => None
                       end
                     else None),
                    format m r' args'
                  with
                  | Some o1, Some o2 => Some (o1 +:+ o2)
                  | _, _ => None
                  end
              | _ => None
              end
        end
      else
        match format m r args with
        | Some o => Some (String (ascii_of_char b) o)
        | None => None
        end
  end.

(** `printf((char * )f, args...)` *)
Definition c_printf (m : gmap Z Z) (f : Z) (args : list arg) : option string :=
  match cstring strmax m f with
  | Some bs => format m bs args
  | None => None
  end.

(** The result of one instruction. *)
Inductive vres : Type :=
| Running (v : vm)
| Returned (code : Z) (v : vm)
| Crashed
| OutOfCycles (v : vm).

Definition need {A : Type} (o : option A) (k : A -> vres) : vres :=
  match o with
  | Some x => k x
  | None => Crashed
  end.

(** `a = *sp++ <op> a` for the sixteen operators, [x] being `*sp` and [y]
    being `a`. *)
Definition alu (i x y : Z) : option Z :=
  if i =? Op.OR then Some (Z.lor x y)
  else if i =? Op.XOR then Some (Z.lxor x y)
  else if i =? Op.AND then Some (Z.land x y)
  else if i =? Op.EQ then Some (if x =? y then 1 else 0)
  else if i =? Op.NE then Some (if x =? y then 0 else 1)
  else if i =? Op.LT then Some (if x <? y then 1 else 0)
  else if i =? Op.GT then Some (if x >? y then 1 else 0)
  else if i =? Op.LE then Some (if x <=? y then 1 else 0)
  else if i =? Op.GE then Some (if x >=? y then 1 else 0)
  else if i =? Op.SHL then
    if (0 <=? y) && (y <? 64) then Some (wrap (Z.shiftl x y)) else None
  else if i =? Op.SHR then
    if (0 <=? y) && (y <? 64) then Some (Z.shiftr x y) else None
  else if i =? Op.ADD then Some (wrap (x + y))
  else if i =? Op.SUB then Some (wrap (x - y))
  else if i =? Op.MUL then Some (wrap (x * y))
  else if i =? Op.DIV then
    if (y =? 0) || (x =? - 2 ^ 63) && (y =? -1) then None else Some (Z.quot x y)
  else if i =? Op.MOD then
    if (y =? 0) || (x =? - 2 ^ 63) && (y =? -1) then None else Some (Z.rem x y)
  else None.

(** `memset` and `memcmp` on the machine's memory. *)
Fixpoint memset_bytes (x c : Z) (n : nat) (m : gmap Z Z) : gmap Z Z :=
  match n with
  | O => m
  | S k => memset_bytes (x + 1) c k (<[x := c mod 256]> m)
  end.

Fixpoint memcmp_bytes (m : gmap Z Z) (x y : Z) (n : nat) : option Z :=
  match n with
  | O => Some 0
  | S k =>
      match load_byte m x, load_byte m y with
      | Some b1, Some b2 =>
          if b1 =? b2 then memcmp_bytes m (x + 1) (y + 1) k else Some (b1 - b2)
      | _, _ => None
      end
  end.

(** The trace line of `-d`. *)
Definition trace (i : Z) (v : vm) : vres :=
  if dbg =? 0 then Running v
  else
    need (mnemonic i) (fun mn =>
      if has_operand i then
        need (load_word (mem v) (pc v)) (fun n =>
          Running (print (fmt_d (cycle v) +:+ "> " +:+ mn +:+ " " +:+ fmt_d n +:+ nl) v))
      else Running (print (fmt_d (cycle v) +:+ "> " +:+ mn +:+ nl) v)).

(** The instruction [i], after `i = *pc++; ++cycle;` and the trace. *)
Definition exec (i : Z) (v : vm) : vres :=
  let m := mem v in
  if i =? Op.LEA then
    need (load_word m (pc v)) (fun n => Running (set_pc (pc v + 8) (set_a (bp v + 8 * n) v)))
  else if i =? Op.IMM then
    need (load_word m (pc v)) (fun n => Running (set_pc (pc v + 8) (set_a n v)))
  else if i =? Op.JMP then
    need (load_word m (pc v)) (fun n => Running (set_pc n v))
  else if i =? Op.JSR then
    let m := store_word (sp v - 8) (pc v + 8) m in
    need (load_word m (pc v)) (fun n =>
      Running (set_pc n (set_mem m (set_sp (sp v - 8) v))))
  else if i =? Op.BZ then
    if negb (a v =? 0) then Running (set_pc (pc v + 8) v)
    else need (load_word m (pc v)) (fun n => Running (set_pc n v))
  else if i =? Op.BNZ then
    if negb (a v =? 0) then need (load_word m (pc v)) (fun n => Running (set_pc n v))
    else Running (set_pc (pc v + 8) v)
  else if i =? Op.ENT then
    let m := store_word (sp v - 8) (bp v) m in
    need (load_word m (pc v)) (fun n =>
      Running (set_pc (pc v + 8)
                 (set_sp (sp v - 8 - 8 * n) (set_bp (sp v - 8) (set_mem m v)))))
  else if i =? Op.ADJ then
    need (load_word m (pc v)) (fun n =>
      Running (set_pc (pc v + 8) (set_sp (sp v + 8 * n) v)))
  else if i =? Op.LEV then
    need (load_word m (bp v)) (fun b =>
      need (load_word m (bp v + 8)) (fun r =>
        Running (set_pc r (set_bp b (set_sp (bp v + 16) v)))))
  else if i =? Op.LI then
    need (load_word m (a v)) (fun w => Running (set_a w v))
  else if i =? Op.LC then
    need (load_byte m (a v)) (fun b => Running (set_a (to_char b) v))
  else if i =? Op.SI then
    need (load_word m (sp v)) (fun x =>
      Running (set_mem (store_word x (a v) m) (set_sp (sp v + 8) v)))
  else if i =? Op.SC then
    need (load_word m (sp v)) (fun x =>
      Running (set_a (to_char (a v))
                 (set_mem (<[x := a v mod 256]> m) (set_sp (sp v + 8) v))))
  else if i =? Op.PSH then
    Running (set_mem (store_word (sp v - 8) (a v) m) (set_sp (sp v - 8) v))
  else if (Op.OR <=? i) && (i <=? Op.MOD) then
    need (load_word m (sp v)) (fun x =>
      need (alu i x (a v)) (fun r => Running (set_a r (set_sp (sp v + 8) v))))
  else if i =? Op.OPEN then
    need (load_word m (sp v + 8)) (fun path =>
      need (load_word m (sp v)) (fun fl =>
        let c := Copen path fl in
        Running (set_a (fst (h_vm H (vcalls v) c)) (called c v))))
  else if i =? Op.READ then
    need (load_word m (sp v + 16)) (fun fd =>
      need (load_word m (sp v + 8)) (fun buf =>
        need (load_word m (sp v)) (fun n =>
          let c := Cread (Value fd) buf n in
          let '(r, bytes) := h_vm H (vcalls v) c in
          Running (set_a r
                     (set_mem (store_bytes buf
                                 (map (fun ch => Z.of_N (N_of_ascii ch))
                                    (list_ascii_of_string bytes)) m)
                        (called c v))))))
  else if i =? Op.CLOS then
    need (load_word m (sp v)) (fun fd =>
      let c := Cclose (Value fd) in
      Running (set_a (fst (h_vm H (vcalls v) c)) (called c v)))
  else if i =? Op.PRTF then
    need (load_word m (pc v + 8)) (fun n =>
      let t := sp v + 8 * n in
      need (load_word m (t - 8)) (fun f =>
        need (c_printf m f
                [load_arg m (t - 16); load_arg m (t - 24); load_arg m (t - 32);
                 load_arg m (t - 40); load_arg m (t - 48)])
          (fun o => Running (set_a (Z.of_nat (String.length o)) (print o v)))))
  else if i =? Op.MALC then
    need (load_word m (sp v)) (fun n =>
      let c := Cmalloc n in
      Running (set_a (fst (h_vm H (vcalls v) c)) (called c v)))
  else if i =? Op.FREE then
    need (load_word m (sp v)) (fun x => Running (called (Cfree x) v))
  else if i =? Op.MSET then
    need (load_word m (sp v + 16)) (fun x =>
      need (load_word m (sp v + 8)) (fun c =>
        need (load_word m (sp v)) (fun n =>
          if n <? 0 then Crashed
          else Running (set_a x (set_mem (memset_bytes x c (Z.to_nat n) m) v)))))
  else if i =? Op.MCMP then
    need (load_word m (sp v + 16)) (fun x =>
      need (load_word m (sp v + 8)) (fun y =>
        need (load_word m (sp v)) (fun n =>
          if n <? 0 then Crashed
          else need (memcmp_bytes m x y (Z.to_nat n)) (fun r => Running (set_a r v)))))
  else if i =? Op.EXIT then
    need (load_word m (sp v)) (fun c =>
      Returned c
        (print ("exit(" +:+ fmt_d c +:+ ") cycle = " +:+ fmt_d (cycle v) +:+ nl) v))
  else
    Returned (-1)
      (print ("unknown instruction = " +:+ fmt_d i +:+ "! cycle = "
              +:+ fmt_d (cycle v) +:+ nl) v).

(** One turn of `while (1) { i = *pc++; ++cycle; ... }`. *)
Definition step (v : vm) : vres :=
  need (load_word (mem v) (pc v)) (fun i =>
    match trace i (set_cycle (wrap (cycle v + 1)) (set_pc (pc v + 8) v)) with
    | Running v' => exec i v'
    | other => other
    end).

Fixpoint run (n : nat) (v : vm) : vres :=
  match n with
  | O => OutOfCycles v
  | S k =>
      match step v with
      | Running v' => run k v'
      | other => other
      end
  end.
End Machine.

(** The stack and registers when the machine starts:
    `bp = sp = (int * )((int)sp + poolsz); *--sp = EXIT; *--sp = PSH; t = sp;
     *--sp = argc; *--sp = (int)argv; *--sp = (int)t;`
    with `pc` at `main`; the register `a` has not been assigned. *)
Definition boot (H : host) (s : state) (argc argv : Z) : vm :=
  let top := h_malloc H 3 + poolsz in
  let img := image H s in
  let m := store_word (top - 8) Op.EXIT ∅ in
  let m := store_word (top - 16) Op.PSH m in
  let m := store_word (top - 24) argc m in
  let m := store_word (top - 32) argv m in
  let m := store_word (top - 40) (top - 16) m in
  mkVm (Val (sym_at (m_idmain s) (sym s))) (top - 40) top (h_junk H "a") 0 m
    (out s) [].

(** What a run of the program leaves: the host calls, standard output, the
    number of instructions executed and how it ended ([Ok c]: [main]
    returned [c]; [Fail]: it returned -1 after a diagnostic). *)
Record outcome := mkOutcome {
  o_calls : list call;
  o_out : string;
  o_cycles : Z;
  o_end : result Z
}.

(** [main]; [fuel] bounds the compiler's loops and [cycles] the number of
    instructions the machine may execute. *)
Definition main (H : host) (args : list string) (fuel cycles : nat) : outcome :=
  let '(calls, r) := compile H args fuel in
  match r with
  | Ok s =>
      if negb (src s =? 0) then mkOutcome calls (out s) 0 (Ok 0)
      else
        let '(_, _, argv) := flags (tail args) in
        let argc := Z.of_nat (length argv) in
        let argp := h_argv H + 8 * (Z.of_nat (length args) - argc) in
        match run H (image H s) (debug s) cycles cycles (boot H s argc argp) with
        | Returned c v => mkOutcome (calls ++ vcalls v) (vout v) (cycle v) (Ok c)
        | Crashed => mkOutcome calls (out s) 0 Undef
        | Running v | OutOfCycles v =>
            mkOutcome (calls ++ vcalls v) (vout v) (cycle v) NoFuel
        end
  | Fail o => mkOutcome calls o 0 (Fail o)
  | Undef => mkOutcome calls EmptyString 0 Undef
  | NoFuel => mkOutcome calls EmptyString 0 NoFuel
  end.

(** * Definitions for the properties *)

(** The globals after [seed], for any flags and arena addresses. *)
Definition seeded_state (sr db tb dbs : Z) : state :=
  Eval vm_compute in
    match seed (init sr db tb dbs) with
    | Ok s => s
    | _ => init sr db tb dbs
    end.

(** The symbol table after [seed]: the eight keywords, the nine library
    functions, `void` and `main`. *)
Definition seed_table : list symrec :=
  Eval vm_compute in sym (seeded_state 0 0 0 0).

(** What the lexer looks at in a record. *)
Definition key (r : symrec) : Z * Z * string := (Tk r, Hash r, Name r).

(** The nineteen seeded records are still there, as far as the lexer can
    tell. *)
Definition seeded (t : list symrec) : Prop :=
  take 19 (key <$> t) = key <$> seed_table.

(** No record has `Loc` saved in its shadow slot. *)
Definition shadows_ok (t : list symrec) : Prop :=
  Forall (fun r => HClass r <> Tok.Loc) t.

(** What every symbol table of a compilation satisfies. *)
Definition sym_ok (t : list symrec) : Prop := shadows_ok t /\ seeded t.

(** The flag `src` keeps its value [c], the seeded records stay, and no
    shadow slot holds `Loc`. *)
Definition inv (c : Z) (s : state) : Prop := src s = c /\ sym_ok (sym s).



(** The [n] cells of the text of [s] from index [i] on. *)
Definition code_from (i n : nat) (s : state) : list Z :=
  List.map (fun k => peek 0 (i + k) (text s)) (List.seq 0 n).

(** ** Worked inputs *)

(** The double quote, for the string literals of a source text. *)
Definition dq : string := String (ascii_of_nat 34) EmptyString.

(** A host with room for the five arenas, whose `read` delivers [txt]. *)
Definition demo_host (txt : string) : host :=
  mkHost (fun k => 1048576 * (Z.of_nat k + 1)) (fun _ => 0)
    (fun _ _ => (Z.of_nat (String.length txt), txt)) 16 (fun _ => None)
    (fun _ _ => (0, EmptyString)).

(** The globals after `c4 prog.c` has parsed [txt]. *)
Definition compiled (txt : string) : result state :=
  snd (compile (demo_host txt) ["c4"; "prog.c"] 100).

(** The seeded globals with the text [txt] still to be read. *)
Definition at_text (txt : string) (s : state) : state := set_lp txt (set_p txt s).

(** The state a step ends in, when it does. *)
Definition after (r : result state) : state :=
  match r with
  | Ok s => s
  | _ => seeded_state 0 0 0 0
  end.

(** The states of the worked input: `int *x;` has been declared and the
    statement `++x;`, respectively `x++;`, is being read. *)
Definition w_decl : state :=
  after (program 10 (at_text "int *x;" (seeded_state 0 0 4096 8192))).
Definition w_pre : state := after (next (set_p "++x;" w_decl)).
Definition w_pre1 : state := after (next w_pre).
Definition w_pre2 : state := after (expr 10 Tok.Inc w_pre1).
Definition w_post : state :=
  after (expr_head (expr 10) 10 (after (next (set_p "x++;" w_decl)))).

(** The worked input: `int *x;` has been declared and `x - x;` is read up
    to the operator. *)
Definition w_sub : state :=
  after (expr_head (expr 10) 10 (after (next (set_p "x - x;" w_decl)))).
Definition w_sub2 : state :=
  after ((next >> emit Op.PSH >> expr 10 Tok.Mul) w_sub).



(** The registers after `i = *pc++; ++cycle;`. *)
Definition fetched (v : vm) : vm :=
  set_cycle (wrap (cycle v + 1)) (set_pc (pc v + 8) v).


Definition five_prog : string :=
  "int main(){ printf(" +:+ dq +:+ "%d %d %d %d %d\n" +:+ dq
  +:+ ", 1,2,3,4,5); return 0; }".

(** The machine running [txt], stopped when [k] instructions are done and
    the next one is fetched. *)
Definition stopped (txt : string) (k : nat) : vm :=
  let H := demo_host txt in
  let s := after (compiled txt) in
  match run H (image H s) 0 100 k (boot H s 1 24) with
  | OutOfCycles v => fetched v
  | _ => boot H s 1 24
  end.

(** The memory the machine starts from when running [txt]. *)
Definition image_of (txt : string) : Z -> option Z :=
  image (demo_host txt) (after (compiled txt)).


(** ** Words for the properties of the lexer *)

(** Every character of [w] passes the test [f]. *)
Fixpoint all_chars (f : Z -> bool) (w : string) : bool :=
  match w with
  | EmptyString => true
  | String c r => f (char_val c) && all_chars f r
  end.

(** The characters the `if` chain of [next] has a branch for. *)
Definition has_case (t : Z) : bool :=
  (t =? 10) || (t =? 35) || is_alpha t || is_digit t || (t =? 47)
  || (t =? 39) || (t =? 34) || (t =? 61) || (t =? 43) || (t =? 45) || (t =? 33)
  || (t =? 60) || (t =? 62) || (t =? 124) || (t =? 38) || (t =? 94) || (t =? 37)
  || (t =? 42) || (t =? 91) || (t =? 63) || (t =? 126) || (t =? 59) || (t =? 123)
  || (t =? 125) || (t =? 40) || (t =? 41) || (t =? 93) || (t =? 44) || (t =? 58).

(** Neither the terminator nor a newline: what `while ( *p != 0 && *p != '\n')`
    steps over. *)
Definition not_eol (v : Z) : bool := negb (v =? 0) && negb (v =? 10).
(** The value `(tk << 6) + (p - pp)` that [next] computes for the identifier
    whose first character is [c] and whose other characters are [w]. *)
Definition ident_hash (c : ascii) (w : string) : Z :=
  wrap (fst (scan_ident (char_val c) w) * 64 + Z.of_nat (S (String.length w))).

(** The worked input: the word `x1` has been read for the first time. *)
Definition w_ident : state :=
  after (next (set_p (String "x" "1" +:+ " = x1;") (seeded_state 0 0 0 0))).

(** A character that a literal with the quote [q] takes as it is: neither
    the terminator, nor the quote, nor a backslash. *)
Definition plain (q v : Z) : bool := negb (v =? 0) && negb (v =? q) && negb (v =? 92).

(** The loop of a literal over characters it takes as they are. *)
Fixpoint store_chars (q : Z) (body : string) (s : state) : state :=
  match body with
  | EmptyString => s
  | String c r => store_chars q r (store_char q (char_val c) s)
  end.

(** The globals [next] has no business with: the code emitted so far, the
    type and frame size of the parser, the flags and the locals of [main]. *)
Definition same_code (s s' : state) : Prop :=
  e s' = e s /\ text s' = text s /\ tbase s' = tbase s /\ dbase s' = dbase s
  /\ ty s' = ty s /\ loc s' = loc s /\ src s' = src s /\ debug s' = debug s
  /\ m_bt s' = m_bt s /\ m_ty s' = m_ty s /\ m_i s' = m_i s
  /\ m_idmain s' = m_idmain s.

(** What [next] leaves alone besides when `src` is not set: the output and
    the pointers of the listing. *)
Definition quiet (s s' : state) : Prop :=
  src s' = 0 /\ out s' = out s /\ le_ s' = le_ s /\ lp s' = lp s.

(** A program with a call, and the machine an instruction leaves. *)
Definition call_prog : string :=
  "int f(int x) { return x + 1; } int main() { return f(41); }".

Definition running (r : vres) (d : vm) : vm :=
  match r with
  | Running v => v
  | _ => d
  end.

(** A program that returns at once. *)
Definition seven_prog : string := "int main() { return 7; }".

(** ** Words for the properties of the compiler *)

(** A record that stands for a library function holds one of the opcodes
    `OPEN` to `EXIT`, in its live fields and in its shadow fields. *)
Definition lib_rec (r : symrec) : Prop :=
  (Class r = Tok.Sys -> Op.OPEN <= Val r <= Op.EXIT)
  /\ (HClass r = Tok.Sys -> Op.OPEN <= HVal r <= Op.EXIT).

Definition libs_ok (s : state) : Prop := Forall lib_rec (sym s).

(** Where the code stands, seen from the cell [e0] after which a construct
    started: the library functions are in place, the text is where it was,
    the cells up to [e0] are those of [t0], `e` is not before [e0], and the
    first cell after [e0], once written, is not a load (`LC` or `LI`). *)
Definition grows (e0 : nat) (t0 : list Z) (tb : Z) (s : state) : Prop :=
  libs_ok s /\ tbase s = tb /\ (e0 <= e s)%nat
  /\ (forall k, (k <= e0)%nat -> peek 0 k (text s) = peek 0 k t0)
  /\ ((e0 < e s)%nat ->
      peek 0 (S e0) (text s) <> Op.LC /\ peek 0 (S e0) (text s) <> Op.LI).

(** The same, with at least one cell written. *)
Definition grown (e0 : nat) (t0 : list Z) (tb : Z) (s : state) : Prop :=
  grows e0 t0 tb s /\ (e0 < e s)%nat.

(** [lib_rec] and [libs_ok], computed. *)
Definition lib_recb (r : symrec) : bool :=
  (negb (Class r =? Tok.Sys) || (Op.OPEN <=? Val r) && (Val r <=? Op.EXIT))
  && (negb (HClass r =? Tok.Sys) || (Op.OPEN <=? HVal r) && (HVal r <=? Op.EXIT)).

Definition libs_okb (s : state) : bool := forallb lib_recb (sym s).

(** The worked inputs: a global `x` has been declared and a loop, a
    conditional or two function definitions are about to be read. *)
Definition w_body (body : string) : state :=
  after (next (set_p body
    (after (program 10 (at_text "int x;" (seeded_state 0 0 4096 8192)))))).

Definition w_while : state := w_body "while (x < 3) x = x + 1;".
Definition w_top : state := w_body "int f() { return x; } int g() { return 2; }".

(** What [main] prints when no file is named. *)
Definition usage : string := "usage: c4 [-s] [-d] file ..." +:+ nl.


(** * Properties *)

(** ** The symbol table after seeding *)

Lemma seed_init sr db tb dbs :
  seed (init sr db tb dbs) = Ok (seeded_state sr db tb dbs).
Proof. vm_compute. reflexivity. Qed.

Lemma seeded_state_sym sr db tb dbs : sym (seeded_state sr db tb dbs) = seed_table.
Proof. reflexivity. Qed.

Lemma seeded_state_src sr db tb dbs : src (seeded_state sr db tb dbs) = sr.
Proof. reflexivity. Qed.

Lemma seed_table_ok : sym_ok seed_table.
Proof.
  split.
  - unfold shadows_ok, seed_table. repeat constructor; discriminate.
  - reflexivity.
Qed.

(** *** Updates of the arena *)

Lemma peek_lookup {A} (z : A) i l x : l !! i = Some x -> peek z i l = x.
Proof. unfold peek. apply nth_lookup_Some. Qed.

Lemma peek_beyond {A} (z : A) i l : (length l <= i)%nat -> peek z i l = z.
Proof. unfold peek. intros. apply nth_overflow. lia. Qed.

Lemma poke_Forall {A} (P : A -> Prop) (z : A) i f l :
  Forall P l -> P z -> P (f (peek z i l)) -> Forall P (poke z i f l).
Proof.
  intros Hl Hz Hf. unfold poke.
  destruct (Nat.ltb_spec i (length l)) as [Hi|Hi].
  - apply Forall_alter; [assumption|].
    intros x Hx _. rewrite (peek_lookup z i l x Hx) in Hf. exact Hf.
  - rewrite (peek_beyond z i l Hi) in Hf.
    apply Forall_app. split; [assumption|].
    apply Forall_app. split; [apply Forall_replicate; assumption|].
    constructor; [assumption|constructor].
Qed.

Lemma poke_take_map {A B} (g : A -> B) (z : A) k i f l :
  (k <= length l)%nat ->
  ((i < k)%nat -> forall r, g (f r) = g r) ->
  take k (g <$> poke z i f l) = take k (g <$> l).
Proof.
  intros Hk Hf. unfold poke.
  destruct (Nat.ltb_spec i (length l)) as [Hi|Hi].
  - destruct (Nat.lt_ge_cases i k) as [Hik|Hik].
    + f_equal. apply list_eq. intros j.
      rewrite !list_lookup_fmap.
      destruct (decide (i = j)) as [->|Hne].
      * rewrite list_lookup_alter_eq. destruct (l !! j); simpl; [|reflexivity].
        f_equal. apply Hf. assumption.
      * rewrite list_lookup_alter_ne by assumption. reflexivity.
    + rewrite <- !fmap_take.
      rewrite take_alter_ge by assumption. reflexivity.
  - rewrite fmap_app, take_app_le by (rewrite length_fmap; lia). reflexivity.
Qed.

Lemma sym_at_shadows t i : shadows_ok t -> HClass (sym_at i t) <> Tok.Loc.
Proof.
  intros Ht. unfold sym_at.
  destruct (t !! i) as [r|] eqn:E.
  - rewrite (peek_lookup _ _ _ _ E).
    eapply (proj1 (Forall_lookup _ _) Ht); eassumption.
  - rewrite peek_beyond; [discriminate|]. apply lookup_ge_None. assumption.
Qed.

Lemma seeded_length t : seeded t -> (19 <= length t)%nat.
Proof.
  unfold seeded. intros Hs.
  assert (Hl : length (take 19 (key <$> t)) = 19%nat) by (rewrite Hs; reflexivity).
  rewrite length_take, length_fmap in Hl. lia.
Qed.

(** An update that leaves the lexer's fields alone and puts no `Loc` in the
    shadow slot. *)
Lemma sym_ok_upd i f t :
  (forall r, key (f r) = key r) ->
  HClass (f (sym_at i t)) <> Tok.Loc ->
  sym_ok t -> sym_ok (sym_upd i f t).
Proof.
  intros Hk Hh [Hs Hd]. split.
  - apply poke_Forall; [assumption|discriminate|assumption].
  - unfold seeded, sym_upd. rewrite poke_take_map; [assumption| |].
    + apply seeded_length in Hd. lia.
    + intros _. exact Hk.
Qed.

(** An update beyond the seeded records that leaves the shadow slot alone. *)
Lemma sym_ok_upd_far i f t :
  (19 <= i)%nat ->
  (forall r, HClass (f r) = HClass r) ->
  sym_ok t -> sym_ok (sym_upd i f t).
Proof.
  intros Hi Hh [Hs Hd]. split.
  - apply poke_Forall; [assumption|discriminate|].
    rewrite Hh. apply sym_at_shadows. assumption.
  - unfold seeded, sym_upd. rewrite poke_take_map; [assumption| |].
    + apply seeded_length in Hd. lia.
    + intros Hlt. lia.
Qed.

(** *** The walk of the lexer *)

Lemma find_sym_stop h pp n t k i :
  find_sym h pp n t k = (i, false) ->
  (k <= i)%nat /\ forall r, t !! (i - k)%nat = Some r -> Tk r = 0.
Proof.
  revert k. induction t as [|r0 t IH]; intros k Hf; simpl in Hf.
  - injection Hf as <-. split; [lia|]. intros r Hr. discriminate.
  - destruct (Tk r0 =? 0) eqn:E0.
    + injection Hf as <-. split; [lia|].
      replace (k - k)%nat with 0%nat by lia. intros r [= <-].
      apply Z.eqb_eq. assumption.
    + destruct ((h =? Hash r0) && memcmp_eq (Name r0) pp n); [discriminate|].
      destruct (IH _ Hf) as [Hle Hr]. split; [lia|].
      replace (i - k)%nat with (S (i - S k)) by lia. exact Hr.
Qed.

Lemma seed_table_tk : Forall (fun r => Tk r <> 0) seed_table.
Proof. unfold seed_table. repeat constructor; discriminate. Qed.

Lemma seeded_lookup t i r :
  seeded t -> (i < 19)%nat -> t !! i = Some r ->
  exists r0, seed_table !! i = Some r0 /\ key r = key r0.
Proof.
  unfold seeded. intros Hs Hi Hr.
  assert (Hk : take 19 (key <$> t) !! i = Some (key r)).
  { rewrite lookup_take_lt by assumption. rewrite list_lookup_fmap, Hr. reflexivity. }
  rewrite Hs, list_lookup_fmap in Hk.
  destruct (seed_table !! i) as [r0|]; [|discriminate].
  exists r0. split; [reflexivity|]. simpl in Hk. congruence.
Qed.

(** A new identifier is stored after the seeded records. *)
Lemma find_sym_seeded h pp n t i :
  seeded t -> find_sym h pp n t 0 = (i, false) -> (19 <= i)%nat.
Proof.
  intros Hs Hf. destruct (find_sym_stop _ _ _ _ _ _ Hf) as [_ Hr].
  destruct (Nat.lt_ge_cases i 19) as [Hi|Hi]; [exfalso|assumption].
  replace (i - 0)%nat with i in Hr by lia.
  pose proof (seeded_length _ Hs) as Hl.
  destruct (t !! i) as [r|] eqn:E.
  - destruct (seeded_lookup _ _ _ Hs Hi E) as (r0 & E0 & Hk).
    pose proof (proj1 (Forall_lookup _ _) seed_table_tk _ _ E0) as Hne.
    apply Hne. specialize (Hr r eq_refl).
    unfold key in Hk. congruence.
  - apply lookup_ge_None in E. lia.
Qed.

(** *** What the compiler never changes *)

Lemma seqM_inv (f g : M) s s' :
  (f >> g) s = Ok s' -> exists sm, f s = Ok sm /\ g sm = Ok s'.
Proof.
  unfold seqM. destruct (f s) as [sm| | |]; try discriminate.
  intros H. exists sm. split; [reflexivity|assumption].
Qed.

Lemma id_set_inv c f s s' :
  inv c s -> id_set f s = Ok s' ->
  (forall r, key (f r) = key r) ->
  HClass (f (id_rec s)) <> Tok.Loc ->
  inv c s'.
Proof.
  intros [Hc Hs] [= <-] Hk Hh. split; [exact Hc|].
  simpl. apply sym_ok_upd; assumption.
Qed.

Ltac head_of t :=
  lazymatch t with
  | ?f _ => head_of f
  | _ => t
  end.

(** The loops that end in a continuation are added below. *)
Ltac walk_loop HP H := fail.

(** Follow the code of a step [H : f s = Ok s'] from [HP : inv c s] to
    [inv c s']. *)
Ltac walk HP H :=
  cbv beta zeta in H;
  lazymatch type of H with
  | Ok _ = Ok _ =>
      injection H as <-;
      first
        [ exact HP
        | repeat match goal with
                 | |- context [if ?c then _ else _] => destruct c
                 | |- context [match ?x with _ => _ end] => destruct x
                 end;
          exact HP ]
  | Fail _ = Ok _ => discriminate H
  | Undef = Ok _ => discriminate H
  | NoFuel = Ok _ => discriminate H
  | fail _ _ = Ok _ => discriminate H
  | seqM _ _ _ = Ok _ =>
      let sm := fresh "sm" in
      let H1 := fresh "H" in
      let HP1 := fresh "HP" in
      apply seqM_inv in H; destruct H as (sm & H1 & H);
      assert (HP1 : inv _ sm) by (walk HP H1);
      clear H1; walk HP1 H
  | (if ?c then _ else _) = Ok _ =>
      let E := fresh "E" in destruct c eqn:E; walk HP H
  | (if ?c then _ else _) _ = Ok _ =>
      let E := fresh "E" in destruct c eqn:E; walk HP H
  | (let '(_, _) := ?x in _) = Ok _ =>
      let E := fresh "E" in destruct x eqn:E; walk HP H
  | match ?x with _ => _ end = Ok _ =>
      let E := fresh "E" in destruct x eqn:E; walk HP H
  | id_set _ ?st = Ok _ =>
      let HPx := fresh "HP" in
      assert (HPx : inv _ st) by exact HP;
      eapply (id_set_inv _ _ _ _ HPx H);
      [ intros ?; reflexivity
      | unfold id_rec; simpl;
        first [ apply sym_at_shadows; exact (proj1 (proj2 HPx))
              | apply Z.eqb_neq; assumption ] ]
  | ?f ?st = Ok _ =>
      first
        [ walk_loop HP H
        | solve [ let HPx := fresh "HP" in
                  assert (HPx : inv _ st) by exact HP; eauto 4 with pres ]
        | let h := head_of f in unfold h in H; walk HP H ]
  end.

Create HintDb pres.

Lemma list_code_inv c n s s' : list_code n s = Ok s' -> inv c s -> inv c s'.
Proof.
  revert s s'. induction n as [|n IH]; intros s s' H HP; cbn [list_code] in H;
    walk HP H.
Qed.
#[export] Hint Resolve list_code_inv : pres.

Lemma listing_inv c s s' : listing s = Ok s' -> inv c s -> inv c s'.
Proof. intros H HP. walk HP H. Qed.
#[export] Hint Resolve listing_inv : pres.

Lemma store_char_inv c q v s : inv c s -> inv c (store_char q v s).
Proof. intros HP. unfold store_char. destruct (q =? 34); exact HP. Qed.

Lemma scan_str_inv_n c q n :
  forall str s s', (String.length str <= n)%nat ->
  scan_str q str s = Ok s' -> inv c s -> inv c s'.
Proof.
  induction n as [|n IH]; intros str s s' Hn H HP.
  - destruct str; [|simpl in Hn; lia]. simpl in H. walk HP H.
  - destruct str as [|ch r]; simpl in H; [walk HP H|].
    destruct ((char_val ch =? 0) || (char_val ch =? q)); [walk HP H|].
    simpl in Hn.
    destruct (char_val ch =? 92).
    + destruct r as [|c2 r2]; [discriminate|].
      eapply (IH r2); [simpl in Hn; lia|exact H|].
      apply store_char_inv. exact HP.
    + eapply (IH r); [lia|exact H|]. apply store_char_inv. exact HP.
Qed.

Lemma scan_str_inv c q str s s' : scan_str q str s = Ok s' -> inv c s -> inv c s'.
Proof. apply (scan_str_inv_n c q (String.length str)). lia. Qed.
#[export] Hint Resolve scan_str_inv : pres.

Lemma lex_str_inv c q s s' : lex_str q s = Ok s' -> inv c s -> inv c s'.
Proof.
  intros H HP. unfold lex_str in H.
  destruct (scan_str q (p s) s) as [s1| | |] eqn:E; try discriminate.
  pose proof (scan_str_inv _ _ _ _ _ E HP) as HP1.
  walk HP1 H.
Qed.
#[export] Hint Resolve lex_str_inv : pres.

Lemma lex_num_inv c t s s' : lex_num t s = Ok s' -> inv c s -> inv c s'.
Proof. intros H HP. walk HP H. Qed.
#[export] Hint Resolve lex_num_inv : pres.

Lemma lex_ident_inv c t pp r s s' : lex_ident t pp r s = Ok s' -> inv c s -> inv c s'.
Proof.
  intros H HP. unfold lex_ident in H.
  destruct (scan_ident t r) as [h q].
  destruct (find_sym _ _ _ (sym s) 0) as [i found] eqn:Ef.
  destruct found.
  - walk HP H.
  - injection H as <-. destruct HP as [Hc Hs]. split; [exact Hc|].
    simpl. apply sym_ok_upd_far; [|reflexivity|assumption].
    eapply find_sym_seeded; [apply Hs|exact Ef].
Qed.
#[export] Hint Resolve lex_ident_inv : pres.

Lemma next_loop_inv c n s s' : next_loop n s = Ok s' -> inv c s -> inv c s'.
Proof.
  revert s s'. induction n as [|n IH]; intros s s' H HP; cbn [next_loop] in H;
    walk HP H.
Qed.

Lemma next_inv c s s' : next s = Ok s' -> inv c s -> inv c s'.
Proof. apply next_loop_inv. Qed.
#[export] Hint Resolve next_inv : pres.

(** *** [expr], [stmt] and the declarations *)

Lemma more_strings_inv c n s s' : more_strings n s = Ok s' -> inv c s -> inv c s'.
Proof.
  revert s s'. induction n as [|n IH]; intros s s' H HP; cbn [more_strings] in H;
    walk HP H.
Qed.
#[export] Hint Resolve more_strings_inv : pres.

Lemma stars_inv c n t k s s' :
  (forall t s s', k t s = Ok s' -> inv c s -> inv c s') ->
  stars n t k s = Ok s' -> inv c s -> inv c s'.
Proof.
  intros Hk. revert t s s'.
  induction n as [|n IH]; intros t s s' H HP; cbn [stars] in H; walk HP H.
Qed.

Lemma call_args_inv c rec n t k s s' :
  (forall lev s s', rec lev s = Ok s' -> inv c s -> inv c s') ->
  (forall t s s', k t s = Ok s' -> inv c s -> inv c s') ->
  call_args rec n t k s = Ok s' -> inv c s -> inv c s'.
Proof.
  intros Hrec Hk. revert t s s'.
  induction n as [|n IH]; intros t s s' H HP; cbn [call_args] in H; walk HP H.
Qed.

Ltac walk_loop HP H ::=
  lazymatch type of H with
  | stars _ _ _ _ = Ok _ =>
      eapply stars_inv; [ | exact H | exact HP ];
      let HPx := fresh "HP" in
      let Hx := fresh "H" in
      intros ? ? ? Hx HPx; walk HPx Hx
  | call_args _ _ _ _ _ = Ok _ =>
      eapply call_args_inv; [ | | exact H | exact HP ];
      [ eauto 3 with pres
      | let HPx := fresh "HP" in
        let Hx := fresh "H" in
        intros ? ? ? Hx HPx; walk HPx Hx ]
  end.

Section ExprInv.
Variable c : Z.
Variable rec : Z -> M.
Hypothesis rec_inv : forall lev s s', rec lev s = Ok s' -> inv c s -> inv c s'.

Lemma expr_head_inv n s s' : expr_head rec n s = Ok s' -> inv c s -> inv c s'.
Proof. intros H HP. unfold expr_head in H. walk HP H. Qed.

Lemma expr_op_inv s s' : expr_op rec s = Ok s' -> inv c s -> inv c s'.
Proof. intros H HP. unfold expr_op in H. walk HP H. Qed.

Lemma expr_tail_inv n lev s s' :
  expr_tail rec n lev s = Ok s' -> inv c s -> inv c s'.
Proof.
  revert s s'. induction n as [|n IH]; intros s s' H HP; cbn [expr_tail] in H.
  - walk HP H.
  - destruct (tk s >=? lev); [|walk HP H].
    apply seqM_inv in H. destruct H as (sm & H1 & H).
    eapply IH; [exact H|]. eapply expr_op_inv; eassumption.
Qed.
End ExprInv.

Lemma expr_inv c fuel : forall lev s s', expr fuel lev s = Ok s' -> inv c s -> inv c s'.
Proof.
  induction fuel as [|f IH]; intros lev s s' H HP; cbn [expr] in H; [discriminate|].
  apply seqM_inv in H. destruct H as (sm & H1 & H).
  eapply expr_tail_inv; [exact IH|exact H|].
  eapply expr_head_inv; [exact IH|exact H1|exact HP].
Qed.
#[export] Hint Resolve expr_inv : pres.

Section StmtInv.
Variable c : Z.
Variable ex : Z -> M.
Variable st : M.
Hypothesis ex_inv : forall lev s s', ex lev s = Ok s' -> inv c s -> inv c s'.
Hypothesis st_inv : forall s s', st s = Ok s' -> inv c s -> inv c s'.

Lemma stmts_inv n s s' : stmts st n s = Ok s' -> inv c s -> inv c s'.
Proof.
  revert s s'. induction n as [|n IH]; intros s s' H HP; cbn [stmts] in H;
    walk HP H.
Qed.

Lemma stmt_body_inv n s s' : stmt_body ex st n s = Ok s' -> inv c s -> inv c s'.
Proof.
  pose proof stmts_inv as Hstmts.
  intros H HP. unfold stmt_body in H. walk HP H.
Qed.
End StmtInv.

Lemma stmt_inv c fuel : forall s s', stmt fuel s = Ok s' -> inv c s -> inv c s'.
Proof.
  induction fuel as [|f IH]; intros s s' H HP; cbn [stmt] in H; [discriminate|].
  eapply stmt_body_inv; [apply expr_inv|exact IH|exact H|exact HP].
Qed.
#[export] Hint Resolve stmt_inv : pres.

Lemma ptr_stars_inv c n s s' : ptr_stars n s = Ok s' -> inv c s -> inv c s'.
Proof.
  revert s s'. induction n as [|n IH]; intros s s' H HP; cbn [ptr_stars] in H;
    walk HP H.
Qed.
#[export] Hint Resolve ptr_stars_inv : pres.

Lemma enum_items_inv c n s s' : enum_items n s = Ok s' -> inv c s -> inv c s'.
Proof.
  revert s s'. induction n as [|n IH]; intros s s' H HP; cbn [enum_items] in H;
    walk HP H.
Qed.
#[export] Hint Resolve enum_items_inv : pres.

Lemma params_inv c n s s' : params n s = Ok s' -> inv c s -> inv c s'.
Proof.
  revert s s'. induction n as [|n IH]; intros s s' H HP; cbn [params] in H;
    walk HP H.
Qed.
#[export] Hint Resolve params_inv : pres.

Lemma local_names_inv c n s s' : local_names n s = Ok s' -> inv c s -> inv c s'.
Proof.
  revert s s'. induction n as [|n IH]; intros s s' H HP; cbn [local_names] in H;
    walk HP H.
Qed.
#[export] Hint Resolve local_names_inv : pres.

Lemma local_decls_inv c n s s' : local_decls n s = Ok s' -> inv c s -> inv c s'.
Proof.
  revert s s'. induction n as [|n IH]; intros s s' H HP; cbn [local_decls] in H;
    walk HP H.
Qed.
#[export] Hint Resolve local_decls_inv : pres.

(** The walk at the end of a function definition. *)
Lemma unwind_sym_keys t : key <$> unwind_sym t = key <$> t.
Proof.
  induction t as [|r t IH]; simpl; [reflexivity|].
  destruct (Tk r =? 0); [reflexivity|].
  rewrite fmap_cons, IH. destruct (Class r =? Tok.Loc); reflexivity.
Qed.

Lemma unwind_sym_shadows t : shadows_ok t -> shadows_ok (unwind_sym t).
Proof.
  unfold shadows_ok. induction 1 as [|r t Hr Ht IH]; simpl; [constructor|].
  destruct (Tk r =? 0); [constructor; assumption|].
  constructor; [|exact IH]. destruct (Class r =? Tok.Loc); exact Hr.
Qed.

Lemma unwind_inv c s s' : unwind s = Ok s' -> inv c s -> inv c s'.
Proof.
  intros [= <-] [Hc [Hs Hd]]. split; [exact Hc|]. simpl. split.
  - apply unwind_sym_shadows. exact Hs.
  - unfold seeded. rewrite unwind_sym_keys. exact Hd.
Qed.
#[export] Hint Resolve unwind_inv : pres.

Lemma stmts_stmt_inv c n m s s' : stmts (stmt m) n s = Ok s' -> inv c s -> inv c s'.
Proof. apply stmts_inv. apply stmt_inv. Qed.
#[export] Hint Resolve stmts_stmt_inv : pres.

Lemma fundef_inv c n s s' : fundef n s = Ok s' -> inv c s -> inv c s'.
Proof. intros H HP. unfold fundef in H. walk HP H. Qed.
#[export] Hint Resolve fundef_inv : pres.

Lemma declarators_inv c n s s' : declarators n s = Ok s' -> inv c s -> inv c s'.
Proof.
  revert s s'. induction n as [|n IH]; intros s s' H HP; cbn [declarators] in H;
    walk HP H.
Qed.
#[export] Hint Resolve declarators_inv : pres.

Lemma toplevel_inv c n s s' : toplevel n s = Ok s' -> inv c s -> inv c s'.
Proof.
  revert s s'. induction n as [|n IH]; intros s s' H HP; cbn [toplevel] in H;
    walk HP H.
Qed.
#[export] Hint Resolve toplevel_inv : pres.

Lemma program_inv c fuel s s' : program fuel s = Ok s' -> inv c s -> inv c s'.
Proof. intros H HP. unfold program in H. walk HP H. Qed.

Lemma main_defined_inv c s s' : main_defined s = Ok s' -> inv c s -> inv c s'.
Proof. intros H HP. unfold main_defined in H. walk HP H. Qed.

(** ** The command line *)

(** C10. The flag tests look at the first two characters of the current
    argument only, `-s` before `-d`: [is_flag] does not depend on the
    characters after the second; a first argument that begins with `-s`
    sets `src` whatever follows; `src` is decided by the first argument
    alone and `debug` by the first argument, or by the second when the
    first was taken as `-s`; and for `c4 -d -s file` only `debug` is set and
    `-s` is the first of the remaining arguments, where the file name is
    expected. *)
Theorem flags_first_two_characters_in_order :
  (forall c c1 c2 r r',
     is_flag c (String c1 (String c2 r)) = is_flag c (String c1 (String c2 r')))
  /\ (forall r rest, fst (fst (flags (String "-" (String "s" r) :: rest))) = 1)
  /\ (forall a rest, fst (fst (flags (a :: rest))) = if is_flag 115 a then 1 else 0)
  /\ (forall a rest,
        snd (fst (flags (a :: rest))) =
        if is_flag 115 a
        then match rest with
             | b :: _ => if is_flag 100 b then 1 else 0
             | [] => 0
             end
        else if is_flag 100 a then 1 else 0)
  /\ flags ["-d"; "-s"; "file"] = (0, 1, ["-s"; "file"])
  /\ flags ["-s"; "-d"; "file"] = (1, 1, ["file"]).
Proof.
  assert (Hsrc : forall a rest,
             fst (fst (flags (a :: rest))) = if is_flag 115 a then 1 else 0).
  { intros a rest. unfold flags. destruct (is_flag 115 a).
    - destruct rest as [|b rest']; [reflexivity|]. destruct (is_flag 100 b); reflexivity.
    - destruct (is_flag 100 a); reflexivity. }
  split; [reflexivity|].
  split; [intros r rest; rewrite Hsrc; reflexivity|].
  split; [exact Hsrc|].
  split; [|split; reflexivity].
  intros a rest. unfold flags. destruct (is_flag 115 a).
  - destruct rest as [|b rest']; [reflexivity|]. destruct (is_flag 100 b); reflexivity.
  - destruct (is_flag 100 a); reflexivity.
Qed.

(** ** Opcodes with an operand *)

(** C6, as the specification words it, fails: the opcodes that carry an
    operand are not the first nine of the enumeration.  The ninth, `LEV`,
    is greater than `ADJ`. *)
Lemma nine_operand_opcodes_counterexample :
  List.filter has_operand Op.all <> take 9 Op.all
  /\ nth 8 Op.all 0 = Op.LEV /\ has_operand Op.LEV = false.
Proof. split; [discriminate|split; reflexivity]. Qed.

(** Decide the opcode tests of [exec] for a given opcode. *)
Ltac exec_opcode Hx :=
  unfold exec in Hx;
  cbn [Z.eqb Pos.eqb Z.leb Z.compare Pos.compare Pos.compare_cont andb negb
       Op.LEA Op.IMM Op.JMP Op.JSR Op.BZ Op.BNZ Op.ENT Op.ADJ Op.LEV Op.LI Op.LC
       Op.SI Op.SC Op.PSH Op.OR Op.XOR Op.AND Op.EQ Op.NE Op.LT Op.GT Op.LE Op.GE
       Op.SHL Op.SHR Op.ADD Op.SUB Op.MUL Op.DIV Op.MOD Op.OPEN Op.READ Op.CLOS
       Op.PRTF Op.MALC Op.FREE Op.MSET Op.MCMP Op.EXIT] in Hx;
  repeat match type of Hx with
         | need ?o _ = _ => destruct o eqn:?; cbn [need] in Hx; [|discriminate Hx]
         | (if ?c then _ else _) = _ => destruct c eqn:?
         | (let '(_, _) := ?x in _) = _ => destruct x
         | Crashed = _ => discriminate Hx
         | Returned _ _ = _ => discriminate Hx
         end.

(** An opcode without operand leaves `pc` where the fetch left it; the
    one exception is `LEV`, which takes `pc` from the stack. *)
Lemma exec_without_operand H img n i v v' :
  In i Op.all -> has_operand i = false -> i <> Op.LEV ->
  exec H img n i v = Running v' -> pc v' = pc v.
Proof.
  intros Hin Hop Hlev Hx. unfold Op.all in Hin. simpl in Hin.
  repeat (destruct Hin as [<-|Hin]; [try discriminate Hop; try (exfalso; apply Hlev; reflexivity)|]);
    [..|contradiction];
    exec_opcode Hx; injection Hx as <-; reflexivity.
Qed.

(** An opcode with operand goes on behind the word at `pc`, its operand,
    or, for the jumps, at the address that word holds. *)
Lemma exec_with_operand H img n i v v' :
  In i Op.all -> has_operand i = true ->
  exec H img n i v = Running v' ->
  pc v' = pc v + 8 \/ load_word img (mem v') (pc v) = Some (pc v').
Proof.
  intros Hin Hop Hx. unfold Op.all in Hin. simpl in Hin.
  repeat (destruct Hin as [<-|Hin]; [try discriminate Hop|]);
    [..|contradiction];
    exec_opcode Hx; injection Hx as <-;
    cbn [mem pc sp bp a set_pc set_sp set_bp set_a set_mem]; auto.
Qed.

(** C6, amended. The opcodes with an operand are those not greater than
    `ADJ`: the first eight of the enumeration, `LEA` to `ADJ`; every other
    opcode, `LEV` to `EXIT`, has none.  The listing and the trace print an
    operand by this test, and the machine agrees: after an opcode of the
    first kind it goes on behind the next word or at the address in it,
    after one of the second kind it goes on at the next word (`LEV` apart,
    which returns). *)
Theorem operand_opcodes_are_first_eight :
  (forall i, has_operand i = true <-> i <= Op.ADJ)
  /\ List.filter has_operand Op.all = take 8 Op.all
  /\ take 8 Op.all = [Op.LEA; Op.IMM; Op.JMP; Op.JSR; Op.BZ; Op.BNZ; Op.ENT; Op.ADJ]
  /\ length (List.filter has_operand Op.all) = 8%nat
  /\ List.filter (fun i => negb (has_operand i)) Op.all = drop 8 Op.all
  /\ (forall H img n i v v',
        In i Op.all -> has_operand i = true ->
        exec H img n i v = Running v' ->
        pc v' = pc v + 8 \/ load_word img (mem v') (pc v) = Some (pc v'))
  /\ (forall H img n i v v',
        In i Op.all -> has_operand i = false -> i <> Op.LEV ->
        exec H img n i v = Running v' -> pc v' = pc v).
Proof.
  split; [intros i; unfold has_operand; apply Z.leb_le|].
  do 4 (split; [reflexivity|]).
  split.
  - intros H img n i v v'. apply exec_with_operand.
  - intros H img n i v v'. apply exec_without_operand.
Qed.

(** ** A lone exclamation mark *)

(** C5, as the specification words it, fails: [next] can return with the
    character `!` (33) as the token; on the text `!x` it does, with `x` still
    to be read. *)
Lemma bare_bang_counterexample :
  ~ (forall s s', next s = Ok s' -> tk s' <> 33)
  /\ next (set_p "!x" (seeded_state 0 0 0 0))
     = Ok (set_tk 33 (set_p "x" (seeded_state 0 0 0 0))).
Proof.
  split; [|reflexivity].
  intros H.
  apply (H (set_p "!x" (seeded_state 0 0 0 0))
           (set_tk 33 (set_p "x" (seeded_state 0 0 0 0)))); reflexivity.
Qed.

(** C5, amended. On a `!`, [next] returns at once: with the token `Ne` and
    both characters consumed when a `=` follows, and otherwise with the
    character `!` itself as the token and only it consumed. *)
Theorem bare_bang_is_returned (s : state) (r : string) :
  next (set_p (String "!" r) s) =
  if past s then Undef
  else Ok (if deref r =? 61 then set_tk Tok.Ne (set_p (advance r) s)
           else set_tk 33 (set_p r s)).
Proof.
  unfold next. cbn [p set_p String.length next_loop past].
  destruct (past s); [reflexivity|].
  cbn. destruct (deref r =? 61); reflexivity.
Qed.

(** ** The driver's host calls *)






(** ** Listing mode *)

(** The globals [main] starts parsing with. *)
Lemma startup_inv H args calls s :
  startup H args = (calls, Ok s) -> inv (fst (fst (flags (tail args)))) s.
Proof.
  unfold startup. destruct (flags (tail args)) as [[sr db] argv]. cbn [fst snd].
  destruct (Z.of_nat (length argv) <? 1); [discriminate|].
  destruct (h_malloc H 0 =? 0); [discriminate|].
  destruct (h_malloc H 1 =? 0); [discriminate|].
  destruct (h_malloc H 2 =? 0); [discriminate|].
  destruct (h_malloc H 3 =? 0); [discriminate|].
  rewrite seed_init.
  destruct (h_malloc H 4 =? 0); [discriminate|].
  destruct (h_read H (h_junk H "fd") (poolsz - 1)) as [i bytes].
  destruct (i <=? 0); [discriminate|].
  destruct (Z.of_nat (String.length bytes) <? i); [discriminate|].
  intros [= _ <-]. split; [reflexivity|]. exact seed_table_ok.
Qed.

Lemma compile_inv H args fuel calls s :
  compile H args fuel = (calls, Ok s) -> inv (fst (fst (flags (tail args)))) s.
Proof.
  unfold compile. destruct (startup H args) as [calls0 r] eqn:E.
  destruct r as [s0| | |]; try discriminate.
  intros [= _ Hs]. apply seqM_inv in Hs. destruct Hs as (sm & H1 & H2).
  eapply main_defined_inv; [exact H2|].
  eapply program_inv; [exact H1|].
  eapply startup_inv. exact E.
Qed.



(** Without `-s` the same program runs, and returns 7. *)
Example without_listing_mode_it_runs :
  o_end (main (demo_host "int main() { return 7; }") ["c4"; "prog.c"] 100 50) = Ok 7
  /\ o_cycles (main (demo_host "int main() { return 7; }") ["c4"; "prog.c"] 100 50) = 5.
Proof. split; vm_compute; reflexivity. Qed.

(** ** Emitted code *)

Lemma peek_poke {A} (z : A) i j f l :
  peek z j (poke z i f l) = if decide (i = j) then f (peek z i l) else peek z j l.
Proof.
  unfold peek, poke. rewrite !nth_lookup.
  destruct (Nat.ltb_spec i (length l)) as [Hi|Hi].
  - destruct (decide (i = j)) as [<-|Hne].
    + rewrite list_lookup_alter_eq.
      destruct (lookup_lt_is_Some_2 l i Hi) as [x Hx]. rewrite Hx. reflexivity.
    + rewrite list_lookup_alter_ne by assumption. reflexivity.
  - rewrite (lookup_ge_None_2 l i) by lia. simpl.
    destruct (Nat.lt_ge_cases j (length l)) as [Hj|Hj].
    + rewrite lookup_app_l by assumption.
      destruct (decide (i = j)); [lia|reflexivity].
    + rewrite lookup_app_r by assumption.
      rewrite (lookup_ge_None_2 l j) by lia. simpl.
      destruct (Nat.lt_ge_cases j i) as [Hji|Hji].
      * rewrite lookup_app_l by (rewrite length_replicate; lia).
        rewrite lookup_replicate_2 by lia.
        destruct (decide (i = j)); [lia|reflexivity].
      * rewrite lookup_app_r by (rewrite length_replicate; lia).
        rewrite length_replicate.
        destruct (decide (i = j)) as [->|Hne].
        -- replace (j - length l - (j - length l))%nat with 0%nat by lia. reflexivity.
        -- replace (j - length l - (i - length l))%nat with (S (j - i - 1)) by lia.
           reflexivity.
Qed.

(** Read a cell through the writes made after it. *)
Ltac read_cells :=
  repeat (rewrite peek_poke;
          match goal with
          | |- context [decide (?a = ?b)] =>
              destruct (decide (a = b)) as [?|?]; [try lia|try lia]
          end);
  try reflexivity.

Arguments poke : simpl never.
Arguments peek : simpl never.

Lemma pre_incdec_code t s :
  cur s = Op.LC \/ cur s = Op.LI ->
  exists s',
    pre_incdec t s = Ok s' /\ e s' = (e s + 6)%nat /\ ty s' = ty s /\
    code_from (e s) 7 s' =
      [Op.PSH; cur s; Op.PSH; Op.IMM;
       if ty s >? PTR then sizeof_int else sizeof_char;
       if t =? Tok.Inc then Op.ADD else Op.SUB;
       if ty s =? CHAR then Op.SC else Op.SI].
Proof.
  intros Hc. unfold pre_incdec, seqM.
  assert (Hcur : (if cur s =? Op.LC then emit Op.LC (set_cur Op.PSH s)
                  else if cur s =? Op.LI then emit Op.LI (set_cur Op.PSH s)
                  else fail "bad lvalue in pre-increment" s)
                 = emit (cur s) (set_cur Op.PSH s)).
  { destruct Hc as [-> | ->]; reflexivity. }
  rewrite Hcur. cbn.
  eexists. split; [reflexivity|]. cbn.
  split; [lia|]. split; [reflexivity|].
  unfold code_from. cbn [List.map List.seq].
  repeat (apply (f_equal2 cons); [read_cells|]). reflexivity.
Qed.

Lemma post_incdec_code s :
  cur s = Op.LC \/ cur s = Op.LI ->
  exists s',
    post_incdec s = Ok s' /\ e s' = (e s + 9)%nat /\ ty s' = ty s /\ tk s' = tk s /\
    code_from (e s) 10 s' =
      [Op.PSH; cur s; Op.PSH; Op.IMM;
       if ty s >? PTR then sizeof_int else sizeof_char;
       if tk s =? Tok.Inc then Op.ADD else Op.SUB;
       Op.PSH; Op.IMM;
       if ty s >? PTR then sizeof_int else sizeof_char;
       if tk s =? Tok.Inc then Op.SUB else Op.ADD].
Proof.
  intros Hc. unfold post_incdec, seqM.
  assert (Hcur : (if cur s =? Op.LC then emit Op.LC (set_cur Op.PSH s)
                  else if cur s =? Op.LI then emit Op.LI (set_cur Op.PSH s)
                  else fail "bad lvalue in post-increment" s)
                 = emit (cur s) (set_cur Op.PSH s)).
  { destruct Hc as [-> | ->]; reflexivity. }
  rewrite Hcur. cbn.
  eexists. split; [reflexivity|]. cbn.
  split; [lia|]. split; [reflexivity|]. split; [reflexivity|].
  unfold code_from. cbn [List.map List.seq].
  repeat (apply (f_equal2 cons); [read_cells|]). reflexivity.
Qed.

Lemma expr_head_incdec rec n s :
  tk s = Tok.Inc \/ tk s = Tok.Dec ->
  expr_head rec n s = (next >> rec Tok.Inc >> pre_incdec (tk s)) s.
Proof. intros [H|H]; unfold expr_head; rewrite H; reflexivity. Qed.

Lemma expr_op_incdec rec s :
  tk s = Tok.Inc \/ tk s = Tok.Dec -> expr_op rec s = (post_incdec >> next) s.
Proof. intros [H|H]; unfold expr_op; rewrite H; reflexivity. Qed.

Lemma expr_op_sub rec s :
  tk s = Tok.Sub ->
  expr_op rec s = (next >> emit Op.PSH >> rec Tok.Mul >> sub_tail (ty s)) s.
Proof. intros H; unfold expr_op; rewrite H; reflexivity. Qed.

Lemma seqM_assoc (f g h : M) s : ((f >> g) >> h) s = (f >> g >> h) s.
Proof. unfold seqM. destruct (f s); reflexivity. Qed.

Lemma sub_tail_code t s :
  exists s',
    sub_tail t s = Ok s' /\
    if (t >? PTR) && (t =? ty s) then
      code_from (S (e s)) 5 s' = [Op.SUB; Op.PSH; Op.IMM; sizeof_int; Op.DIV]
      /\ ty s' = INT /\ e s' = (e s + 5)%nat
    else if t >? PTR then
      code_from (S (e s)) 5 s' = [Op.PSH; Op.IMM; sizeof_int; Op.MUL; Op.SUB]
      /\ ty s' = t /\ e s' = (e s + 5)%nat
    else
      code_from (S (e s)) 1 s' = [Op.SUB] /\ ty s' = t /\ e s' = (e s + 1)%nat.
Proof.
  unfold sub_tail.
  destruct ((t >? PTR) && (t =? ty s)); [|destruct (t >? PTR)];
    cbn; eexists; (split; [reflexivity|]); cbn;
    (split; [|split; [reflexivity|lia]]);
    unfold code_from; cbn [List.map List.seq];
    repeat (apply (f_equal2 cons); [read_cells|]); reflexivity.
Qed.

(** ** Increment and decrement *)

(** C3, as the specification words it, fails for `char *`: the operand has
    one level of indirection ([ty] is [CHAR + PTR]), and the constant
    emitted is 1.  First on the code after the operand, then on a whole
    program, where cell 9 of the text is the constant of `++s`. *)
Lemma char_pointer_increment_counterexample :
  ~ (forall t s, cur s = Op.LI -> PTR <= ty s ->
       exists s', pre_incdec t s = Ok s'
                  /\ peek 0 (e s + 4) (text s') = sizeof_int)
  /\ exists s,
       compiled "char *s; int main() { ++s; return 0; }" = Ok s
       /\ Type_ (sym_at 19 (sym s)) = CHAR + PTR
       /\ text s = [0; Op.ENT; 0; Op.IMM; 3145728; Op.PSH; Op.LI; Op.PSH; Op.IMM; 1;
                    Op.ADD; Op.SI; Op.IMM; 0; Op.LEV; Op.LEV].
Proof.
  split.
  - intros H.
    destruct (H Tok.Inc
                (set_ty (CHAR + PTR)
                   (after (emit Op.LI (seeded_state 0 0 0 0)))))
      as (s' & Hs & Hk); [reflexivity|discriminate|].
    vm_compute in Hs. injection Hs as <-. vm_compute in Hk. discriminate.
  - eexists. split; [vm_compute; reflexivity|]. split; reflexivity.
Qed.

(** C3, amended. For a prefix `++`/`--` at the state [s], whose operand
    `expr(Inc)` leaves [s2] with a load (`LC` or `LI`) as the last
    instruction, [expr]'s first part turns the load into `PSH`, the load,
    `PSH`, `IMM`, the constant, `ADD` or `SUB`, and the store; and for a
    postfix `++`/`--` met at the state [q] after such an operand, one turn
    of the operator loop emits the same with the constant twice.  In both,
    the constant is `sizeof(int)` exactly when the operand's type is greater
    than [PTR] (`int *` and every type with two or more levels of
    indirection), and 1 otherwise (`char`, `int` and `char *`). *)
Theorem incdec_adjustment_by_type
  (rec : Z -> M) (n : nat) (s s1 s2 q : state) :
  (tk s = Tok.Inc \/ tk s = Tok.Dec) ->
  next s = Ok s1 ->
  rec Tok.Inc s1 = Ok s2 ->
  (cur s2 = Op.LC \/ cur s2 = Op.LI) ->
  (tk q = Tok.Inc \/ tk q = Tok.Dec) ->
  (cur q = Op.LC \/ cur q = Op.LI) ->
  (exists s3,
     expr_head rec n s = Ok s3 /\
     code_from (e s2) 7 s3 =
       [Op.PSH; cur s2; Op.PSH; Op.IMM;
        if ty s2 >? PTR then sizeof_int else sizeof_char;
        if tk s =? Tok.Inc then Op.ADD else Op.SUB;
        if ty s2 =? CHAR then Op.SC else Op.SI])
  /\ (exists q',
        post_incdec q = Ok q' /\ expr_op rec q = next q' /\
        code_from (e q) 10 q' =
          [Op.PSH; cur q; Op.PSH; Op.IMM;
           if ty q >? PTR then sizeof_int else sizeof_char;
           if tk q =? Tok.Inc then Op.ADD else Op.SUB;
           Op.PSH; Op.IMM;
           if ty q >? PTR then sizeof_int else sizeof_char;
           if tk q =? Tok.Inc then Op.SUB else Op.ADD]).
Proof.
  intros Htk Hn Hr Hc Htq Hcq. split.
  - destruct (pre_incdec_code (tk s) s2 Hc) as (s3 & Hs3 & _ & _ & Hcode).
    exists s3. split; [|exact Hcode].
    rewrite expr_head_incdec by exact Htk.
    unfold seqM. rewrite Hn, Hr. exact Hs3.
  - destruct (post_incdec_code q Hcq) as (q' & Hq' & _ & _ & _ & Hcode).
    exists q'. split; [exact Hq'|]. split; [|exact Hcode].
    rewrite expr_op_incdec by exact Htq.
    unfold seqM. rewrite Hq'. reflexivity.
Qed.

Lemma incdec_adjustment_by_type_witness :
  (exists s3,
     expr_head (expr 10) 10 w_pre = Ok s3 /\
     code_from (e w_pre2) 7 s3 =
       [Op.PSH; Op.LI; Op.PSH; Op.IMM; 8; Op.ADD; Op.SI])
  /\ (exists q',
        post_incdec w_post = Ok q' /\ expr_op (expr 10) w_post = next q' /\
        code_from (e w_post) 10 q' =
          [Op.PSH; Op.LI; Op.PSH; Op.IMM; 8; Op.ADD; Op.PSH; Op.IMM; 8; Op.SUB]).
Proof.
  apply (incdec_adjustment_by_type (expr 10) 10 w_pre w_pre1 w_pre2 w_post).
  - left. vm_compute. reflexivity.
  - vm_compute. reflexivity.
  - vm_compute. reflexivity.
  - right. vm_compute. reflexivity.
  - left. vm_compute. reflexivity.
  - right. vm_compute. reflexivity.
Defined.

(** ** Pointer difference *)

(** C4, as the specification words it, fails for `char *`: both operands
    have the same pointer type [CHAR + PTR], and the code after the right
    operand is a single `SUB`.  First on the code after the right operand,
    then on a whole program, whose text has no `DIV`. *)
Lemma char_pointer_difference_counterexample :
  ~ (forall t s, PTR <= t -> t = ty s ->
       exists s', sub_tail t s = Ok s'
                  /\ code_from (S (e s)) 5 s'
                     = [Op.SUB; Op.PSH; Op.IMM; sizeof_int; Op.DIV]
                  /\ ty s' = INT)
  /\ exists s,
       compiled "char *a; char *b; int main() { return a - b; }" = Ok s
       /\ Type_ (sym_at 19 (sym s)) = CHAR + PTR
       /\ Type_ (sym_at 20 (sym s)) = CHAR + PTR
       /\ text s = [0; Op.ENT; 0; Op.IMM; 3145728; Op.LI; Op.PSH;
                    Op.IMM; 3145736; Op.LI; Op.SUB; Op.LEV; Op.LEV].
Proof.
  split.
  - intros H.
    destruct (H (CHAR + PTR) (set_ty (CHAR + PTR) (seeded_state 0 0 0 0)))
      as (s' & Hs & Hcode & Hty); [discriminate|reflexivity|].
    vm_compute in Hs. injection Hs as <-. vm_compute in Hty. discriminate.
  - eexists. split; [vm_compute; reflexivity|]. repeat split.
Qed.

(** C4, amended. For an infix `-` at the state [s] whose left operand has a
    pointer type, and whose right operand, parsed by `expr(Mul)` after the
    `PSH`, leaves [s2] with the same type: when the type is greater than
    [PTR] (`int *` and every type with two or more levels of indirection)
    the operator emits `SUB`, `PSH`, `IMM`, `sizeof(int)`, `DIV` and the
    result type is [INT]; when it is [PTR] itself (`char *`) it emits the
    `SUB` alone. *)
Theorem pointer_difference_code (rec : Z -> M) (s s2 : state) :
  tk s = Tok.Sub ->
  (next >> emit Op.PSH >> rec Tok.Mul) s = Ok s2 ->
  PTR <= ty s ->
  ty s2 = ty s ->
  exists s3,
    expr_op rec s = Ok s3 /\
    if ty s >? PTR then
      code_from (S (e s2)) 5 s3 = [Op.SUB; Op.PSH; Op.IMM; sizeof_int; Op.DIV]
      /\ ty s3 = INT
    else
      code_from (S (e s2)) 1 s3 = [Op.SUB] /\ e s3 = S (e s2).
Proof.
  intros Htk Hop Hptr Hty.
  destruct (sub_tail_code (ty s) s2) as (s3 & Hs3 & Hcode).
  exists s3. split.
  - rewrite expr_op_sub by exact Htk.
    rewrite <- !seqM_assoc. unfold seqM at 1.
    rewrite seqM_assoc, Hop. exact Hs3.
  - rewrite Hty, Z.eqb_refl, Bool.andb_true_r in Hcode.
    destruct (ty s >? PTR).
    + destruct Hcode as (Hc & Ht & _). split; assumption.
    + destruct Hcode as (Hc & _ & He). split; [assumption|lia].
Qed.

Lemma pointer_difference_code_witness :
  exists s3,
    expr_op (expr 10) w_sub = Ok s3 /\
    code_from (S (e w_sub2)) 5 s3 = [Op.SUB; Op.PSH; Op.IMM; 8; Op.DIV]
    /\ ty s3 = INT.
Proof.
  apply (pointer_difference_code (expr 10) w_sub w_sub2).
  - vm_compute. reflexivity.
  - vm_compute. reflexivity.
  - vm_compute. discriminate.
  - vm_compute. reflexivity.
Defined.

(** ** The end of a function definition *)







(** ** The word void *)

Lemma scan_ident_stop h r : is_alnum (deref r) = false -> scan_ident h r = (h, r).
Proof. destruct r as [|ch r]; simpl; [reflexivity|]. intros ->. reflexivity. Qed.

Lemma find_sym_from h pp n t j i b : find_sym h pp n t j = (i, b) -> (j <= i)%nat.
Proof.
  revert j. induction t as [|r t IH]; intros j H; simpl in H.
  - injection H as <- _. lia.
  - destruct (Tk r =? 0); [injection H as <- _; lia|].
    destruct ((h =? Hash r) && memcmp_eq (Name r) pp n); [injection H as <- _; lia|].
    apply IH in H. lia.
Qed.

(** The walk only looks at the lexer's fields of the records it passes. *)
Lemma find_sym_keys h pp n t' :
  forall t j k i,
    take k (key <$> t) = take k (key <$> t') ->
    find_sym h pp n t' j = (i, true) -> (i < j + k)%nat ->
    find_sym h pp n t j = (i, true).
Proof.
  induction t' as [|r' t' IH]; intros t j k i Hk Hf Hi; simpl in Hf; [discriminate|].
  destruct k as [|k].
  { destruct (Tk r' =? 0); [discriminate|].
    destruct ((h =? Hash r') && memcmp_eq (Name r') pp n).
    - injection Hf as <-. lia.
    - apply find_sym_from in Hf. lia. }
  destruct t as [|r t]; [discriminate|].
  rewrite !fmap_cons in Hk. cbn [take] in Hk.
  assert (Hr : Tk r = Tk r' /\ Hash r = Hash r' /\ Name r = Name r'
               /\ take k (key <$> t) = take k (key <$> t'))
    by (unfold key in Hk at 1 3; inversion Hk; auto).
  destruct Hr as (HTk & HHash & HName & Hk').
  simpl. rewrite HTk, HHash, HName.
  destruct (Tk r' =? 0); [discriminate|].
  destruct ((h =? Hash r') && memcmp_eq (Name r') pp n); [exact Hf|].
  eapply IH; [exact Hk'|exact Hf|lia].
Qed.


(** Compute the fields of a state written with the setters. *)
Ltac norm_state :=
  cbv [set_p set_past set_lp set_line set_data set_dseg set_e set_le set_text
       set_id set_sym set_tk set_ival set_ty set_loc set_out set_m_bt set_m_ty
       set_m_i set_m_idmain
       p past lp line data dbase dseg e le_ tbase text id_ sym tk ival ty loc
       src debug out m_bt m_ty m_i m_idmain].


Lemma is_alpha_ordinary t :
  is_alpha t = true -> (t =? 0) = false /\ (t =? 10) = false /\ (t =? 35) = false.
Proof. unfold is_alpha. intros H. repeat split; apply Z.eqb_neq; lia. Qed.

Lemma p_set_tk v s : p (set_tk v s) = p s.
Proof. reflexivity. Qed.

Lemma past_set_tk v s : past (set_tk v s) = past s.
Proof. reflexivity. Qed.

(** The scanning loop on a letter: it goes to the identifier branch. *)
Lemma next_loop_alpha n s c rest :
  past s = false -> p s = String c rest -> is_alpha (char_val c) = true ->
  next_loop (S n) s
  = lex_ident (char_val c) (String c rest) rest (set_p rest (set_tk (char_val c) s)).
Proof.
  intros Hpast Hp Ha.
  destruct (is_alpha_ordinary _ Ha) as (H0 & H10 & H35).
  cbn [next_loop]. rewrite Hpast. cbv zeta.
  rewrite !p_set_tk, !Hp. cbn [deref advance].
  rewrite H0, H10, H35, Ha. reflexivity.
Qed.








(** ** printf in the virtual machine *)




(** The call with five arguments prints them all. *)
Example five_arguments_are_printed :
  o_out (main (demo_host five_prog) ["c4"; "prog.c"] 100 100)
  = "1 2 3 4 5" +:+ nl +:+ "exit(0) cycle = 19" +:+ nl.
Proof. vm_compute. reflexivity. Qed.

(** ** The lexer needs no more fuel than it takes *)

Lemma skip_line_length q : (String.length (skip_line q) <= String.length q)%nat.
Proof.
  induction q as [|c r IH]; simpl; [lia|].
  destruct ((char_val c =? 0) || (char_val c =? 10)); simpl; lia.
Qed.

Lemma list_code_runs n : forall s, (e s - le_ s <= n)%nat -> list_code n s <> NoFuel.
Proof.
  induction n as [|n IH]; intros s Hn; cbn [list_code].
  - destruct (Nat.ltb_spec (le_ s) (e s)); [lia|discriminate].
  - destruct (Nat.ltb_spec (le_ s) (e s)); [|discriminate].
    destruct (mnemonic _); [|discriminate].
    destruct (has_operand _); apply IH; cbn [e le_ set_out set_le]; lia.
Qed.

Lemma list_code_text n : forall s s', list_code n s = Ok s' -> p s' = p s.
Proof.
  induction n as [|n IH]; intros s s' H; cbn [list_code] in H.
  - destruct (le_ s <? e s)%nat; [discriminate|]. injection H as <-. reflexivity.
  - destruct (le_ s <? e s)%nat; [|injection H as <-; reflexivity].
    destruct (mnemonic _); [|discriminate].
    destruct (has_operand _); apply IH in H; exact H.
Qed.

Lemma scan_str_runs q n : forall str s, (String.length str <= n)%nat -> scan_str q str s <> NoFuel.
Proof.
  induction n as [|n IH]; intros str s Hn.
  - destruct str; [discriminate|simpl in Hn; lia].
  - destruct str as [|c r]; simpl; [discriminate|].
    destruct ((char_val c =? 0) || (char_val c =? q)); [discriminate|].
    simpl in Hn.
    destruct (char_val c =? 92).
    + destruct r as [|c2 r2]; [discriminate|]. apply IH. simpl in Hn. lia.
    + apply IH. lia.
Qed.

Lemma advance_length q : (String.length (advance q) <= String.length q)%nat.
Proof. destruct q; simpl; lia. Qed.

Lemma next_loop_runs n : forall s, (String.length (p s) <= n)%nat -> next_loop n s <> NoFuel.
Proof.
  induction n as [|n IH]; intros s Hn.
  - destruct (p s) as [|c r] eqn:Hp; [|simpl in Hn; lia].
    cbn [next_loop]. rewrite Hp. destruct (past s); discriminate.
  - cbn [next_loop]. destruct (past s); [discriminate|]. cbv zeta.
    rewrite !p_set_tk.
    destruct (p s) as [|c r] eqn:Hp; [discriminate|].
    cbn [deref advance String.length] in *.
    change (p (set_p r (set_tk (char_val c) s))) with r.
    assert (Hr : (String.length r <= n)%nat) by lia.
    repeat match goal with
           | |- (if ?c then _ else _) <> _ => destruct c
           end;
      try discriminate;
      try (apply IH; cbn [p set_p];
           first [ exact Hr
                 | pose proof (skip_line_length r); lia
                 | pose proof (skip_line_length (advance r));
                   pose proof (advance_length r); lia ]);
      try (unfold two; match goal with |- (if ?c then _ else _) <> _ => destruct c end;
           discriminate).
    + unfold seqM.
      destruct (src _ =? 0).
      * cbn [skip upd]. apply IH. exact Hr.
      * destruct (listing _) as [s1| | |] eqn:El; try discriminate.
        -- cbn [upd]. apply IH. cbn [p set_line].
           unfold listing in El. apply list_code_text in El. rewrite El. exact Hr.
        -- exfalso. unfold listing in El. revert El. apply list_code_runs.
           cbn [e le_ set_lp set_out]. lia.
    + unfold lex_ident. destruct (scan_ident _ _). destruct (find_sym _ _ _ _ _) as [i []];
        discriminate.
    + unfold lex_num.
      destruct (if negb (char_val c - 48 =? 0) then _ else _). discriminate.
    + unfold lex_str. destruct (scan_str _ _ _) eqn:Es; try discriminate.
      exfalso. revert Es. apply (scan_str_runs _ (String.length r)). cbn [p set_p]. lia.
Qed.

(** [next] never stops for want of fuel. *)
Lemma next_runs s : next s <> NoFuel.
Proof. apply next_loop_runs. lia. Qed.

(** * Further properties *)

(** ** The lexer does not depend on its fuel *)

Lemma next_loop_tk n t s : next_loop n (set_tk t s) = next_loop n s.
Proof. destruct n; reflexivity. Qed.

Lemma list_code_fuel n : forall m s, (e s - le_ s <= n)%nat -> (e s - le_ s <= m)%nat ->
  list_code n s = list_code m s.
Proof.
  induction n as [|n IH]; intros m s Hn Hm.
  - destruct m; cbn [list_code]; destruct (Nat.ltb_spec (le_ s) (e s)); try lia; reflexivity.
  - destruct m as [|m]; cbn [list_code]; destruct (Nat.ltb_spec (le_ s) (e s)); try lia; try reflexivity.
    destruct (mnemonic _); [|reflexivity].
    destruct (has_operand _); apply IH; cbn [e le_ set_out set_le]; lia.
Qed.

Lemma next_loop_fuel n : forall m s,
  (String.length (p s) <= n)%nat -> (String.length (p s) <= m)%nat ->
  next_loop n s = next_loop m s.
Proof.
  induction n as [|n IH]; intros m s Hn Hm.
  - destruct (p s) as [|c r] eqn:Hp; [|simpl in Hn; lia].
    destruct m; cbn [next_loop]; rewrite Hp; reflexivity.
  - destruct (p s) as [|c r] eqn:Hp.
    { destruct m; cbn [next_loop]; rewrite Hp; reflexivity. }
    destruct m as [|m]; [simpl in Hm; lia|].
    cbn [next_loop]. destruct (past s); [reflexivity|]. cbv zeta.
    rewrite !p_set_tk, !Hp.
    cbn [deref advance String.length] in *.
    change (p (set_p r (set_tk (char_val c) s))) with r.
    assert (Hr : (String.length r <= n)%nat) by lia.
    assert (Hr' : (String.length r <= m)%nat) by lia.
    repeat match goal with
           | |- (if ?c then _ else _) = _ => destruct c
           end;
      try reflexivity;
      try (apply IH; cbn [p set_p];
           first [ assumption
                 | pose proof (skip_line_length r); lia
                 | pose proof (skip_line_length (advance r));
                   pose proof (advance_length r); lia ]).
    unfold seqM.
    destruct ((if src _ =? 0 then skip else listing) _) as [s1| | |] eqn:El; try reflexivity.
    cbn [upd]. 
    assert (p s1 = r).
    { destruct (src _ =? 0).
      - injection El as <-. reflexivity.
      - unfold listing in El. apply list_code_text in El. exact El. }
    apply IH; cbn [p set_line]; rewrite H; assumption.
Qed.

(** ** The lexer has no diagnostics *)

Lemma list_code_quiet n : forall s o, list_code n s <> Fail o.
Proof.
  induction n as [|n IH]; intros s o; cbn [list_code].
  - destruct (_ <? _)%nat; discriminate.
  - destruct (_ <? _)%nat; [|discriminate].
    destruct (mnemonic _); [|discriminate].
    destruct (has_operand _); apply IH.
Qed.

Lemma scan_str_quiet q n :
  forall str s o, (String.length str <= n)%nat -> scan_str q str s <> Fail o.
Proof.
  induction n as [|n IH]; intros str s o Hn.
  - destruct str; [discriminate|simpl in Hn; lia].
  - destruct str as [|c r]; simpl; [discriminate|].
    destruct ((char_val c =? 0) || (char_val c =? q)); [discriminate|].
    simpl in Hn.
    destruct (char_val c =? 92).
    + destruct r as [|c2 r2]; [discriminate|]. apply IH. simpl in Hn. lia.
    + apply IH. lia.
Qed.

Lemma next_loop_quiet n : forall s o, next_loop n s <> Fail o.
Proof.
  induction n as [|n IH]; intros s o; cbn [next_loop].
  - destruct (past s); [discriminate|]. cbv zeta. destruct (_ =? 0); discriminate.
  - destruct (past s); [discriminate|]. cbv zeta.
    repeat match goal with
           | |- (if ?c then _ else _) <> _ => destruct c
           end;
      try discriminate; try apply IH;
      try (unfold two; match goal with |- (if ?c then _ else _) <> _ => destruct c end;
           discriminate).
    + unfold seqM.
      destruct (src _ =? 0).
      * cbn [skip upd]. apply IH.
      * destruct (listing _) as [s1| | |] eqn:El; try discriminate.
        -- cbn [upd]. apply IH.
        -- exfalso. unfold listing in El. revert El. apply list_code_quiet.
    + unfold lex_ident. destruct (scan_ident _ _). destruct (find_sym _ _ _ _ _) as [i []];
        discriminate.
    + unfold lex_num.
      destruct (if negb (_ - 48 =? 0) then _ else _). discriminate.
    + unfold lex_str. destruct (scan_str _ _ _) eqn:Es; try discriminate.
      exfalso. revert Es. eapply scan_str_quiet. reflexivity.
Qed.

(** X1. [next] prints no diagnostic and never stops the compiler, and it
    needs no more turns than the text has characters: it returns, unless
    it is made to read outside the text or the mnemonic table. *)
Theorem next_returns_or_leaves_the_text (s : state) :
  (exists s', next s = Ok s') \/ next s = Undef.
Proof.
  pose proof (next_runs s) as Hr.
  pose proof (next_loop_quiet (String.length (p s)) s) as Hf.
  unfold next in *. destruct (next_loop _ s) as [s'|o| |].
  - left. exists s'. reflexivity.
  - exfalso. apply (Hf o). reflexivity.
  - right. reflexivity.
  - exfalso. apply Hr. reflexivity.
Qed.

(** ** What the lexer skips *)

Lemma next_past s : past s = true -> next s = Undef.
Proof. intros H. unfold next. destruct (String.length _); cbn [next_loop]; rewrite H; reflexivity. Qed.

Lemma next_skip_char s c r :
  (char_val c =? 0) = false -> has_case (char_val c) = false ->
  next (set_p (String c r) s) = next (set_p r s).
Proof.
  intros H0 Hc. unfold next. cbn [p set_p String.length next_loop past].
  destruct (past s) eqn:Hp.
  { destruct (String.length r); cbn [next_loop past set_p]; rewrite Hp; reflexivity. }
  cbv zeta. cbn [p set_p set_tk deref advance].
  rewrite H0.
  unfold has_case in Hc.
  repeat match type of Hc with
         | (_ || _) = false => apply orb_false_elim in Hc; destruct Hc as [Hc ?]
         end.
  repeat match goal with
         | H : ?c = false |- context [?c] => rewrite H
         end.
  cbn [orb].
  exact (next_loop_tk (String.length r) (char_val c) (set_p r s)).
Qed.

Lemma has_case_negative t : t < 0 -> has_case t = false.
Proof.
  intros Ht. unfold has_case, is_alpha, is_digit.
  repeat match goal with
         | |- context [?a =? ?b] =>
             rewrite (proj2 (Z.eqb_neq a b)) by lia
         end.
  rewrite (proj2 (Z.leb_gt 97 t)), (proj2 (Z.leb_gt 65 t)), (proj2 (Z.leb_gt 48 t)) by lia.
  reflexivity.
Qed.

(** X2. A character [next] has no branch for is skipped without a word:
    the token returned is the one found behind it.  Blanks, tabs and
    carriage returns are such characters, but also `@`, `$`, `.`, a
    backslash or a backquote outside a literal, and every byte above 127. *)
Theorem characters_without_a_case_are_skipped (s : state) (c : ascii) (r : string) :
  (char_val c =? 0) = false -> has_case (char_val c) = false ->
  next (set_p (String c r) s) = next (set_p r s).
Proof. apply next_skip_char. Qed.

Lemma characters_without_a_case_are_skipped_witness :
  next (set_p (String "@" " x") (seeded_state 0 0 0 0))
  = next (set_p " x" (seeded_state 0 0 0 0)).
Proof.
  apply (characters_without_a_case_are_skipped (seeded_state 0 0 0 0) "@" " x");
    reflexivity.
Defined.

Lemma skip_line_over body rest :
  all_chars not_eol body = true -> skip_line (body +:+ rest) = skip_line rest.
Proof.
  induction body as [|c b IH]; intros H; [reflexivity|].
  cbn [all_chars] in H. apply andb_prop in H. destruct H as [Hc Hb].
  unfold not_eol in Hc. apply andb_prop in Hc. destruct Hc as [H0 H10].
  change (String c b +:+ rest) with (String c (b +:+ rest)). cbn [skip_line].
  apply negb_true_iff in H0, H10. rewrite H0, H10. cbn [orb].
  exact (IH Hb).
Qed.

Lemma skip_line_at_eol rest :
  (deref rest =? 0) || (deref rest =? 10) = true -> skip_line rest = rest.
Proof.
  destruct rest as [|c r]; [reflexivity|]. cbn [deref skip_line]. intros ->. reflexivity.
Qed.

Lemma next_loop_hash n s c r :
  past s = false -> p s = String c r -> char_val c = 35 ->
  next_loop (S n) s = next_loop n (set_p (skip_line r) s).
Proof.
  intros Hpast Hp Hc.
  rewrite <- (next_loop_tk n 35 (set_p (skip_line r) s)).
  cbn [next_loop]. rewrite Hpast. cbv zeta.
  rewrite !p_set_tk, !Hp. cbn [deref advance]. rewrite Hc. reflexivity.
Qed.

Lemma next_loop_slashes n s c r :
  past s = false -> p s = String c r -> char_val c = 47 -> deref r = 47 ->
  next_loop (S n) s = next_loop n (set_p (skip_line (advance r)) s).
Proof.
  intros Hpast Hp Hc Hr.
  rewrite <- (next_loop_tk n 47 (set_p (skip_line (advance r)) s)).
  cbn [next_loop]. rewrite Hpast. cbv zeta.
  rewrite !p_set_tk, !Hp. cbn [deref advance p set_p]. rewrite Hc, Hr. reflexivity.
Qed.

Lemma next_loop_newline n s c r :
  past s = false -> p s = String c r -> char_val c = 10 -> src s = 0 ->
  next_loop (S n) s = next_loop n (set_p r (set_line (wrap (line s + 1)) s)).
Proof.
  intros Hpast Hp Hc Hs.
  rewrite <- (next_loop_tk n 10 (set_p r (set_line (wrap (line s + 1)) s))).
  cbn [next_loop]. rewrite Hpast. cbv zeta.
  rewrite !p_set_tk, !Hp. cbn [deref advance p set_p]. rewrite Hc.
  cbn [Z.eqb Pos.eqb]. unfold seqM. cbn [src set_p set_tk]. rewrite Hs. reflexivity.
Qed.

Lemma next_hash s r : next (set_p (String "#" r) s) = next (set_p (skip_line r) s).
Proof.
  destruct (past s) eqn:Hp.
  { rewrite !next_past by exact Hp. reflexivity. }
  unfold next at 1. cbn [p set_p String.length].
  rewrite (next_loop_hash (String.length r) (set_p (String "#" r) s) "#" r Hp eq_refl eq_refl).
  change (set_p (skip_line r) (set_p (String "#" r) s)) with (set_p (skip_line r) s).
  apply next_loop_fuel; cbn [p set_p]; pose proof (skip_line_length r); lia.
Qed.

Lemma next_slashes s r :
  next (set_p (String "/" (String "/" r)) s) = next (set_p (skip_line r) s).
Proof.
  destruct (past s) eqn:Hp.
  { rewrite !next_past by exact Hp. reflexivity. }
  unfold next at 1. cbn [p set_p String.length].
  rewrite (next_loop_slashes (S (String.length r)) (set_p (String "/" (String "/" r)) s) "/" (String "/" r) Hp eq_refl eq_refl eq_refl).
  cbn [advance].
  change (set_p (skip_line r) (set_p (String "/" (String "/" r)) s))
    with (set_p (skip_line r) s).
  apply next_loop_fuel; cbn [p set_p]; pose proof (skip_line_length r); lia.
Qed.

(** X3. A `//` comment and a line that holds a `#` are skipped from there to
    the end of the line: the token returned is the one found from the
    newline (or the end of the text) on, so the newline is still counted. *)
Theorem comments_and_directives_are_skipped (s : state) (body rest : string) :
  all_chars not_eol body = true ->
  (deref rest =? 0) || (deref rest =? 10) = true ->
  next (set_p ("//" +:+ body +:+ rest) s) = next (set_p rest s)
  /\ next (set_p ("#" +:+ body +:+ rest) s) = next (set_p rest s).
Proof.
  intros Hb Hr.
  pose proof (skip_line_over body rest Hb) as E.
  rewrite (skip_line_at_eol rest Hr) in E.
  split.
  - change ("//" +:+ body +:+ rest) with (String "/" (String "/" (body +:+ rest))).
    rewrite next_slashes, E. reflexivity.
  - change ("#" +:+ body +:+ rest) with (String "#" (body +:+ rest)).
    rewrite next_hash, E. reflexivity.
Qed.

Lemma comments_and_directives_are_skipped_witness :
  next (set_p ("//" +:+ " a comment" +:+ (nl +:+ "x")) (seeded_state 0 0 0 0))
  = next (set_p (nl +:+ "x") (seeded_state 0 0 0 0))
  /\ next (set_p ("#" +:+ "include <stdio.h>" +:+ (nl +:+ "x")) (seeded_state 0 0 0 0))
     = next (set_p (nl +:+ "x") (seeded_state 0 0 0 0)).
Proof.
  split.
  - exact (proj1 (comments_and_directives_are_skipped (seeded_state 0 0 0 0)
                    " a comment" (nl +:+ "x") eq_refl eq_refl)).
  - exact (proj2 (comments_and_directives_are_skipped (seeded_state 0 0 0 0)
                    "include <stdio.h>" (nl +:+ "x") eq_refl eq_refl)).
Defined.

(** X4. Without `-s`, a newline adds one to `line` and nothing else. *)
Theorem newline_counts_a_line (s : state) (r : string) :
  src s = 0 ->
  next (set_p (nl +:+ r) s) = next (set_p r (set_line (wrap (line s + 1)) s)).
Proof.
  intros Hs.
  destruct (past s) eqn:Hp.
  { rewrite !next_past by exact Hp. reflexivity. }
  unfold next at 1. change (nl +:+ r) with (String (ascii_of_nat 10) r).
  cbn [p set_p String.length].
  rewrite (next_loop_newline (String.length r) (set_p (String (ascii_of_nat 10) r) s) (ascii_of_nat 10) r Hp eq_refl eq_refl Hs).
  reflexivity.
Qed.

Lemma newline_counts_a_line_witness :
  next (set_p (nl +:+ "x") (seeded_state 0 0 0 0))
  = next (set_p "x" (set_line (wrap (line (seeded_state 0 0 0 0) + 1)) (seeded_state 0 0 0 0))).
Proof. exact (newline_counts_a_line (seeded_state 0 0 0 0) "x" eq_refl). Defined.

(** ** Identifiers and the symbol table *)

Lemma scan_ident_word w : forall h r,
  all_chars is_alnum w = true -> is_alnum (deref r) = false ->
  scan_ident h (w +:+ r) = (fst (scan_ident h w), r).
Proof.
  induction w as [|c w IH]; intros h r Hw Hr.
  - apply scan_ident_stop. exact Hr.
  - cbn [all_chars] in Hw. apply andb_prop in Hw. destruct Hw as [Hc Hw].
    change (String c w +:+ r) with (String c (w +:+ r)). cbn [scan_ident].
    rewrite Hc. apply IH; assumption.
Qed.

Lemma length_append (w r : string) :
  String.length (w +:+ r) = (String.length w + String.length r)%nat.
Proof.
  induction w as [|c w IH]; [reflexivity|].
  change (String c w +:+ r) with (String c (w +:+ r)). cbn [String.length]. lia.
Qed.

Lemma memcmp_eq_prefix a w : forall r1 r2 n,
  (n <= String.length w)%nat ->
  memcmp_eq a (w +:+ r1) n = memcmp_eq a (w +:+ r2) n.
Proof.
  revert a. induction w as [|c w IH]; intros a r1 r2 n Hn.
  - simpl in Hn. replace n with 0%nat by lia. reflexivity.
  - destruct n as [|n]; [reflexivity|].
    change (String c w +:+ r1) with (String c (w +:+ r1)).
    change (String c w +:+ r2) with (String c (w +:+ r2)).
    cbn [memcmp_eq deref advance]. f_equal. apply IH. simpl in Hn. lia.
Qed.

Lemma memcmp_eq_same w : forall r1 r2,
  memcmp_eq (w +:+ r1) (w +:+ r2) (String.length w) = true.
Proof.
  induction w as [|c w IH]; intros r1 r2; [reflexivity|].
  change (String c w +:+ r1) with (String c (w +:+ r1)).
  change (String c w +:+ r2) with (String c (w +:+ r2)).
  cbn [String.length memcmp_eq deref advance]. rewrite Z.eqb_refl. apply IH.
Qed.

Lemma find_sym_prefix h w r1 r2 n t : forall j,
  (n <= String.length w)%nat ->
  find_sym h (w +:+ r1) n t j = find_sym h (w +:+ r2) n t j.
Proof.
  induction t as [|r t IH]; intros j Hn; [reflexivity|].
  cbn [find_sym]. rewrite (memcmp_eq_prefix (Name r) w r1 r2 n Hn).
  destruct (Tk r =? 0); [reflexivity|].
  destruct (_ && _); [reflexivity|]. apply IH. exact Hn.
Qed.

Lemma poke_cons {A} (z : A) k f x l : poke z (S k) f (x :: l) = x :: poke z k f l.
Proof.
  unfold poke. cbn [length]. 
  change (S k <? S (length l))%nat with (k <? length l)%nat.
  destruct (k <? length l)%nat; reflexivity.
Qed.

Lemma poke_head {A} (z : A) f x l : poke z 0 f (x :: l) = f x :: l.
Proof. reflexivity. Qed.

Lemma poke_nil {A} (z : A) f : poke z 0 f [] = [f z].
Proof. reflexivity. Qed.

(** A name that was not found is found once it is entered. *)
Lemma find_sym_entered h w r n t : forall j k,
  n = String.length w ->
  find_sym h (w +:+ r) n t j = ((j + k)%nat, false) ->
  find_sym h (w +:+ r) n
    (sym_upd k (fun x => with_Tk Tok.Id (with_Hash h (with_Name (w +:+ r) x))) t) j
  = ((j + k)%nat, true).
Proof.
  intros j k ->. revert j k.
  induction t as [|x t IH]; intros j k Hf; cbn [find_sym] in Hf.
  - assert (k = 0%nat) by (injection Hf; lia). subst k.
    unfold sym_upd. rewrite poke_nil. cbn [find_sym with_Tk with_Hash with_Name Tk Hash Name].
    rewrite Z.eqb_refl, memcmp_eq_same. rewrite Nat.add_0_r. reflexivity.
  - destruct (Tk x =? 0) eqn:E0.
    + assert (k = 0%nat) by (injection Hf; lia). subst k.
      unfold sym_upd. rewrite poke_head.
      cbn [find_sym with_Tk with_Hash with_Name Tk Hash Name].
      rewrite Z.eqb_refl, memcmp_eq_same. rewrite Nat.add_0_r. reflexivity.
    + destruct ((h =? Hash x) && memcmp_eq (Name x) (w +:+ r) (String.length w)) eqn:Em;
        [discriminate|].
      pose proof (find_sym_from _ _ _ _ _ _ _ Hf) as Hle.
      destruct k as [|k]; [lia|].
      unfold sym_upd. rewrite poke_cons. cbn [find_sym]. rewrite E0, Em.
      replace (j + S k)%nat with (S j + k)%nat in * by lia.
      apply IH. exact Hf.
Qed.

(** What [next] does on an identifier. *)
Lemma next_ident s c w r :
  past s = false -> is_alpha (char_val c) = true ->
  all_chars is_alnum w = true -> is_alnum (deref r) = false ->
  next (set_p (String c w +:+ r) s)
  = let h := ident_hash c w in
    let n := S (String.length w) in
    let '(i, found) := find_sym h (String c w +:+ r) n (sym s) 0 in
    if found then Ok (set_tk (Tk (sym_at i (sym s))) (set_id i (set_p r s)))
    else Ok (set_tk Tok.Id
               (set_sym (sym_upd i (fun x => with_Tk Tok.Id (with_Hash h
                                      (with_Name (String c w +:+ r) x))) (sym s))
                  (set_id i (set_p r s)))).
Proof.
  intros Hp Ha Hw Hr. unfold next.
  change (String c w +:+ r) with (String c (w +:+ r)).
  cbn [p set_p String.length].
  rewrite (next_loop_alpha (String.length (w +:+ r)) (set_p (String c (w +:+ r)) s)
             c (w +:+ r) Hp eq_refl Ha).
  unfold lex_ident. rewrite (scan_ident_word w _ r Hw Hr).
  cbn [String.length].
  assert (Hn : (S (String.length (w +:+ r)) - String.length r)%nat = S (String.length w))
    by (rewrite length_append; lia).
  rewrite Hn. cbv zeta. unfold ident_hash.
  change (sym (set_p (w +:+ r) (set_tk (char_val c) (set_p (String c (w +:+ r)) s))))
    with (sym s).
  destruct (find_sym _ _ _ (sym s) 0) as [i found].
  destruct found; reflexivity.
Qed.

Lemma keys_tk i t t' :
  take (S i) (key <$> t) = take (S i) (key <$> t') ->
  Tk (sym_at i t) = Tk (sym_at i t').
Proof.
  intros Hk.
  assert (Hl : (key <$> t) !! i = (key <$> t') !! i).
  { rewrite <- (lookup_take_lt (key <$> t) (S i) i) by lia.
    rewrite <- (lookup_take_lt (key <$> t') (S i) i) by lia.
    rewrite Hk. reflexivity. }
  rewrite !list_lookup_fmap in Hl. unfold sym_at.
  destruct (t !! i) as [x|] eqn:E; destruct (t' !! i) as [x'|] eqn:E';
    try discriminate.
  - rewrite (peek_lookup _ _ _ _ E), (peek_lookup _ _ _ _ E').
    simpl in Hl. unfold key in Hl. congruence.
  - rewrite !peek_beyond; [reflexivity| |]; apply lookup_ge_None; assumption.
Qed.

(** X5. An identifier is entered once: when [next] has read an identifier,
    reading the same word again, in any later state whose table still holds
    the records up to that one, returns the same token and the same record,
    and changes nothing else but the place in the text. *)
Theorem identifier_is_found_again (s s1 s' : state) (c : ascii) (w r1 r2 : string) :
  past s = false -> past s' = false ->
  is_alpha (char_val c) = true -> all_chars is_alnum w = true ->
  is_alnum (deref r1) = false -> is_alnum (deref r2) = false ->
  next (set_p (String c w +:+ r1) s) = Ok s1 ->
  take (S (id_ s1)) (key <$> sym s') = take (S (id_ s1)) (key <$> sym s1) ->
  tk s1 = Tk (sym_at (id_ s1) (sym s1))
  /\ next (set_p (String c w +:+ r2) s')
     = Ok (set_tk (tk s1) (set_id (id_ s1) (set_p r2 s'))).
Proof.
  intros Hp Hp' Ha Hw Hr1 Hr2 H1 Hk.
  rewrite (next_ident s c w r1 Hp Ha Hw Hr1) in H1. cbv zeta in H1.
  rewrite (next_ident s' c w r2 Hp' Ha Hw Hr2). cbv zeta.
  destruct (find_sym _ _ _ (sym s) 0) as [i found] eqn:Ef.
  assert (Hs1 : id_ s1 = i /\ tk s1 = Tk (sym_at i (sym s1))
                /\ find_sym (ident_hash c w) (String c w +:+ r1) (S (String.length w))
                     (sym s1) 0 = (i, true)).
  { destruct found; injection H1 as <-; cbn [id_ tk sym set_tk set_sym set_id set_p].
    - auto.
    - split; [reflexivity|]. split.
      + unfold sym_at, sym_upd. rewrite peek_poke.
        destruct (decide (i = i)); [reflexivity|contradiction].
      + apply (find_sym_entered _ (String c w) r1 _ (sym s) 0 i eq_refl). exact Ef. }
  destruct Hs1 as (Hi & Ht & Hf1). rewrite Hi in *. split; [exact Ht|].
  rewrite (find_sym_prefix _ (String c w) r1 r2) in Hf1 by (cbn [String.length]; lia).
  rewrite (find_sym_keys _ _ _ (sym s1) (sym s') 0 (S i) i Hk Hf1) by lia.
  rewrite (keys_tk i _ _ Hk), Ht. reflexivity.
Qed.

Lemma identifier_is_found_again_witness :
  tk w_ident = Tk (sym_at (id_ w_ident) (sym w_ident))
  /\ next (set_p (String "x" "1" +:+ ";") w_ident)
     = Ok (set_tk (tk w_ident) (set_id (id_ w_ident) (set_p ";" w_ident))).
Proof.
  apply (identifier_is_found_again (seeded_state 0 0 0 0) w_ident w_ident
           "x" "1" " = x1;" ";"); vm_compute; reflexivity.
Defined.

Lemma char_val_inj c c' : char_val c = char_val c' -> c = c'.
Proof.
  unfold char_val, to_char. intros H.
  pose proof (N_ascii_bounded c) as Hb. pose proof (N_ascii_bounded c') as Hb'.
  assert (Hn : N_of_ascii c = N_of_ascii c').
  { apply N2Z.inj.
    assert (0 <= Z.of_N (N_of_ascii c) < 256) by lia.
    assert (0 <= Z.of_N (N_of_ascii c') < 256) by lia.
    revert H. generalize (Z.of_N (N_of_ascii c)) (Z.of_N (N_of_ascii c')) H0 H1.
    clear. intros x y Hx Hy H.
    destruct (Z_lt_le_dec x 128), (Z_lt_le_dec y 128).
    - rewrite !Z.mod_small in H by lia. lia.
    - rewrite (Z.mod_small (x + 128)) in H by lia.
      replace (y + 128) with (y - 128 + 1 * 256) in H by lia.
      rewrite Z.mod_add, Z.mod_small in H by lia. lia.
    - rewrite (Z.mod_small (y + 128)) in H by lia.
      replace (x + 128) with (x - 128 + 1 * 256) in H by lia.
      rewrite Z.mod_add, Z.mod_small in H by lia. lia.
    - replace (x + 128) with (x - 128 + 1 * 256) in H by lia.
      replace (y + 128) with (y - 128 + 1 * 256) in H by lia.
      rewrite !Z.mod_add, !Z.mod_small in H by lia. lia. }
  rewrite <- (ascii_N_embedding c), <- (ascii_N_embedding c'), Hn. reflexivity.
Qed.

Lemma memcmp_eq_words w : forall w' r r',
  String.length w = String.length w' ->
  memcmp_eq (w' +:+ r') (w +:+ r) (String.length w) = true -> w = w'.
Proof.
  induction w as [|c w IH]; intros [|c' w'] r r' Hl Hm; try discriminate Hl.
  - reflexivity.
  - change (String c w +:+ r) with (String c (w +:+ r)) in Hm.
    change (String c' w' +:+ r') with (String c' (w' +:+ r')) in Hm.
    cbn [String.length memcmp_eq deref advance] in Hm.
    apply andb_prop in Hm. destruct Hm as [Hc Hm].
    apply Z.eqb_eq in Hc. apply char_val_inj in Hc. subst c'.
    f_equal. eapply IH; [|exact Hm]. simpl in Hl. lia.
Qed.

Lemma find_sym_found h pp n t : forall j i,
  find_sym h pp n t j = (i, true) ->
  exists x, t !! (i - j)%nat = Some x /\ h = Hash x /\ memcmp_eq (Name x) pp n = true.
Proof.
  induction t as [|x t IH]; intros j i Hf; cbn [find_sym] in Hf; [discriminate|].
  destruct (Tk x =? 0); [discriminate|].
  destruct ((h =? Hash x) && memcmp_eq (Name x) pp n) eqn:Em.
  - injection Hf as <-. replace (j - j)%nat with 0%nat by lia.
    apply andb_prop in Em. destruct Em as [Eh Em]. apply Z.eqb_eq in Eh.
    exists x. auto.
  - pose proof (find_sym_from _ _ _ _ _ _ _ Hf) as Hle.
    destruct (IH _ _ Hf) as (y & Hy & Hh & Hm).
    exists y. replace (i - j)%nat with (S (i - S j)) by lia. auto.
Qed.

Lemma ident_hash_length c w c' w' :
  ident_hash c w = ident_hash c' w' ->
  (String.length w < 64)%nat -> (String.length w' < 64)%nat ->
  String.length w = String.length w'.
Proof.
  unfold ident_hash, wrap.
  generalize (fst (scan_ident (char_val c) w)) (fst (scan_ident (char_val c') w')).
  intros x y H Hl Hl'.
  pose proof (Z.div_mod (x * 64 + Z.of_nat (S (String.length w)) + 2 ^ 63) (2 ^ 64)) as E1.
  pose proof (Z.div_mod (y * 64 + Z.of_nat (S (String.length w')) + 2 ^ 63) (2 ^ 64)) as E2.
  specialize (E1 ltac:(lia)). specialize (E2 ltac:(lia)).
  change (2 ^ 64) with 18446744073709551616 in *.
  change (2 ^ 63) with 9223372036854775808 in *.
  lia.
Qed.

(** X6. Two identifiers of at most 64 characters never share a record: when
    [next] returns, for an identifier, a record that was in the table before
    and that holds what [next] stores for an identifier (its hash and the
    text at its first character), the two are the same word. *)
Theorem short_identifiers_are_told_apart
  (s s1 : state) (c c' : ascii) (w w' r r' : string) (x : symrec) :
  past s = false ->
  is_alpha (char_val c) = true -> all_chars is_alnum w = true ->
  is_alnum (deref r) = false ->
  (String.length w < 64)%nat -> (String.length w' < 64)%nat ->
  next (set_p (String c w +:+ r) s) = Ok s1 ->
  sym s !! id_ s1 = Some x -> (Tk x =? 0) = false ->
  Hash x = ident_hash c' w' -> Name x = String c' w' +:+ r' ->
  String c w = String c' w'.
Proof.
  intros Hp Ha Hw Hr Hl Hl' H1 Hx Hx0 Hh Hn.
  rewrite (next_ident s c w r Hp Ha Hw Hr) in H1. cbv zeta in H1.
  destruct (find_sym _ _ _ (sym s) 0) as [i found] eqn:Ef.
  destruct found; injection H1 as <-; cbn [id_ set_tk set_sym set_id set_p] in Hx.
  - destruct (find_sym_found _ _ _ _ _ _ Ef) as (y & Hy & Hhy & Hm).
    replace (i - 0)%nat with i in Hy by lia.
    assert (y = x) by congruence. subst y.
    rewrite Hh in Hhy. apply ident_hash_length in Hhy; [|assumption..].
    rewrite Hn in Hm.
    apply (memcmp_eq_words (String c w) (String c' w') r r');
      [cbn [String.length]; lia|exact Hm].
  - destruct (find_sym_stop _ _ _ _ _ _ Ef) as [_ Hz].
    replace (i - 0)%nat with i in Hz by lia.
    specialize (Hz x Hx). apply Z.eqb_neq in Hx0. contradiction.
Qed.

Lemma short_identifiers_are_told_apart_witness : String "x" "1" = String "x" "1".
Proof.
  apply (short_identifiers_are_told_apart w_ident
           (after (next (set_p (String "x" "1" +:+ ";") w_ident)))
           "x" "x" "1" "1" ";" " = x1;" (sym_at 19 (sym w_ident)));
    first [ vm_compute; reflexivity | vm_compute; lia ].
Defined.

(** ** Literals *)

Lemma scan_str_plain q body : forall rest s,
  all_chars (plain q) body = true ->
  scan_str q (body +:+ rest) s = scan_str q rest (store_chars q body s).
Proof.
  induction body as [|c b IH]; intros rest s Hb; [reflexivity|].
  cbn [all_chars] in Hb. apply andb_prop in Hb. destruct Hb as [Hc Hb].
  unfold plain in Hc. apply andb_prop in Hc. destruct Hc as [Hc H92].
  apply andb_prop in Hc. destruct Hc as [H0 Hq].
  apply negb_true_iff in H0, Hq, H92.
  change (String c b +:+ rest) with (String c (b +:+ rest)).
  cbn [scan_str store_chars]. cbv zeta. rewrite H0, Hq, H92. cbn [orb].
  apply IH. exact Hb.
Qed.

Lemma scan_str_stop q rest s :
  (deref rest =? 0) || (deref rest =? q) = true -> scan_str q rest s = Ok (set_p rest s).
Proof.
  destruct rest as [|c r]; [reflexivity|]. cbn [deref scan_str]. cbv zeta.
  intros ->. reflexivity.
Qed.

Lemma next_loop_quote n s c r :
  past s = false -> p s = String c r ->
  (char_val c =? 39) || (char_val c =? 34) = true ->
  next_loop (S n) s = lex_str (char_val c) (set_p r (set_tk (char_val c) s)).
Proof.
  intros Hpast Hp Hc.
  cbn [next_loop]. rewrite Hpast. cbv zeta.
  rewrite !p_set_tk, !Hp. cbn [deref advance p set_p].
  apply orb_prop in Hc.
  destruct Hc as [Hc|Hc]; apply Z.eqb_eq in Hc; rewrite Hc; reflexivity.
Qed.

Lemma to_char_char_val c : to_char (char_val c) = char_val c.
Proof.
  unfold char_val. pose proof (N_ascii_bounded c) as Hb.
  assert (H : 0 <= Z.of_N (N_of_ascii c) < 256) by lia.
  revert H. generalize (Z.of_N (N_of_ascii c)). clear. intros x Hx.
  unfold to_char.
  assert (-128 <= (x + 128) mod 256 - 128 < 128).
  { pose proof (Z.mod_pos_bound (x + 128) 256). lia. }
  replace ((x + 128) mod 256 - 128 + 128) with ((x + 128) mod 256) by lia.
  rewrite Z.mod_mod by lia. reflexivity.
Qed.

(** What the loop leaves when the literal is a string. *)
Lemma store_chars_string body : forall s,
  dbase s <= data s ->
  let s' := store_chars 34 body s in
  let off := Z.to_nat (data s - dbase s) in
  data s' = data s + Z.of_nat (String.length body)
  /\ dbase s' = dbase s
  /\ (forall k, peek 0 k (dseg s') =
        match (if decide (off <= k)%nat then String.get (k - off) body else None) with
        | Some c => char_val c
        | None => peek 0 k (dseg s)
        end)
  /\ p s' = p s /\ past s' = past s /\ lp s' = lp s /\ line s' = line s
  /\ e s' = e s /\ le_ s' = le_ s /\ tbase s' = tbase s /\ text s' = text s
  /\ id_ s' = id_ s /\ sym s' = sym s /\ tk s' = tk s /\ ty s' = ty s
  /\ loc s' = loc s /\ src s' = src s /\ debug s' = debug s /\ out s' = out s
  /\ m_bt s' = m_bt s /\ m_ty s' = m_ty s /\ m_i s' = m_i s /\ m_idmain s' = m_idmain s.
Proof.
  induction body as [|c b IH]; intros s Hd; cbv zeta.
  - cbn [store_chars String.length]. split; [lia|]. split; [reflexivity|].
    split; [|repeat split].
    intros k. destruct (decide _); reflexivity.
  - cbn [store_chars].
    set (s1 := store_char 34 (char_val c) s).
    assert (Hs1 : data s1 = data s + 1 /\ dbase s1 = dbase s
                  /\ dseg s1 = poke 0 (Z.to_nat (data s - dbase s))
                                 (fun _ => char_val c) (dseg s)).
    { unfold s1, store_char. cbn. rewrite to_char_char_val. auto. }
    destruct Hs1 as (Hd1 & Hb1 & Hg1).
    specialize (IH s1 ltac:(lia)). cbv zeta in IH.
    destruct IH as (IHd & IHb & IHg & IHrest).
    split; [rewrite IHd, Hd1; cbn [String.length]; lia|].
    split; [rewrite IHb, Hb1; reflexivity|].
    split.
    + intros k. rewrite IHg, Hd1, Hb1, Hg1.
      replace (Z.to_nat (data s + 1 - dbase s)) with (S (Z.to_nat (data s - dbase s))) by lia.
      set (off := Z.to_nat (data s - dbase s)).
      rewrite peek_poke.
      destruct (decide (S off <= k)%nat) as [H1|H1];
        destruct (decide (off <= k)%nat) as [H2|H2]; try lia.
      * replace (k - off)%nat with (S (k - S off)) by lia. cbn [String.get].
        destruct (String.get (k - S off) b); [reflexivity|].
        destruct (decide (off = k)); [lia|reflexivity].
      * destruct (decide (off = k)) as [->|]; [|lia].
        replace (k - k)%nat with 0%nat by lia. reflexivity.
      * destruct (decide (off = k)); [lia|reflexivity].
    + unfold s1, store_char in IHrest. cbn in IHrest. exact IHrest.
Qed.

Lemma get_beyond body : forall k, (String.length body <= k)%nat -> String.get k body = None.
Proof.
  induction body as [|c b IH]; intros k Hk; [destruct k; reflexivity|].
  destruct k as [|k]; [simpl in Hk; lia|]. cbn [String.get]. apply IH. simpl in Hk. lia.
Qed.

Lemma lex_str_plain q body rest s :
  all_chars (plain q) body = true -> p s = body +:+ String (ascii_of_char q) rest ->
  char_val (ascii_of_char q) = q ->
  lex_str q s =
  Ok (let s2 := set_p rest (store_chars q body s) in
      if q =? 34 then set_ival (data s) s2 else set_tk Tok.Num s2).
Proof.
  intros Hb Hp Hq. unfold lex_str. rewrite Hp, (scan_str_plain q body _ s Hb).
  rewrite scan_str_stop by (cbn [deref]; rewrite Hq, Z.eqb_refl; apply orb_true_r).
  cbn [p set_p]. reflexivity.
Qed.

(** X7. A string literal without escapes is copied into the data area: its
    characters are stored from the old `data` on and nothing else of the
    area changes (no terminator is written), `data` moves on by their
    number, `ival` is the address of the first one, the token is the double
    quote, and `p` is behind the closing quote. *)
Theorem string_literal_is_stored (s : state) (body rest : string) :
  past s = false -> dbase s <= data s -> all_chars (plain 34) body = true ->
  exists s',
    next (set_p (dq +:+ body +:+ dq +:+ rest) s) = Ok s'
    /\ tk s' = 34 /\ ival s' = data s /\ p s' = rest /\ past s' = false
    /\ data s' = data s + Z.of_nat (String.length body)
    /\ (forall k c, String.get k body = Some c ->
          peek 0 (Z.to_nat (data s - dbase s) + k) (dseg s') = char_val c)
    /\ (forall k, (k < Z.to_nat (data s - dbase s))%nat \/
                  (Z.to_nat (data s - dbase s) + String.length body <= k)%nat ->
          peek 0 k (dseg s') = peek 0 k (dseg s))
    /\ line s' = line s /\ sym s' = sym s /\ e s' = e s /\ text s' = text s.
Proof.
  intros Hp Hd Hb. unfold next.
  change (dq +:+ body +:+ dq +:+ rest) with (String (ascii_of_nat 34) (body +:+ dq +:+ rest)).
  cbn [p set_p String.length].
  rewrite (next_loop_quote _ (set_p (String (ascii_of_nat 34) (body +:+ dq +:+ rest)) s)
             (ascii_of_nat 34) (body +:+ dq +:+ rest) Hp eq_refl eq_refl).
  change (char_val (ascii_of_nat 34)) with 34.
  erewrite (lex_str_plain 34 body rest); [|exact Hb|reflexivity|reflexivity].
  eexists. split; [reflexivity|]. cbv zeta. cbn [Z.eqb Pos.eqb].
  match goal with
  | |- context [store_chars 34 body ?s0] =>
      pose proof (store_chars_string body s0 Hd) as Hs; cbv zeta in Hs;
      cbn [data dbase dseg p past lp line e le_ tbase text id_ sym tk ty loc src debug out
           m_bt m_ty m_i m_idmain set_p set_tk] in Hs
  end.
  destruct Hs as (H1 & H2 & H3 & H4 & H5 & H6 & H7 & H8 & H9 & H10 & H11 & H12 & H13 & H14 & _).
  cbn [tk ival p past data dseg line sym e text set_ival set_p].
  split; [exact H14|]. split; [reflexivity|]. split; [reflexivity|].
  split; [rewrite H5; exact Hp|]. split; [exact H1|].
  split; [|split; [|auto]].
  - intros k c Hc. rewrite H3.
    destruct (decide _) as [_|]; [|lia].
    replace (Z.to_nat (data s - dbase s) + k - Z.to_nat (data s - dbase s))%nat with k by lia.
    rewrite Hc. reflexivity.
  - intros k Hk. rewrite H3.
    destruct (decide _) as [Hle|]; [|reflexivity].
    rewrite get_beyond by lia. reflexivity.
Qed.

Lemma string_literal_is_stored_witness :
  exists s',
    next (set_p (dq +:+ "hi" +:+ dq +:+ ";") (seeded_state 0 0 4096 8192)) = Ok s'
    /\ tk s' = 34 /\ ival s' = data (seeded_state 0 0 4096 8192) /\ p s' = ";"
    /\ past s' = false
    /\ data s' = data (seeded_state 0 0 4096 8192) + Z.of_nat (String.length "hi")
    /\ (forall k c, String.get k "hi" = Some c ->
          peek 0 (Z.to_nat (data (seeded_state 0 0 4096 8192)
                            - dbase (seeded_state 0 0 4096 8192)) + k) (dseg s')
          = char_val c)
    /\ (forall k, (k < Z.to_nat (data (seeded_state 0 0 4096 8192)
                                 - dbase (seeded_state 0 0 4096 8192)))%nat \/
                  (Z.to_nat (data (seeded_state 0 0 4096 8192)
                             - dbase (seeded_state 0 0 4096 8192))
                   + String.length "hi" <= k)%nat ->
          peek 0 k (dseg s') = peek 0 k (dseg (seeded_state 0 0 4096 8192)))
    /\ line s' = line (seeded_state 0 0 4096 8192)
    /\ sym s' = sym (seeded_state 0 0 4096 8192)
    /\ e s' = e (seeded_state 0 0 4096 8192)
    /\ text s' = text (seeded_state 0 0 4096 8192).
Proof.
  apply (string_literal_is_stored (seeded_state 0 0 4096 8192) "hi" ";");
    [reflexivity|vm_compute; discriminate|reflexivity].
Defined.

Lemma append_empty (w : string) : w +:+ "" = w.
Proof.
  induction w as [|c w IH]; [reflexivity|].
  change (String c w +:+ "") with (String c (w +:+ "")). rewrite IH. reflexivity.
Qed.

Lemma lex_str_unclosed q body s :
  all_chars (plain q) body = true -> p s = body ->
  exists s', lex_str q s = Ok s' /\ past s' = true.
Proof.
  intros Hb Hp. unfold lex_str. rewrite Hp.
  pose proof (scan_str_plain q body "" s Hb) as E. rewrite append_empty in E.
  rewrite E. cbn [scan_str p set_p].
  destruct (q =? 34); eexists; (split; [reflexivity|reflexivity]).
Qed.

(** X8. A literal that is not closed takes [next] beyond the end of the
    text: the loop stops at the terminator, the `++p` meant for the closing
    quote steps over it, and the next call reads there.  [q] is either
    quote. *)
Theorem unclosed_literal_leaves_the_text (s : state) (q : ascii) (body : string) :
  past s = false ->
  (char_val q =? 39) || (char_val q =? 34) = true ->
  all_chars (plain (char_val q)) body = true ->
  exists s', next (set_p (String q body) s) = Ok s' /\ past s' = true /\ next s' = Undef.
Proof.
  intros Hp Hq Hb. unfold next at 1. cbn [p set_p String.length].
  rewrite (next_loop_quote _ (set_p (String q body) s) q body Hp eq_refl Hq).
  destruct (lex_str_unclosed (char_val q) body
              (set_p body (set_tk (char_val q) (set_p (String q body) s)))
              Hb eq_refl) as (s' & E & Hs').
  exists s'. split; [exact E|]. split; [exact Hs'|]. apply next_past. exact Hs'.
Qed.

Lemma unclosed_literal_leaves_the_text_witness :
  exists s', next (set_p (String "'" "abc") (seeded_state 0 0 4096 8192)) = Ok s'
             /\ past s' = true /\ next s' = Undef.
Proof.
  apply (unclosed_literal_leaves_the_text (seeded_state 0 0 4096 8192) "'" "abc");
    reflexivity.
Defined.

(** X9. The value of a character literal: the character itself, and for
    an escape the character behind the backslash, except that `\n` is the
    newline; so `\t` is the letter t and `\0` the digit 0.  The token is
    `Num` and nothing is stored in the data area. *)
Theorem character_literal_value (s : state) (c c2 : ascii) (rest : string) :
  past s = false ->
  plain 39 (char_val c) = true ->
  next (set_p (String "'" (String c (String "'" rest))) s)
  = Ok (set_tk Tok.Num (set_ival (char_val c) (set_p rest s)))
  /\ next (set_p (String "'" (String "\" (String c2 (String "'" rest)))) s)
     = Ok (set_tk Tok.Num
             (set_ival (if char_val c2 =? 110 then 10 else char_val c2) (set_p rest s))).
Proof.
  intros Hp Hc. split; unfold next; cbn [p set_p String.length].
  - rewrite (next_loop_quote _ (set_p (String "'" (String c (String "'" rest))) s)
               "'" (String c (String "'" rest)) Hp eq_refl eq_refl).
    change (char_val "'") with 39.
    rewrite (lex_str_plain 39 (String c "") rest
               (set_p (String c (String "'" rest))
                  (set_tk 39 (set_p (String "'" (String c (String "'" rest))) s))));
      [|cbn [all_chars]; rewrite Hc; reflexivity|reflexivity|reflexivity].
    reflexivity.
  - rewrite (next_loop_quote _ (set_p (String "'" (String "\" (String c2 (String "'" rest)))) s)
               "'" (String "\" (String c2 (String "'" rest))) Hp eq_refl eq_refl).
    change (char_val "'") with 39.
    unfold lex_str. cbn [p set_p scan_str]. cbv zeta.
    change (char_val "\") with 92. change (char_val "'") with 39.
    cbn [Z.eqb Pos.eqb orb].
    reflexivity.
Qed.

Lemma character_literal_value_witness :
  next (set_p (String "'" (String "a" (String "'" ";"))) (seeded_state 0 0 0 0))
  = Ok (set_tk Tok.Num (set_ival (char_val "a") (set_p ";" (seeded_state 0 0 0 0))))
  /\ next (set_p (String "'" (String "\" (String "t" (String "'" ";")))) (seeded_state 0 0 0 0))
     = Ok (set_tk Tok.Num
             (set_ival (if char_val "t" =? 110 then 10 else char_val "t")
                (set_p ";" (seeded_state 0 0 0 0)))).
Proof.
  apply (character_literal_value (seeded_state 0 0 0 0) "a" "t" ";"); reflexivity.
Defined.

(** ** Numbers *)

Lemma next_loop_digit n s c r :
  past s = false -> p s = String c r -> is_digit (char_val c) = true ->
  next_loop (S n) s = lex_num (char_val c) (set_p r (set_tk (char_val c) s)).
Proof.
  intros Hpast Hp Hd.
  assert (H : (char_val c =? 0) = false /\ (char_val c =? 10) = false
              /\ (char_val c =? 35) = false /\ is_alpha (char_val c) = false).
  { unfold is_digit in Hd. unfold is_alpha.
    repeat split; try (apply Z.eqb_neq; lia).
    destruct (Z.leb_spec 97 (char_val c)), (Z.leb_spec 65 (char_val c)),
      (Z.leb_spec (char_val c) 90), (Z.eqb_spec (char_val c) 95); try reflexivity; lia. }
  destruct H as (H0 & H10 & H35 & Ha).
  cbn [next_loop]. rewrite Hpast. cbv zeta.
  rewrite !p_set_tk, !Hp. cbn [deref advance]. rewrite H0, H10, H35, Ha, Hd. reflexivity.
Qed.

Lemma of_uint_acc_ge d : forall acc, (acc <= Pos.of_uint_acc d acc)%positive.
Proof.
  induction d; intros acc; cbn [Pos.of_uint_acc]; try lia;
    match goal with
    | |- (_ <= Pos.of_uint_acc _ ?a)%positive => specialize (IHd a); lia
    end.
Qed.

Lemma wrap_small z : - 2 ^ 63 <= z < 2 ^ 63 -> wrap z = z.
Proof. intros H. unfold wrap. rewrite Z.mod_small; lia. Qed.

Lemma scan_dec_uint d : forall acc rest,
  is_digit (deref rest) = false ->
  Z.pos (Pos.of_uint_acc d acc) < 2 ^ 63 ->
  scan_dec (Z.pos acc) (NilEmpty.string_of_uint d +:+ rest)
  = (Z.pos (Pos.of_uint_acc d acc), rest).
Proof.
  induction d; intros acc rest Hr Hb; cbn [NilEmpty.string_of_uint Pos.of_uint_acc] in *;
    [ change (EmptyString +:+ rest) with rest;
      destruct rest as [|c r]; [reflexivity|]; cbn [scan_dec deref] in *; rewrite Hr;
      reflexivity
    | .. ];
    match goal with
    | |- scan_dec _ (String ?c ?w +:+ _) = (Z.pos (Pos.of_uint_acc _ ?a), _) =>
        change (String c w +:+ rest) with (String c (w +:+ rest));
        cbn [scan_dec];
        change (is_digit (char_val c)) with true; cbv iota;
        pose proof (of_uint_acc_ge d a);
        replace (wrap (Z.pos acc * 10 + char_val c - 48)) with (Z.pos a)
          by (rewrite wrap_small; [|change (char_val c) with (Z.of_N (N_of_ascii c)); cbn; lia];
              change (char_val c) with (Z.of_N (N_of_ascii c)); cbn; lia);
        apply IHd; assumption
    end.
Qed.

Lemma to_uint_norm n : Decimal.unorm (Pos.to_uint n) = Pos.to_uint n.
Proof.
  pose proof (DecimalPos.Unsigned.to_of (Pos.to_uint n)) as H.
  rewrite DecimalPos.Unsigned.of_to in H. symmetry. exact H.
Qed.

(** X10. A decimal literal has the value its digits spell: on the decimal
    numeral of a positive [n] below 2^63, followed by a character that is not
    a digit, [next] returns `Num` with `ival = n` and `p` at that
    character. *)
Theorem decimal_literal_value (s : state) (n : positive) (rest : string) :
  past s = false -> (Z.pos n <? 2 ^ 63) = true -> is_digit (deref rest) = false ->
  next (set_p (NilEmpty.string_of_uint (Pos.to_uint n) +:+ rest) s)
  = Ok (set_tk Tok.Num (set_ival (Z.pos n) (set_p rest s))).
Proof.
  intros Hp Hn Hr. apply Z.ltb_lt in Hn.
  pose proof (DecimalPos.Unsigned.of_to n) as Hof.
  pose proof (to_uint_norm n) as Hnorm.
  revert Hof Hnorm. generalize (Pos.to_uint n). intros l Hof Hnorm.
  assert (Hl : forall acc l', Pos.of_uint_acc l' acc = n ->
            scan_dec (Z.pos acc) (NilEmpty.string_of_uint l' +:+ rest) = (Z.pos n, rest)).
  { intros acc l' E. rewrite <- E. apply scan_dec_uint; [exact Hr|]. rewrite E. exact Hn. }
  destruct l as [|l|l|l|l|l|l|l|l|l|l]; cbn [Pos.of_uint] in Hof; try discriminate Hof.
  1: { exfalso. rewrite DecimalFacts.unorm_D0 in Hnorm.
       pose proof (DecimalFacts.nzhead_nonzero l l) as Hz.
       unfold Decimal.unorm in Hnorm.
       destruct (Decimal.nzhead l) eqn:E; try (apply Hz; exact Hnorm).
       injection Hnorm as <-. cbn in Hof. discriminate Hof. }
  all: injection Hof as Hof;
    cbn [NilEmpty.string_of_uint];
    match goal with
    | |- next (set_p (String ?c ?w +:+ _) _) = _ =>
        change (String c w +:+ rest) with (String c (w +:+ rest));
        unfold next; cbn [p set_p String.length];
        rewrite (next_loop_digit _ (set_p (String c (w +:+ rest)) s) c (w +:+ rest)
                   Hp eq_refl eq_refl);
        unfold lex_num; cbn [p set_p];
        let v := eval vm_compute in (char_val c) in
        change (char_val c) with v;
        let k := eval vm_compute in (v - 48) in
        change (v - 48) with k;
        cbn [Z.eqb negb];
        rewrite (Hl _ l Hof); reflexivity
    end.
Qed.

Lemma decimal_literal_value_witness :
  next (set_p (NilEmpty.string_of_uint (Pos.to_uint 1024) +:+ ";") (seeded_state 0 0 0 0))
  = Ok (set_tk Tok.Num (set_ival (Z.pos 1024) (set_p ";" (seeded_state 0 0 0 0)))).
Proof.
  apply (decimal_literal_value (seeded_state 0 0 0 0) 1024 ";"); reflexivity.
Defined.

Lemma of_hex_uint_acc_ge d : forall acc, (acc <= Pos.of_hex_uint_acc d acc)%positive.
Proof.
  induction d; intros acc; cbn [Pos.of_hex_uint_acc]; try lia;
    match goal with
    | |- (_ <= Pos.of_hex_uint_acc _ ?a)%positive => specialize (IHd a); lia
    end.
Qed.

Lemma scan_hex_eq v x q :
  scan_hex v (String x q)
  = if negb (deref q =? 0) && is_hex (deref q)
    then scan_hex (wrap (v * 16 + Z.land (deref q) 15 + (if 65 <=? deref q then 9 else 0))) q
    else (v, q).
Proof. reflexivity. Qed.

(** The loop of a hexadecimal literal, from the character before the
    digits on. *)
Lemma scan_hex_uint d : forall acc x rest,
  negb (deref rest =? 0) && is_hex (deref rest) = false ->
  Z.pos (Pos.of_hex_uint_acc d acc) < 2 ^ 63 ->
  scan_hex (Z.pos acc) (String x (HexadecimalString.NilEmpty.string_of_uint d +:+ rest))
  = (Z.pos (Pos.of_hex_uint_acc d acc), rest).
Proof.
  induction d; intros acc x rest Hr Hb;
    cbn [HexadecimalString.NilEmpty.string_of_uint Pos.of_hex_uint_acc] in *;
    [ change (EmptyString +:+ rest) with rest; rewrite scan_hex_eq, Hr;
      reflexivity
    | .. ];
    match goal with
    | |- scan_hex _ (String _ (String ?c ?w +:+ _)) = (Z.pos (Pos.of_hex_uint_acc _ ?a), _) =>
        change (String c w +:+ rest) with (String c (w +:+ rest));
        rewrite scan_hex_eq; cbn [deref];
        let v := eval vm_compute in (char_val c) in
        change (char_val c) with v;
        let b := eval vm_compute in (negb (v =? 0) && is_hex v) in
        change (negb (v =? 0) && is_hex v) with b; cbv iota;
        let l := eval vm_compute in (Z.land v 15) in
        change (Z.land v 15) with l;
        let i := eval vm_compute in (if 65 <=? v then 9 else 0) in
        change (if 65 <=? v then 9 else 0) with i;
        pose proof (of_hex_uint_acc_ge d a);
        replace (wrap (Z.pos acc * 16 + l + i)) with (Z.pos a)
          by (rewrite wrap_small; lia);
        apply IHd; assumption
    end.
Qed.

Lemma to_hex_uint_norm n :
  Hexadecimal.unorm (Pos.to_hex_uint n) = Pos.to_hex_uint n.
Proof.
  pose proof (HexadecimalPos.Unsigned.to_of (Pos.to_hex_uint n)) as H.
  rewrite HexadecimalPos.Unsigned.of_to in H. symmetry. exact H.
Qed.

(** X11. A hexadecimal literal has the value its digits spell: on `0x` or
    `0X` and the hexadecimal numeral (digits and `a` to `f`) of a positive
    [n] below 2^63, followed by a character that is not a hexadecimal
    digit, [next] returns `Num` with `ival = n` and `p` at that character. *)
Theorem hexadecimal_literal_value (s : state) (x : ascii) (n : positive) (rest : string) :
  past s = false ->
  (char_val x =? 120) || (char_val x =? 88) = true ->
  (Z.pos n <? 2 ^ 63) = true ->
  negb (deref rest =? 0) && is_hex (deref rest) = false ->
  next (set_p (String "0" (String x
                 (HexadecimalString.NilEmpty.string_of_uint (Pos.to_hex_uint n) +:+ rest))) s)
  = Ok (set_tk Tok.Num (set_ival (Z.pos n) (set_p rest s))).
Proof.
  intros Hp Hx Hn Hr. apply Z.ltb_lt in Hn.
  pose proof (HexadecimalPos.Unsigned.of_to n) as Hof.
  pose proof (to_hex_uint_norm n) as Hnorm.
  revert Hof Hnorm. generalize (Pos.to_hex_uint n). intros l Hof Hnorm.
  unfold next. cbn [p set_p String.length].
  erewrite next_loop_digit; [|exact Hp|reflexivity|reflexivity].
  unfold lex_num. cbn [p set_p deref]. change (char_val "0") with 48.
  cbn [Z.sub Z.add Z.opp Z.pos_sub Z.eqb negb Pos.pred_double Z.succ_double Z.pred_double Z.double].
  rewrite Hx.
  assert (Hl : forall acc y l', Pos.of_hex_uint_acc l' acc = n ->
            scan_hex (Z.pos acc)
              (String y (HexadecimalString.NilEmpty.string_of_uint l' +:+ rest))
            = (Z.pos n, rest)).
  { intros acc y l' E. rewrite <- E. apply scan_hex_uint; [exact Hr|]. rewrite E. exact Hn. }
  destruct l as [|l|l|l|l|l|l|l|l|l|l|l|l|l|l|l|l]; cbn [Pos.of_hex_uint] in Hof;
    try discriminate Hof.
  1: { exfalso. rewrite HexadecimalFacts.unorm_D0 in Hnorm.
       pose proof (HexadecimalFacts.nzhead_nonzero l l) as Hz.
       unfold Hexadecimal.unorm in Hnorm.
       destruct (Hexadecimal.nzhead l) eqn:E; try (apply Hz; exact Hnorm).
       injection Hnorm as <-. cbn in Hof. discriminate Hof. }
  all: injection Hof as Hof;
    cbn [HexadecimalString.NilEmpty.string_of_uint];
    match goal with
    | |- context [scan_hex 0 (String _ (String ?c ?w +:+ _))] =>
        change (String c w +:+ rest) with (String c (w +:+ rest));
        rewrite scan_hex_eq; cbn [deref];
        let v := eval vm_compute in (char_val c) in
        change (char_val c) with v;
        let b := eval vm_compute in (negb (v =? 0) && is_hex v) in
        change (negb (v =? 0) && is_hex v) with b; cbv iota;
        let k := eval vm_compute in (wrap (0 * 16 + Z.land v 15 + (if 65 <=? v then 9 else 0))) in
        change (wrap (0 * 16 + Z.land v 15 + (if 65 <=? v then 9 else 0))) with k;
        rewrite (Hl _ c l Hof); reflexivity
    end.
Qed.

Lemma hexadecimal_literal_value_witness :
  next (set_p (String "0" (String "x"
                 (HexadecimalString.NilEmpty.string_of_uint (Pos.to_hex_uint 255) +:+ ";")))
          (seeded_state 0 0 0 0))
  = Ok (set_tk Tok.Num (set_ival (Z.pos 255) (set_p ";" (seeded_state 0 0 0 0)))).
Proof.
  apply (hexadecimal_literal_value (seeded_state 0 0 0 0) "x" 255 ";"); reflexivity.
Defined.

(** ** What the lexer leaves alone *)

(** Steps that need more than unfolding are added where they are proved. *)
Ltac follow_special P HP H := fail.

(** Follow the code of a step [H : f s = Ok s'] from [HP : P s] to [P s'],
    for a property [P] of the globals that the setters met on the way do not
    touch; calls are closed with the hints of [frame]. *)
Ltac follow P HP H :=
  cbv beta zeta in H;
  lazymatch type of H with
  | Ok _ = Ok _ =>
      injection H as <-;
      first
        [ exact HP
        | repeat match goal with
                 | |- context [if ?c then _ else _] => destruct c
                 | |- context [match ?x with _ => _ end] => destruct x
                 end;
          exact HP ]
  | Fail _ = Ok _ => discriminate H
  | Undef = Ok _ => discriminate H
  | NoFuel = Ok _ => discriminate H
  | fail _ _ = Ok _ => discriminate H
  | seqM _ _ _ = Ok _ =>
      let sm := fresh "sm" in
      let H1 := fresh "H" in
      let HP1 := fresh "HP" in
      apply seqM_inv in H; destruct H as (sm & H1 & H);
      assert (HP1 : P sm) by (follow P HP H1);
      clear H1; follow P HP1 H
  | (if ?c then _ else _) = Ok _ =>
      let E := fresh "E" in destruct c eqn:E; follow P HP H
  | (if ?c then _ else _) _ = Ok _ =>
      let E := fresh "E" in destruct c eqn:E; follow P HP H
  | (let '(_, _) := ?x in _) = Ok _ =>
      let E := fresh "E" in destruct x eqn:E; follow P HP H
  | match ?x with _ => _ end = Ok _ =>
      let E := fresh "E" in destruct x eqn:E; follow P HP H
  | ?f ?st = Ok _ =>
      first
        [ follow_special P HP H
        | solve [ let HPx := fresh "HP" in
                  assert (HPx : P st) by exact HP; eauto 4 with frame ]
        | let h := head_of f in unfold h in H; follow P HP H ]
  end.

Create HintDb frame.

Section LexerFrame.
Variable s0 : state.

Lemma list_code_same n : forall s s', list_code n s = Ok s' -> same_code s0 s -> same_code s0 s'.
Proof.
  induction n as [|n IH]; intros s s' H HP; cbn [list_code] in H;
    follow (same_code s0) HP H.
Qed.
Hint Resolve list_code_same : frame.

Lemma store_char_same q v s : same_code s0 s -> same_code s0 (store_char q v s).
Proof. intros HP. unfold store_char. destruct (q =? 34); exact HP. Qed.

Lemma scan_str_same q n :
  forall str s s', (String.length str <= n)%nat ->
  scan_str q str s = Ok s' -> same_code s0 s -> same_code s0 s'.
Proof.
  induction n as [|n IH]; intros str s s' Hn H HP.
  - destruct str; [|simpl in Hn; lia]. simpl in H. follow (same_code s0) HP H.
  - destruct str as [|ch r]; simpl in H; [follow (same_code s0) HP H|].
    destruct ((char_val ch =? 0) || (char_val ch =? q)); [follow (same_code s0) HP H|].
    simpl in Hn.
    destruct (char_val ch =? 92).
    + destruct r as [|c2 r2]; [discriminate|].
      eapply (IH r2); [simpl in Hn; lia|exact H|].
      apply store_char_same. exact HP.
    + eapply (IH r); [lia|exact H|]. apply store_char_same. exact HP.
Qed.

Lemma lex_str_same q s s' : lex_str q s = Ok s' -> same_code s0 s -> same_code s0 s'.
Proof.
  intros H HP. unfold lex_str in H.
  destruct (scan_str q (p s) s) as [s1| | |] eqn:E; try discriminate.
  pose proof (scan_str_same _ _ _ _ _ (Nat.le_refl _) E HP) as HP1.
  follow (same_code s0) HP1 H.
Qed.
Hint Resolve lex_str_same : frame.

Lemma next_loop_same n : forall s s', next_loop n s = Ok s' -> same_code s0 s -> same_code s0 s'.
Proof.
  induction n as [|n IH]; intros s s' H HP; cbn [next_loop] in H;
    follow (same_code s0) HP H.
Qed.
End LexerFrame.

Lemma same_code_refl s : same_code s s.
Proof. repeat split. Qed.

Section LexerQuiet.
Variable s0 : state.

Lemma store_char_quiet q v s : quiet s0 s -> quiet s0 (store_char q v s).
Proof. intros HP. unfold store_char. destruct (q =? 34); exact HP. Qed.

Lemma scan_str_quiet_n q n :
  forall str s s', (String.length str <= n)%nat ->
  scan_str q str s = Ok s' -> quiet s0 s -> quiet s0 s'.
Proof.
  induction n as [|n IH]; intros str s s' Hn H HP.
  - destruct str; [|simpl in Hn; lia]. simpl in H. follow (quiet s0) HP H.
  - destruct str as [|ch r]; simpl in H; [follow (quiet s0) HP H|].
    destruct ((char_val ch =? 0) || (char_val ch =? q)); [follow (quiet s0) HP H|].
    simpl in Hn.
    destruct (char_val ch =? 92).
    + destruct r as [|c2 r2]; [discriminate|].
      eapply (IH r2); [simpl in Hn; lia|exact H|].
      apply store_char_quiet. exact HP.
    + eapply (IH r); [lia|exact H|]. apply store_char_quiet. exact HP.
Qed.

Lemma lex_str_quiet q s s' : lex_str q s = Ok s' -> quiet s0 s -> quiet s0 s'.
Proof.
  intros H HP. unfold lex_str in H.
  destruct (scan_str q (p s) s) as [s1| | |] eqn:E; try discriminate.
  pose proof (scan_str_quiet_n _ _ _ _ _ (Nat.le_refl _) E HP) as HP1.
  follow (quiet s0) HP1 H.
Qed.
Hint Resolve lex_str_quiet : frame.

Lemma next_loop_quiet_n n : forall s s', next_loop n s = Ok s' -> quiet s0 s -> quiet s0 s'.
Proof.
  induction n as [|n IH]; intros s s' H HP; cbn [next_loop] in H.
  - follow (quiet s0) HP H.
  - cbv zeta in H.
    destruct (past s); [discriminate|].
    destruct (deref (p s) =? 0); [follow (quiet s0) HP H|].
    destruct (deref (p s) =? 10).
    + apply seqM_inv in H. destruct H as (sm & H1 & H).
      destruct (src _ =? 0) eqn:E.
      * injection H1 as <-. follow (quiet s0) HP H.
      * exfalso. destruct HP as [Hs _]. cbn [src set_p set_tk] in E.
        rewrite Hs in E. discriminate E.
    + follow (quiet s0) HP H.
Qed.
End LexerQuiet.

(** X12. [next] reads: it never touches the code emitted so far, the type
    and the frame size the parser keeps, the flags or the locals of [main];
    and when `src` is not set it prints nothing and leaves the pointers of
    the listing where they were. *)
Theorem next_leaves_the_code_alone (s s' : state) :
  next s = Ok s' ->
  same_code s s' /\ (src s = 0 -> out s' = out s /\ le_ s' = le_ s /\ lp s' = lp s).
Proof.
  intros H. split.
  - eapply next_loop_same; [exact H|]. apply same_code_refl.
  - intros Hs.
    assert (HQ : quiet s s') by (eapply next_loop_quiet_n; [exact H|]; repeat split; exact Hs).
    destruct HQ as (_ & HQ). exact HQ.
Qed.

Lemma next_leaves_the_code_alone_witness :
  same_code (set_p "++x;" w_decl) w_pre
  /\ out w_pre = out (set_p "++x;" w_decl) /\ le_ w_pre = le_ (set_p "++x;" w_decl)
  /\ lp w_pre = lp (set_p "++x;" w_decl).
Proof.
  assert (Hn : next (set_p "++x;" w_decl) = Ok w_pre) by (vm_compute; reflexivity).
  destruct (next_leaves_the_code_alone (set_p "++x;" w_decl) w_pre Hn) as [H1 H2].
  split; [exact H1|]. apply H2. reflexivity.
Defined.

(** ** The machine's memory *)

Section Memory.
Variable img : Z -> option Z.

Lemma store_bytes_out bs : forall x m y,
  y < x \/ x + Z.of_nat (length bs) <= y -> store_bytes x bs m !! y = m !! y.
Proof.
  induction bs as [|b bs IH]; intros x m y Hy; cbn [store_bytes]; [reflexivity|].
  cbn [length] in Hy. rewrite IH by lia. apply lookup_insert_ne. lia.
Qed.

Lemma store_bytes_in bs : forall x m k b,
  bs !! k = Some b -> store_bytes x bs m !! (x + Z.of_nat k) = Some b.
Proof.
  induction bs as [|b0 bs IH]; intros x m k b Hk; [discriminate|].
  cbn [store_bytes]. destruct k as [|k].
  - injection Hk as ->. rewrite store_bytes_out by lia.
    replace (x + Z.of_nat 0) with x by lia. apply lookup_insert_eq.
  - replace (x + Z.of_nat (S k)) with (x + 1 + Z.of_nat k) by lia. apply IH. exact Hk.
Qed.

Lemma load_bytes_stored bs : forall x m,
  load_bytes img (store_bytes x bs m) x (length bs) = Some bs.
Proof.
  intros x m.
  assert (H : forall n k, (k + n = length bs)%nat ->
            load_bytes img (store_bytes x bs m) (x + Z.of_nat k) n = Some (drop k bs)).
  { induction n as [|n IH]; intros k Hk; cbn [load_bytes].
    - rewrite drop_ge by lia. reflexivity.
    - destruct (lookup_lt_is_Some_2 bs k) as [b Hb]; [lia|].
      unfold load_byte at 1. rewrite (store_bytes_in bs x m k b Hb).
      replace (x + Z.of_nat k + 1) with (x + Z.of_nat (S k)) by lia.
      rewrite IH by lia. rewrite (drop_S bs b k Hb). reflexivity. }
  specialize (H (length bs) 0%nat eq_refl).
  replace (x + Z.of_nat 0) with x in H by lia. exact H.
Qed.

Lemma load_bytes_frame bs n : forall x m y,
  y + Z.of_nat n <= x \/ x + Z.of_nat (length bs) <= y ->
  load_bytes img (store_bytes x bs m) y n = load_bytes img m y n.
Proof.
  induction n as [|n IH]; intros x m y Hy; cbn [load_bytes]; [reflexivity|].
  unfold load_byte. rewrite store_bytes_out by lia. rewrite IH by lia. reflexivity.
Qed.

Lemma le_bytes_length n : forall v, length (le_bytes n v) = n.
Proof. induction n as [|n IH]; intros v; cbn [le_bytes length]; [reflexivity|]. rewrite IH. reflexivity. Qed.

Lemma le_value_bytes n : forall v, le_value (le_bytes n v) = v mod 256 ^ Z.of_nat n.
Proof.
  induction n as [|n IH]; intros v; cbn [le_bytes le_value].
  - change (256 ^ Z.of_nat 0) with 1. rewrite Z.mod_1_r. reflexivity.
  - rewrite IH. rewrite Nat2Z.inj_succ, Z.pow_succ_r by lia.
    rewrite (Z.mul_comm 256), Z.rem_mul_r by lia. lia.
Qed.

Lemma wrap_mod z : wrap (z mod 2 ^ 64) = wrap z.
Proof.
  unfold wrap. f_equal.
  rewrite <- (Z.add_mod_idemp_l z) by lia. reflexivity.
Qed.

Lemma load_word_stored x w m : load_word img (store_word x w m) x = Some (wrap w).
Proof.
  unfold load_word, store_word.
  pose proof (load_bytes_stored (le_bytes 8 w) x m) as H.
  rewrite le_bytes_length in H. rewrite H.
  rewrite le_value_bytes. change (256 ^ Z.of_nat 8) with (2 ^ 64).
  rewrite wrap_mod. reflexivity.
Qed.

Lemma load_word_frame x w m y :
  y + 8 <= x \/ x + 8 <= y ->
  load_word img (store_word x w m) y = load_word img m y.
Proof.
  intros Hy. unfold load_word, store_word.
  rewrite load_bytes_frame; [reflexivity|]. rewrite le_bytes_length. lia.
Qed.
End Memory.

(** ** Instructions that go together *)

(** Decide the opcode tests of [exec] in the goal. *)
Ltac exec_here :=
  unfold exec;
  cbn [Z.eqb Pos.eqb Z.leb Z.compare Pos.compare Pos.compare_cont andb negb
       Op.LEA Op.IMM Op.JMP Op.JSR Op.BZ Op.BNZ Op.ENT Op.ADJ Op.LEV Op.LI Op.LC
       Op.SI Op.SC Op.PSH Op.OR Op.XOR Op.AND Op.EQ Op.NE Op.LT Op.GT Op.LE Op.GE
       Op.SHL Op.SHR Op.ADD Op.SUB Op.MUL Op.DIV Op.MOD Op.OPEN Op.READ Op.CLOS
       Op.PRTF Op.MALC Op.FREE Op.MSET Op.MCMP Op.EXIT].






(** X15. A binary operator on what `PSH` pushed: after `PSH`, whatever [y]
    the code of the right operand leaves in `a`, the operator combines the
    pushed value with it and the stack is back where it was. *)
Theorem push_then_operator
  (H : host) (img : Z -> option Z) (strmax : nat) (i : Z) (v : vm) (y r : Z) :
  (Op.OR <=? i) && (i <=? Op.MOD) = true ->
  alu i (wrap (a v)) y = Some r ->
  exists v1 v2,
    exec H img strmax Op.PSH v = Running v1
    /\ sp v1 = sp v - 8
    /\ exec H img strmax i (set_a y v1) = Running v2
    /\ a v2 = r /\ sp v2 = sp v /\ pc v2 = pc v /\ bp v2 = bp v.
Proof.
  intros Hi Hr.
  assert (Hne : forall k, k < Op.OR -> (i =? k) = false).
  { intros k Hk. apply Z.eqb_neq. apply andb_prop in Hi. destruct Hi as [Hi _].
    apply Z.leb_le in Hi. lia. }
  exists (set_mem (store_word (sp v - 8) (a v) (mem v)) (set_sp (sp v - 8) v)).
  exists (set_a r (set_sp (sp v - 8 + 8)
            (set_a y (set_mem (store_word (sp v - 8) (a v) (mem v))
                        (set_sp (sp v - 8) v))))).
  split; [exec_here; reflexivity|].
  cbn [sp set_mem set_sp]. split; [reflexivity|].
  split.
  - unfold exec. rewrite !Hne by (vm_compute; reflexivity).
    rewrite Hi. cbn [mem sp a set_a set_mem set_sp].
    rewrite load_word_stored. cbn [need]. rewrite Hr. reflexivity.
  - cbn [a sp pc bp set_a set_sp set_mem].
    split; [reflexivity|]. split; [lia|]. split; reflexivity.
Qed.

Lemma push_then_operator_witness :
  exists v1 v2,
    exec (demo_host five_prog) (image_of five_prog) 100 Op.PSH (stopped five_prog 3)
    = Running v1
    /\ sp v1 = sp (stopped five_prog 3) - 8
    /\ exec (demo_host five_prog) (image_of five_prog) 100 Op.SUB (set_a 45 v1)
       = Running v2
    /\ a v2 = 3145683 /\ sp v2 = sp (stopped five_prog 3)
    /\ pc v2 = pc (stopped five_prog 3) /\ bp v2 = bp (stopped five_prog 3).
Proof.
  apply (push_then_operator (demo_host five_prog) (image_of five_prog) 100 Op.SUB
           (stopped five_prog 3) 45 3145683); vm_compute; reflexivity.
Defined.

Lemma in_range_wrap z : (- 2 ^ 63 <=? z) && (z <? 2 ^ 63) = true -> wrap z = z.
Proof. intros H. apply andb_prop in H. destruct H as [H1 H2]. apply wrap_small. lia. Qed.

(** X16. Call and return: `JSR` pushes the address behind its operand,
    `ENT` pushes `bp` and opens the frame, and a `LEV` executed later with
    `bp` at that frame, the two saved words still in place, puts `sp` and
    `bp` back where they were before the call and goes on behind the
    `JSR`. *)
Theorem call_and_return
  (H : host) (img : Z -> option Z) (strmax : nat) (v v1 v2 v3 : vm) :
  (- 2 ^ 63 <=? pc v + 8) && (pc v + 8 <? 2 ^ 63) = true ->
  (- 2 ^ 63 <=? bp v) && (bp v <? 2 ^ 63) = true ->
  exec H img strmax Op.JSR v = Running v1 ->
  exec H img strmax Op.ENT (set_pc (pc v1 + 8) v1) = Running v2 ->
  bp v3 = bp v2 ->
  load_word img (mem v3) (bp v2) = load_word img (mem v2) (bp v2) ->
  load_word img (mem v3) (bp v2 + 8) = load_word img (mem v2) (bp v2 + 8) ->
  sp v1 = sp v - 8
  /\ bp v2 = sp v - 16
  /\ exec H img strmax Op.LEV v3
     = Running (set_pc (pc v + 8) (set_bp (bp v) (set_sp (sp v) v3))).
Proof.
  intros Hpc Hbp H1 H2 Hb3 Hm0 Hm8.
  apply in_range_wrap in Hpc, Hbp.
  exec_opcode H1. injection H1 as <-.
  cbn [pc sp bp mem set_pc set_mem set_sp] in *.
  exec_opcode H2. injection H2 as <-.
  cbn [pc sp bp mem set_pc set_mem set_sp set_bp] in *.
  split; [reflexivity|]. split; [lia|].
  rewrite load_word_stored in Hm0.
  rewrite load_word_frame in Hm8 by lia.
  replace (sp v - 8 - 8 + 8) with (sp v - 8) in Hm8 by lia.
  rewrite load_word_stored in Hm8.
  exec_here. rewrite Hb3.
  replace (sp v - 8 - 8 + 8) with (sp v - 8) by lia.
  rewrite Hm0, Hm8. cbn [need]. rewrite Hpc, Hbp.
  replace (sp v - 8 - 8 + 16) with (sp v) by lia. reflexivity.
Qed.

Lemma call_and_return_witness :
  let H := demo_host call_prog in
  let img := image_of call_prog in
  let v := stopped call_prog 3 in
  let v1 := running (exec H img 100 Op.JSR v) v in
  let v2 := running (exec H img 100 Op.ENT (set_pc (pc v1 + 8) v1)) v in
  let v3 := stopped call_prog 10 in
  sp v1 = sp v - 8
  /\ bp v2 = sp v - 16
  /\ exec H img 100 Op.LEV v3
     = Running (set_pc (pc v + 8) (set_bp (bp v) (set_sp (sp v) v3))).
Proof.
  cbv zeta.
  apply (call_and_return (demo_host call_prog) (image_of call_prog) 100
           (stopped call_prog 3)); vm_compute; reflexivity.
Defined.

(** ** What every instruction does *)

Lemma exec_keeps H img n i v v' :
  exec H img n i v = Running v' ->
  cycle v' = cycle v
  /\ (exists o, vout v' = vout v +:+ o)
  /\ (exists cs, vcalls v' = vcalls v ++ cs).
Proof.
  intros Hx. unfold exec in Hx. cbv zeta in Hx.
  repeat match type of Hx with
         | need ?o _ = _ => destruct o eqn:?; cbn [need] in Hx; [|discriminate Hx]
         | (if ?c then _ else _) = _ => destruct c eqn:?
         | (let '(_, _) := ?x in _) = _ => destruct x
         | Crashed = _ => discriminate Hx
         | Returned _ _ = _ => discriminate Hx
         end;
    injection Hx as <-;
    cbn [cycle vout vcalls set_pc set_sp set_bp set_a set_mem print called];
    (split; [reflexivity|]);
    (split;
     [ first [ exists EmptyString; symmetry; apply append_empty | eexists; reflexivity ]
     | first [ exists []; symmetry; apply app_nil_r | eexists; reflexivity ] ]).
Qed.

(** X17. Every instruction counts once and nothing is taken back: a turn of
    the machine's loop adds one to `cycle`, and the output and the list of
    host calls only grow. *)
Theorem step_counts_and_appends
  (H : host) (img : Z -> option Z) (dbg : Z) (strmax : nat) (v v' : vm) :
  step H img dbg strmax v = Running v' ->
  cycle v' = wrap (cycle v + 1)
  /\ (exists o, vout v' = vout v +:+ o)
  /\ (exists cs, vcalls v' = vcalls v ++ cs).
Proof.
  intros Hs. unfold step in Hs.
  destruct (load_word img (mem v) (pc v)) as [i|]; cbn [need] in Hs; [|discriminate].
  destruct (trace img dbg i _) as [v1| | |] eqn:Et; try discriminate.
  assert (Ht : cycle v1 = wrap (cycle v + 1) /\ (exists o, vout v1 = vout v +:+ o)
               /\ vcalls v1 = vcalls v).
  { unfold trace in Et.
    destruct (dbg =? 0).
    - injection Et as <-. split; [reflexivity|]. split; [|reflexivity].
      exists EmptyString. symmetry. apply append_empty.
    - destruct (mnemonic i); cbn [need] in Et; [|discriminate].
      destruct (has_operand i).
      + destruct (load_word _ _ _); cbn [need] in Et; [|discriminate].
        injection Et as <-. split; [reflexivity|]. split; [|reflexivity].
        eexists. reflexivity.
      + injection Et as <-. split; [reflexivity|]. split; [|reflexivity].
        eexists. reflexivity. }
  destruct Ht as (Hc & [o1 Ho1] & Hcs).
  destruct (exec_keeps _ _ _ _ _ _ Hs) as (Hc' & [o2 Ho2] & [cs Hcs']).
  split; [congruence|]. split.
  - exists (o1 +:+ o2). rewrite Ho2, Ho1. clear.
    induction (vout v) as [|c w IH]; [reflexivity|].
    change (String c w +:+ o1) with (String c (w +:+ o1)).
    change (String c (w +:+ o1) +:+ o2) with (String c ((w +:+ o1) +:+ o2)).
    rewrite IH. reflexivity.
  - exists cs. congruence.
Qed.

Lemma step_counts_and_appends_witness :
  let H := demo_host five_prog in
  let v := boot H (after (compiled five_prog)) 1 24 in
  let v' := running (step H (image_of five_prog) 0 100 v) v in
  cycle v' = wrap (cycle v + 1)
  /\ (exists o, vout v' = vout v +:+ o)
  /\ (exists cs, vcalls v' = vcalls v ++ cs).
Proof.
  cbv zeta.
  apply (step_counts_and_appends (demo_host five_prog) (image_of five_prog) 0 100).
  vm_compute. reflexivity.
Defined.

Lemma exec_unknown H img n i v :
  (i <? 0) || (Op.EXIT <? i) = true ->
  exec H img n i v
  = Returned (-1)
      (print ("unknown instruction = " +:+ fmt_d i +:+ "! cycle = "
              +:+ fmt_d (cycle v) +:+ nl) v).
Proof.
  intros Hi.
  assert (Hne : forall k, 0 <= k <= Op.EXIT -> (i =? k) = false).
  { intros k Hk. apply Z.eqb_neq. apply orb_prop in Hi.
    destruct Hi as [Hi|Hi]; apply Z.ltb_lt in Hi; lia. }
  assert (Hr : (Op.OR <=? i) && (i <=? Op.MOD) = false).
  { apply orb_prop in Hi. destruct Hi as [Hi|Hi]; apply Z.ltb_lt in Hi.
    - rewrite (proj2 (Z.leb_gt Op.OR i)) by (unfold Op.OR; lia). reflexivity.
    - rewrite (proj2 (Z.leb_gt i Op.MOD)) by (unfold Op.MOD, Op.EXIT in *; lia).
      apply andb_false_r. }
  unfold exec. cbv zeta. rewrite !Hne by (vm_compute; split; discriminate).
  rewrite Hr. reflexivity.
Qed.

(** X18. A word that is no opcode ends the run with the status -1 and the
    diagnostic `unknown instruction`; with `-d` the trace comes first, and
    it reads its mnemonic outside the table of mnemonics unless the word
    is 39, the one index at which the table's terminator stands. *)
Theorem unknown_instruction_ends_the_run
  (H : host) (img : Z -> option Z) (dbg : Z) (strmax : nat) (v : vm) (i : Z) :
  load_word img (mem v) (pc v) = Some i ->
  (i <? 0) || (Op.EXIT <? i) = true ->
  step H img dbg strmax v =
  let said := "unknown instruction = " +:+ fmt_d i +:+ "! cycle = "
              +:+ fmt_d (wrap (cycle v + 1)) +:+ nl in
  if dbg =? 0 then Returned (-1) (print said (fetched v))
  else if i =? 39 then
    Returned (-1) (print said (print (fmt_d (wrap (cycle v + 1)) +:+ "> " +:+ nl) (fetched v)))
  else Crashed.
Proof.
  intros Hl Hi. unfold step. rewrite Hl. cbn [need]. unfold trace. cbv zeta.
  destruct (dbg =? 0).
  - rewrite exec_unknown by exact Hi. reflexivity.
  - destruct (i =? 39) eqn:E39.
    + apply Z.eqb_eq in E39. subst i. cbn [need mnemonic has_operand].
      reflexivity.
    + unfold mnemonic.
      assert (Hm : (0 <=? i) && (i <=? 39) = false).
      { apply Z.eqb_neq in E39. apply orb_prop in Hi.
        destruct Hi as [Hi|Hi]; apply Z.ltb_lt in Hi.
        - rewrite (proj2 (Z.leb_gt 0 i)) by lia. reflexivity.
        - rewrite (proj2 (Z.leb_gt i 39)) by (unfold Op.EXIT in Hi; lia).
          apply andb_false_r. }
      rewrite Hm. reflexivity.
Qed.

Lemma unknown_instruction_ends_the_run_witness :
  let H := demo_host five_prog in
  let v := set_pc 3145728 (stopped five_prog 0) in
  let i := 7216209592422786085 in
  step H (image_of five_prog) 0 100 v =
  let said := "unknown instruction = " +:+ fmt_d i +:+ "! cycle = "
              +:+ fmt_d (wrap (cycle v + 1)) +:+ nl in
  if 0 =? 0 then Returned (-1) (print said (fetched v))
  else if i =? 39 then
    Returned (-1) (print said (print (fmt_d (wrap (cycle v + 1)) +:+ "> " +:+ nl) (fetched v)))
  else Crashed.
Proof.
  cbv zeta.
  apply (unknown_instruction_ends_the_run (demo_host five_prog) (image_of five_prog) 0 100
           (set_pc 3145728 (stopped five_prog 0)) 7216209592422786085);
    vm_compute; reflexivity.
Defined.

(** ** The end of the run *)

Lemma boot_words H s argc argv :
  let top := h_malloc H 3 + poolsz in
  let img := image H s in
  let m := mem (boot H s argc argv) in
  load_word img m (top - 40) = Some (wrap (top - 16))
  /\ load_word img m (top - 16) = Some Op.PSH
  /\ load_word img m (top - 8) = Some Op.EXIT.
Proof.
  cbv zeta. unfold boot. cbn [mem].
  split; [|split].
  - rewrite load_word_stored. reflexivity.
  - rewrite !load_word_frame by lia. rewrite load_word_stored. reflexivity.
  - rewrite !load_word_frame by lia. rewrite load_word_stored. reflexivity.
Qed.

(** X19. When [main] of the program returns, the run ends with its value:
    the `LEV` of the outermost frame goes to the two words the driver left
    on the stack, `PSH` and `EXIT`, which are executed as code, and the
    status is what was in `a`.  This holds as long as the three words of
    the driver are still what [boot] stored. *)
Theorem main_return_exits
  (H : host) (s : state) (argc argv : Z) (strmax : nat) (v : vm) (b : Z) :
  let top := h_malloc H 3 + poolsz in
  let img := image H s in
  (0 <=? top - 48) && (top <? 2 ^ 63) = true ->
  bp v = top - 48 ->
  load_word img (mem v) (top - 48) = Some b ->
  load_word img (mem v) (top - 40) = load_word img (mem (boot H s argc argv)) (top - 40) ->
  load_word img (mem v) (top - 16) = load_word img (mem (boot H s argc argv)) (top - 16) ->
  load_word img (mem v) (top - 8) = load_word img (mem (boot H s argc argv)) (top - 8) ->
  exists v1 v2,
    exec H img strmax Op.LEV v = Running v1
    /\ pc v1 = top - 16 /\ sp v1 = top - 32
    /\ run H img 0 strmax 2 v1 = Returned (wrap (a v)) v2
    /\ vout v2 = vout v +:+ "exit(" +:+ fmt_d (wrap (a v)) +:+ ") cycle = "
                 +:+ fmt_d (wrap (wrap (cycle v + 1) + 1)) +:+ nl.
Proof.
  cbv zeta. intros Hr Hbp Hb H40 H16 H8.
  destruct (boot_words H s argc argv) as (B40 & B16 & B8). cbv zeta in B40, B16, B8.
  rewrite B40 in H40. rewrite B16 in H16. rewrite B8 in H8.
  apply andb_prop in Hr. destruct Hr as [Hr1 Hr2].
  apply Z.leb_le in Hr1. apply Z.ltb_lt in Hr2.
  rewrite wrap_small in H40 by lia.
  eexists. eexists.
  split.
  { exec_here. rewrite Hbp, Hb. cbn [need].
    replace (h_malloc H 3 + poolsz - 48 + 8) with (h_malloc H 3 + poolsz - 40) by lia.
    rewrite H40. cbn [need]. reflexivity. }
  cbn [pc sp set_pc set_sp set_bp].
  split; [reflexivity|]. split; [lia|].
  cbn [run]. unfold step at 1. cbn [mem pc set_pc set_bp set_sp].
  rewrite H16. cbn [need trace Z.eqb].
  exec_here. cbn [run]. unfold step at 1.
  cbn [mem pc sp a cycle vout set_pc set_bp set_sp set_cycle set_mem].
  rewrite load_word_frame by lia.
  replace (h_malloc H 3 + poolsz - 16 + 8) with (h_malloc H 3 + poolsz - 8) by lia.
  rewrite H8. cbn [need trace Z.eqb].
  exec_here.
  cbn [mem pc sp a cycle vout set_pc set_bp set_sp set_cycle set_mem].
  rewrite load_word_stored. cbn [need].
  split; [reflexivity|]. reflexivity.
Qed.

Lemma main_return_exits_witness :
  let H := demo_host seven_prog in
  let s := after (compiled seven_prog) in
  let v := stopped seven_prog 2 in
  let top := h_malloc H 3 + poolsz in
  exists v1 v2,
    exec H (image H s) 100 Op.LEV v = Running v1
    /\ pc v1 = top - 16 /\ sp v1 = top - 32
    /\ run H (image H s) 0 100 2 v1 = Returned (wrap (a v)) v2
    /\ vout v2 = vout v +:+ "exit(" +:+ fmt_d (wrap (a v)) +:+ ") cycle = "
                 +:+ fmt_d (wrap (wrap (cycle v + 1) + 1)) +:+ nl.
Proof.
  cbv zeta.
  apply (main_return_exits (demo_host seven_prog) (after (compiled seven_prog)) 1 24 100
           (stopped seven_prog 2) 4456448); vm_compute; reflexivity.
Defined.

(** ** Library functions keep their opcodes *)

Lemma lib_rec_sym0 : lib_rec sym0.
Proof. split; intros H; discriminate H. Qed.

Lemma libs_ok_upd i f s :
  (forall r, lib_rec r -> lib_rec (f r)) ->
  libs_ok s -> libs_ok (set_sym (sym_upd i f (sym s)) s).
Proof.
  intros Hf Hs. unfold libs_ok. cbn [sym set_sym]. unfold sym_upd.
  apply poke_Forall; [exact Hs|exact lib_rec_sym0|].
  apply Hf. unfold peek.
  destruct (sym s !! i) as [r|] eqn:E.
  - rewrite (nth_lookup_Some _ _ _ _ E).
    eapply (proj1 (Forall_lookup _ _) Hs); eassumption.
  - rewrite nth_overflow; [exact lib_rec_sym0|].
    apply lookup_ge_None in E. lia.
Qed.

Lemma id_set_libs f s s' :
  id_set f s = Ok s' -> (forall r, lib_rec r -> lib_rec (f r)) -> libs_ok s -> libs_ok s'.
Proof. intros [= <-] Hf Hs. apply libs_ok_upd; assumption. Qed.

(** A field setter of the parser keeps [lib_rec]. *)
Ltac lib_rec_kept :=
  let r := fresh "r" in
  let H1 := fresh "H" in
  let H2 := fresh "H" in
  intros r [H1 H2]; split;
  cbn [Class Val HClass HVal with_Tk with_Hash with_Name with_Class with_Type with_Val
       with_HClass with_HType with_HVal shadow restore];
  first [ assumption | intros Hx; discriminate Hx ].

Ltac follow_special P HP H ::=
  lazymatch type of H with
  | id_set _ ?st = Ok _ =>
      let HPx := fresh "HP" in
      assert (HPx : libs_ok st) by exact HP;
      refine (id_set_libs _ _ _ H _ HPx); lib_rec_kept
  end.


Lemma list_code_libs n : forall s s', list_code n s = Ok s' -> libs_ok s -> libs_ok s'.
Proof.
  induction n as [|n IH]; intros s s' H HP; cbn [list_code] in H;
    follow libs_ok HP H.
Qed.
#[export] Hint Resolve list_code_libs : frame.

Lemma store_char_libs q v s : libs_ok s -> libs_ok (store_char q v s).
Proof. intros HP. unfold store_char. destruct (q =? 34); exact HP. Qed.

Lemma scan_str_libs q n :
  forall str s s', (String.length str <= n)%nat ->
  scan_str q str s = Ok s' -> libs_ok s -> libs_ok s'.
Proof.
  induction n as [|n IH]; intros str s s' Hn H HP.
  - destruct str; [|simpl in Hn; lia]. simpl in H. follow libs_ok HP H.
  - destruct str as [|ch r]; simpl in H; [follow libs_ok HP H|].
    destruct ((char_val ch =? 0) || (char_val ch =? q)); [follow libs_ok HP H|].
    simpl in Hn.
    destruct (char_val ch =? 92).
    + destruct r as [|c2 r2]; [discriminate|].
      eapply (IH r2); [simpl in Hn; lia|exact H|].
      apply store_char_libs. exact HP.
    + eapply (IH r); [lia|exact H|]. apply store_char_libs. exact HP.
Qed.

Lemma lex_str_libs q s s' : lex_str q s = Ok s' -> libs_ok s -> libs_ok s'.
Proof.
  intros H HP. unfold lex_str in H.
  destruct (scan_str q (p s) s) as [s1| | |] eqn:E; try discriminate.
  pose proof (scan_str_libs _ _ _ _ _ (Nat.le_refl _) E HP) as HP1.
  follow libs_ok HP1 H.
Qed.
#[export] Hint Resolve lex_str_libs : frame.

Lemma lex_ident_libs t pp r s s' : lex_ident t pp r s = Ok s' -> libs_ok s -> libs_ok s'.
Proof.
  intros H HP. unfold lex_ident in H.
  destruct (scan_ident t r) as [h q].
  destruct (find_sym _ _ _ (sym s) 0) as [i found] eqn:Ef.
  destruct found.
  - follow libs_ok HP H.
  - injection H as <-.
    apply (libs_ok_upd i _ (set_id i (set_p q s))); [lib_rec_kept|exact HP].
Qed.
#[export] Hint Resolve lex_ident_libs : frame.

Lemma next_loop_libs n : forall s s', next_loop n s = Ok s' -> libs_ok s -> libs_ok s'.
Proof.
  induction n as [|n IH]; intros s s' H HP; cbn [next_loop] in H;
    follow libs_ok HP H.
Qed.

Lemma next_libs s s' : next s = Ok s' -> libs_ok s -> libs_ok s'.
Proof. apply next_loop_libs. Qed.
#[export] Hint Resolve next_libs : frame.

Lemma more_strings_libs n : forall s s', more_strings n s = Ok s' -> libs_ok s -> libs_ok s'.
Proof.
  induction n as [|n IH]; intros s s' H HP; cbn [more_strings] in H;
    follow libs_ok HP H.
Qed.
#[export] Hint Resolve more_strings_libs : frame.

Lemma stars_libs n : forall t k s s',
  (forall t s s', k t s = Ok s' -> libs_ok s -> libs_ok s') ->
  stars n t k s = Ok s' -> libs_ok s -> libs_ok s'.
Proof.
  induction n as [|n IH]; intros t k s s' Hk H HP; cbn [stars] in H;
    follow libs_ok HP H.
Qed.

Lemma call_args_libs rec n : forall t k s s',
  (forall lev s s', rec lev s = Ok s' -> libs_ok s -> libs_ok s') ->
  (forall t s s', k t s = Ok s' -> libs_ok s -> libs_ok s') ->
  call_args rec n t k s = Ok s' -> libs_ok s -> libs_ok s'.
Proof.
  induction n as [|n IH]; intros t k s s' Hrec Hk H HP; cbn [call_args] in H;
    follow libs_ok HP H.
Qed.

Ltac follow_special P HP H ::=
  lazymatch type of H with
  | id_set _ ?st = Ok _ =>
      let HPx := fresh "HP" in
      assert (HPx : libs_ok st) by exact HP;
      refine (id_set_libs _ _ _ H _ HPx); lib_rec_kept
  | stars _ _ _ _ = Ok _ =>
      eapply stars_libs; [ | exact H | exact HP ];
      let HPx := fresh "HP" in
      let Hx := fresh "H" in
      intros ? ? ? Hx HPx; follow P HPx Hx
  | call_args _ _ _ _ _ = Ok _ =>
      eapply call_args_libs; [ | | exact H | exact HP ];
      [ eauto 3 with frame
      | let HPx := fresh "HP" in
        let Hx := fresh "H" in
        intros ? ? ? Hx HPx; follow P HPx Hx ]
  end.

Section ExprLibs.
Variable rec : Z -> M.
Hypothesis rec_libs : forall lev s s', rec lev s = Ok s' -> libs_ok s -> libs_ok s'.

Lemma expr_head_libs n s s' : expr_head rec n s = Ok s' -> libs_ok s -> libs_ok s'.
Proof. intros H HP. unfold expr_head in H. follow libs_ok HP H. Qed.

Lemma expr_op_libs s s' : expr_op rec s = Ok s' -> libs_ok s -> libs_ok s'.
Proof. intros H HP. unfold expr_op in H. follow libs_ok HP H. Qed.

Lemma expr_tail_libs n lev : forall s s',
  expr_tail rec n lev s = Ok s' -> libs_ok s -> libs_ok s'.
Proof.
  induction n as [|n IH]; intros s s' H HP; cbn [expr_tail] in H.
  - follow libs_ok HP H.
  - destruct (tk s >=? lev); [|follow libs_ok HP H].
    apply seqM_inv in H. destruct H as (sm & H1 & H).
    eapply IH; [exact H|]. eapply expr_op_libs; eassumption.
Qed.
End ExprLibs.

Lemma expr_libs fuel : forall lev s s', expr fuel lev s = Ok s' -> libs_ok s -> libs_ok s'.
Proof.
  induction fuel as [|f IH]; intros lev s s' H HP; cbn [expr] in H; [discriminate|].
  apply seqM_inv in H. destruct H as (sm & H1 & H).
  eapply expr_tail_libs; [exact IH|exact H|].
  eapply expr_head_libs; [exact IH|exact H1|exact HP].
Qed.
#[export] Hint Resolve expr_libs : frame.

Section StmtLibs.
Variable ex : Z -> M.
Variable st : M.
Hypothesis ex_libs : forall lev s s', ex lev s = Ok s' -> libs_ok s -> libs_ok s'.
Hypothesis st_libs : forall s s', st s = Ok s' -> libs_ok s -> libs_ok s'.

Lemma stmts_libs n : forall s s', stmts st n s = Ok s' -> libs_ok s -> libs_ok s'.
Proof.
  induction n as [|n IH]; intros s s' H HP; cbn [stmts] in H;
    follow libs_ok HP H.
Qed.

Lemma stmt_body_libs n s s' : stmt_body ex st n s = Ok s' -> libs_ok s -> libs_ok s'.
Proof.
  pose proof stmts_libs as Hstmts.
  intros H HP. unfold stmt_body in H. follow libs_ok HP H.
Qed.
End StmtLibs.

Lemma stmt_libs fuel : forall s s', stmt fuel s = Ok s' -> libs_ok s -> libs_ok s'.
Proof.
  induction fuel as [|f IH]; intros s s' H HP; cbn [stmt] in H; [discriminate|].
  eapply stmt_body_libs; [apply expr_libs|exact IH|exact H|exact HP].
Qed.
#[export] Hint Resolve stmt_libs : frame.

Lemma ptr_stars_libs n : forall s s', ptr_stars n s = Ok s' -> libs_ok s -> libs_ok s'.
Proof.
  induction n as [|n IH]; intros s s' H HP; cbn [ptr_stars] in H;
    follow libs_ok HP H.
Qed.
#[export] Hint Resolve ptr_stars_libs : frame.

Lemma enum_items_libs n : forall s s', enum_items n s = Ok s' -> libs_ok s -> libs_ok s'.
Proof.
  induction n as [|n IH]; intros s s' H HP; cbn [enum_items] in H;
    follow libs_ok HP H.
Qed.
#[export] Hint Resolve enum_items_libs : frame.

Lemma params_libs n : forall s s', params n s = Ok s' -> libs_ok s -> libs_ok s'.
Proof.
  induction n as [|n IH]; intros s s' H HP; cbn [params] in H;
    follow libs_ok HP H.
Qed.
#[export] Hint Resolve params_libs : frame.

Lemma local_names_libs n : forall s s', local_names n s = Ok s' -> libs_ok s -> libs_ok s'.
Proof.
  induction n as [|n IH]; intros s s' H HP; cbn [local_names] in H;
    follow libs_ok HP H.
Qed.
#[export] Hint Resolve local_names_libs : frame.

Lemma local_decls_libs n : forall s s', local_decls n s = Ok s' -> libs_ok s -> libs_ok s'.
Proof.
  induction n as [|n IH]; intros s s' H HP; cbn [local_decls] in H;
    follow libs_ok HP H.
Qed.
#[export] Hint Resolve local_decls_libs : frame.

Lemma unwind_sym_libs t : Forall lib_rec t -> Forall lib_rec (unwind_sym t).
Proof.
  induction 1 as [|r t Hr Ht IH]; simpl; [constructor|].
  destruct (Tk r =? 0); [constructor; assumption|].
  constructor; [|exact IH].
  destruct (Class r =? Tok.Loc); [|exact Hr].
  destruct Hr as [_ H2]. split; exact H2.
Qed.

Lemma unwind_libs s s' : unwind s = Ok s' -> libs_ok s -> libs_ok s'.
Proof. intros [= <-] Hs. apply unwind_sym_libs. exact Hs. Qed.
#[export] Hint Resolve unwind_libs : frame.

Lemma stmts_stmt_libs n m s s' : stmts (stmt m) n s = Ok s' -> libs_ok s -> libs_ok s'.
Proof. apply stmts_libs. apply stmt_libs. Qed.
#[export] Hint Resolve stmts_stmt_libs : frame.

Lemma fundef_libs n s s' : fundef n s = Ok s' -> libs_ok s -> libs_ok s'.
Proof. intros H HP. unfold fundef in H. follow libs_ok HP H. Qed.
#[export] Hint Resolve fundef_libs : frame.

Lemma declarators_libs n : forall s s', declarators n s = Ok s' -> libs_ok s -> libs_ok s'.
Proof.
  induction n as [|n IH]; intros s s' H HP; cbn [declarators] in H;
    follow libs_ok HP H.
Qed.
#[export] Hint Resolve declarators_libs : frame.

Lemma toplevel_libs n : forall s s', toplevel n s = Ok s' -> libs_ok s -> libs_ok s'.
Proof.
  induction n as [|n IH]; intros s s' H HP; cbn [toplevel] in H;
    follow libs_ok HP H.
Qed.
#[export] Hint Resolve toplevel_libs : frame.





(** ** The code only grows *)

Section Growth.
Variables (e0 : nat) (t0 : list Z) (tb : Z).

Lemma grown_grows s : grown e0 t0 tb s -> grows e0 t0 tb s.
Proof. intros [H _]. exact H. Qed.

Lemma grows_start s : libs_ok s -> grows (e s) (text s) (tbase s) s.
Proof.
  intros Hl. split; [exact Hl|]. split; [reflexivity|]. split; [lia|].
  split; [reflexivity|]. intros Hlt. lia.
Qed.

Lemma emit_grown v s s' : emit v s = Ok s' -> grown e0 t0 tb s -> grown e0 t0 tb s'.
Proof.
  intros [= <-] [(Hl & Ht & Hle & Hf & Hc) Hlt].
  split; [|cbn [e set_text set_e]; lia].
  split; [exact Hl|]. split; [exact Ht|]. cbn [e text set_text set_e].
  split; [lia|]. split.
  - intros k Hk. rewrite peek_poke. destruct (decide _); [lia|]. apply Hf. exact Hk.
  - intros _. rewrite peek_poke. destruct (decide _); [lia|]. apply Hc. exact Hlt.
Qed.

Lemma emit_grows v s s' :
  emit v s = Ok s' -> grows e0 t0 tb s -> v <> Op.LC -> v <> Op.LI -> grown e0 t0 tb s'.
Proof.
  intros [= <-] (Hl & Ht & Hle & Hf & Hc) H1 H2.
  split; [|cbn [e set_text set_e]; lia].
  split; [exact Hl|]. split; [exact Ht|]. cbn [e text set_text set_e].
  split; [lia|]. split.
  - intros k Hk. rewrite peek_poke. destruct (decide _); [lia|]. apply Hf. exact Hk.
  - intros _. rewrite peek_poke. destruct (decide (S (e s) = S e0)) as [Heq|Hne].
    + split; assumption.
    + apply Hc. lia.
Qed.

Lemma grown_not_first s :
  grown e0 t0 tb s -> cur s = Op.LC \/ cur s = Op.LI -> (S e0 < e s)%nat.
Proof.
  intros [(Hl & Ht & Hle & Hf & Hc) Hlt] Hcur.
  destruct (Nat.eq_dec (e s) (S e0)) as [Heq|]; [|lia].
  exfalso. specialize (Hc Hlt). unfold cur in Hcur. rewrite Heq in Hcur.
  destruct Hc as [H1 H2]. destruct Hcur; contradiction.
Qed.

Lemma set_cur_grown v s :
  grown e0 t0 tb s -> cur s = Op.LC \/ cur s = Op.LI -> grown e0 t0 tb (set_cur v s).
Proof.
  intros HG Hcur. pose proof (grown_not_first s HG Hcur) as Hlt2.
  destruct HG as [(Hl & Ht & Hle & Hf & Hc) Hlt].
  split; [|exact Hlt].
  split; [exact Hl|]. split; [exact Ht|]. cbn [e text set_cur set_text].
  split; [lia|]. split.
  - intros k Hk. rewrite peek_poke. destruct (decide _); [lia|]. apply Hf. exact Hk.
  - intros _. rewrite peek_poke. destruct (decide _); [lia|]. apply Hc. exact Hlt.
Qed.

Lemma retract_grown s :
  grown e0 t0 tb s -> cur s = Op.LC \/ cur s = Op.LI -> grown e0 t0 tb (retract s).
Proof.
  intros HG Hcur. pose proof (grown_not_first s HG Hcur) as Hlt2.
  destruct HG as [(Hl & Ht & Hle & Hf & Hc) Hlt].
  split; [|cbn [e retract set_e]; lia].
  split; [exact Hl|]. split; [exact Ht|]. cbn [e text retract set_e].
  split; [lia|]. split; [exact Hf|]. intros _. apply Hc. exact Hlt.
Qed.

Lemma patch_grown d v s :
  grown e0 t0 tb s -> (S e0 < d)%nat -> grown e0 t0 tb (patch d v s).
Proof.
  intros [(Hl & Ht & Hle & Hf & Hc) Hlt] Hd.
  split; [|exact Hlt].
  split; [exact Hl|]. split; [exact Ht|]. cbn [e text patch set_text].
  split; [lia|]. split.
  - intros k Hk. rewrite peek_poke. destruct (decide _); [lia|]. apply Hf. exact Hk.
  - intros _. rewrite peek_poke. destruct (decide _); [lia|]. apply Hc. exact Hlt.
Qed.

Lemma hole_grown s : grown e0 t0 tb s -> grown e0 t0 tb (set_e (S (e s)) s).
Proof.
  intros [(Hl & Ht & Hle & Hf & Hc) Hlt].
  split; [|cbn [e set_e]; lia].
  split; [exact Hl|]. split; [exact Ht|]. cbn [e text set_e].
  split; [lia|]. split; [exact Hf|]. intros _. apply Hc. exact Hlt.
Qed.

Lemma grown_lt s : grown e0 t0 tb s -> (e0 < e s)%nat.
Proof. intros [_ H]. exact H. Qed.

(** What a construct does to the code, seen from an enclosing one. *)
Lemma grows_then_grown s s' :
  grows e0 t0 tb s -> grown (e s) (text s) (tbase s) s' -> grown e0 t0 tb s'.
Proof.
  intros (Hl & Ht & Hle & Hf & Hc) [(Hl' & Ht' & Hle' & Hf' & Hc') Hlt'].
  split; [|lia].
  split; [exact Hl'|]. split; [congruence|]. split; [lia|]. split.
  - intros k Hk. rewrite Hf' by lia. apply Hf. exact Hk.
  - intros _. destruct (Nat.eq_dec (e s) e0) as [Heq|Hne].
    + rewrite <- Heq. apply Hc'. exact Hlt'.
    + rewrite Hf' by lia. apply Hc. lia.
Qed.

Lemma grows_then_grows s s' :
  grows e0 t0 tb s -> grows (e s) (text s) (tbase s) s' -> grows e0 t0 tb s'.
Proof.
  intros (Hl & Ht & Hle & Hf & Hc) (Hl' & Ht' & Hle' & Hf' & Hc').
  split; [exact Hl'|]. split; [congruence|]. split; [lia|]. split.
  - intros k Hk. rewrite Hf' by lia. apply Hf. exact Hk.
  - intros Hlt. destruct (Nat.eq_dec (e s) e0) as [Heq|Hne].
    + rewrite <- Heq. apply Hc'. lia.
    + rewrite Hf' by lia. apply Hc. lia.
Qed.

Lemma grown_then_grows s s' :
  grown e0 t0 tb s -> grows (e s) (text s) (tbase s) s' -> grown e0 t0 tb s'.
Proof.
  intros [HG Hlt] HG'. split; [eapply grows_then_grows; eassumption|].
  destruct HG' as (_ & _ & Hle' & _). lia.
Qed.

Lemma next_grows s s' : next s = Ok s' -> grows e0 t0 tb s -> grows e0 t0 tb s'.
Proof.
  intros H (Hl & Ht & Hle & Hf & Hc).
  pose proof (next_libs _ _ H Hl) as Hl'.
  pose proof (next_loop_same s _ _ _ H (same_code_refl s)) as (He & Htx & Htb & _).
  split; [exact Hl'|]. rewrite He, Htx, Htb. auto.
Qed.

Lemma next_grown s s' : next s = Ok s' -> grown e0 t0 tb s -> grown e0 t0 tb s'.
Proof.
  intros H [HG Hlt]. split; [eapply next_grows; eassumption|].
  pose proof (next_loop_same s _ _ _ H (same_code_refl s)) as (He & _). lia.
Qed.

Lemma libs_val_not_load s d :
  libs_ok s -> Class (sym_at d (sym s)) = Tok.Sys ->
  Val (sym_at d (sym s)) <> Op.LC /\ Val (sym_at d (sym s)) <> Op.LI.
Proof.
  intros Hl Hc. unfold sym_at, peek in *.
  destruct (sym s !! d) as [r|] eqn:E.
  - rewrite (nth_lookup_Some _ _ _ _ E) in *.
    pose proof (proj1 (proj1 (Forall_lookup _ _) Hl _ _ E) Hc) as Hv.
    unfold Op.OPEN, Op.EXIT, Op.LC, Op.LI in *. lia.
  - rewrite nth_overflow in Hc by (apply lookup_ge_None in E; lia). discriminate Hc.
Qed.
End Growth.

(** The test that a load was emitted last, from the test the code made. *)
Ltac is_load :=
  match goal with
  | E : (cur ?s =? Op.LC) || (cur ?s =? Op.LI) = true |- cur ?s = Op.LC \/ cur ?s = Op.LI =>
      apply orb_prop in E; destruct E as [E|E]; apply Z.eqb_eq in E; [left|right]; exact E
  | E : (cur ?s =? Op.LC) = true |- cur ?s = Op.LC \/ _ => left; apply Z.eqb_eq; exact E
  | E : (cur ?s =? Op.LI) = true |- _ \/ cur ?s = Op.LI => right; apply Z.eqb_eq; exact E
  end.

(** A hole was taken after the first cell. *)
Ltac hole_is_later :=
  repeat match goal with
         | HPk : grown _ _ _ _ |- _ => apply grown_lt in HPk
         end;
  cbn [e set_e]; lia.

(** [grown] or [grows] for a state built with setters from the state of
    [HP]. *)
Ltac gstate HP :=
  first
    [ exact HP
    | apply grown_grows; exact HP
    | lazymatch goal with
      | |- grows _ _ _ _ => apply grown_grows
      | |- _ => idtac
      end;
      lazymatch goal with
      | |- grown _ _ _ ?X =>
          lazymatch X with
          | context [set_cur ?v ?s] => refine (set_cur_grown _ _ _ v s HP _); is_load
          | context [retract ?s] => refine (retract_grown _ _ _ s HP _); is_load
          | context [patch ?d ?v ?s] => refine (patch_grown _ _ _ d v s HP _); hole_is_later
          | context [set_e (S (e ?s)) ?s] => refine (hole_grown _ _ _ s HP)
          end
      end ].

Ltac glibs HP :=
  first [ exact (proj1 HP) | exact (proj1 (proj1 HP)) ].

(** The value emitted first is not a load. *)
Ltac not_load HP :=
  first
    [ let Hx := fresh "H" in intros Hx; discriminate Hx
    | match goal with
      | E : (Class (sym_at ?d (sym ?s)) =? Tok.Sys) = true |- Val (sym_at ?d (sym ?s)) <> Op.LC =>
          apply Z.eqb_eq in E; refine (proj1 (libs_val_not_load s d _ E)); glibs HP
      | E : (Class (sym_at ?d (sym ?s)) =? Tok.Sys) = true |- Val (sym_at ?d (sym ?s)) <> Op.LI =>
          apply Z.eqb_eq in E; refine (proj2 (libs_val_not_load s d _ E)); glibs HP
      end ].

Ltac to_grown :=
  lazymatch goal with
  | |- grows _ _ _ _ => apply grown_grows
  | |- _ => idtac
  end.

(** The loops are added where they are proved. *)
Ltac grow_special HP H := fail.

(** Follow the code of a step [H : f s = Ok s'] from [HP], which says
    [grown] or [grows] of [s], to the same of [s']. *)
Ltac grow HP H :=
  cbv beta zeta in H;
  lazymatch type of H with
  | Ok _ = Ok _ => injection H as <-; gstate HP
  | Fail _ = Ok _ => discriminate H
  | Undef = Ok _ => discriminate H
  | NoFuel = Ok _ => discriminate H
  | fail _ _ = Ok _ => discriminate H
  | seqM _ _ _ = Ok _ =>
      let sm := fresh "sm" in
      let H1 := fresh "H" in
      let HP1 := fresh "HP" in
      apply seqM_inv in H; destruct H as (sm & H1 & H);
      lazymatch type of HP with
      | _ ?a ?b ?c _ =>
          first [ assert (HP1 : grown a b c sm) by (grow HP H1)
                | assert (HP1 : grows a b c sm) by (grow HP H1) ]
      end;
      clear H1; grow HP1 H
  | (if ?c then _ else _) = Ok _ =>
      let E := fresh "E" in destruct c eqn:E; grow HP H
  | (if ?c then _ else _) _ = Ok _ =>
      let E := fresh "E" in destruct c eqn:E; grow HP H
  | (let '(_, _) := ?x in _) = Ok _ =>
      let E := fresh "E" in destruct x eqn:E; grow HP H
  | match ?x with _ => _ end = Ok _ =>
      let E := fresh "E" in destruct x eqn:E; grow HP H
  | emit ?v ?st = Ok _ =>
      to_grown;
      first [ refine (emit_grown _ _ _ v st _ H _); gstate HP
            | refine (emit_grows _ _ _ v st _ H _ _ _); [gstate HP|not_load HP|not_load HP] ]
  | next ?st = Ok _ =>
      first [ refine (next_grown _ _ _ st _ H _); gstate HP
            | refine (next_grows _ _ _ st _ H _); gstate HP ]
  | ?f ?st = Ok _ =>
      first
        [ grow_special HP H
        | match goal with
          | IH : forall s s', f s = Ok s' -> _ |- _ => refine (IH st _ H _); gstate HP
          | IH : forall n s s', _ n s = Ok s' -> _ |- _ => refine (IH _ st _ H _); gstate HP
          end
        | to_grown;
          refine (grows_then_grown _ _ _ st _ _ _); [gstate HP|];
          let Hl := fresh "Hl" in
          assert (Hl : libs_ok st) by (glibs HP);
          solve [eauto 2]
        | lazymatch goal with
          | |- grown _ _ _ _ => refine (grown_then_grows _ _ _ st _ _ _)
          | |- grows _ _ _ _ => refine (grows_then_grows _ _ _ st _ _ _)
          end;
          [gstate HP|];
          let Hl := fresh "Hl" in
          assert (Hl : libs_ok st) by (glibs HP);
          solve [eauto 2]
        | let h := head_of f in unfold h in H; grow HP H ]
  end.

Lemma more_strings_grows e0 t0 tb n : forall s s',
  more_strings n s = Ok s' -> grows e0 t0 tb s -> grows e0 t0 tb s'.
Proof.
  induction n as [|n IH]; intros s s' H HP; cbn [more_strings] in H.
  - grow HP H.
  - destruct (tk s =? 34); [|grow HP H].
    apply seqM_inv in H. destruct H as (sm & H1 & H).
    eapply IH; [exact H|]. eapply next_grows; eassumption.
Qed.

Lemma more_strings_grown e0 t0 tb n : forall s s',
  more_strings n s = Ok s' -> grown e0 t0 tb s -> grown e0 t0 tb s'.
Proof.
  induction n as [|n IH]; intros s s' H HP; cbn [more_strings] in H.
  - grow HP H.
  - destruct (tk s =? 34); [|grow HP H].
    apply seqM_inv in H. destruct H as (sm & H1 & H).
    eapply IH; [exact H|]. eapply next_grown; eassumption.
Qed.

Lemma stars_grows e0 t0 tb n : forall t k s s',
  (forall t s s', k t s = Ok s' -> grows e0 t0 tb s -> grown e0 t0 tb s') ->
  stars n t k s = Ok s' -> grows e0 t0 tb s -> grown e0 t0 tb s'.
Proof.
  induction n as [|n IH]; intros t k s s' Hk H HP; cbn [stars] in H.
  - destruct (tk s =? Tok.Mul); [discriminate|]. eapply Hk; eassumption.
  - destruct (tk s =? Tok.Mul); [|eapply Hk; eassumption].
    apply seqM_inv in H. destruct H as (sm & H1 & H).
    eapply IH; [exact Hk|exact H|]. eapply next_grows; eassumption.
Qed.

Section ExprGrowth.
Variable rec : Z -> M.
Hypothesis rec_grown : forall lev s s',
  rec lev s = Ok s' -> libs_ok s -> grown (e s) (text s) (tbase s) s'.

Lemma call_args_grows e0 t0 tb n : forall t k s s',
  (forall t s s', k t s = Ok s' -> grows e0 t0 tb s -> grown e0 t0 tb s') ->
  call_args rec n t k s = Ok s' -> grows e0 t0 tb s -> grown e0 t0 tb s'.
Proof.
  induction n as [|n IH]; intros t k s s' Hk H HP; cbn [call_args] in H.
  - destruct (negb (tk s =? 41)); [discriminate|]. eapply Hk; eassumption.
  - destruct (negb (tk s =? 41)); [|eapply Hk; eassumption].
    apply seqM_inv in H. destruct H as (s1 & H1 & H).
    apply seqM_inv in H. destruct H as (s2 & H2 & H).
    apply seqM_inv in H. destruct H as (s3 & H3 & H).
    eapply IH; [exact Hk|exact H|].
    apply grown_grows.
    assert (HP1 : grown e0 t0 tb s1) by (grow HP H1).
    assert (HP2 : grown e0 t0 tb s2) by (grow HP1 H2).
    grow HP2 H3.
Qed.

Ltac grow_special HP H ::=
  lazymatch type of H with
  | more_strings _ ?st = Ok _ =>
      first [ refine (more_strings_grown _ _ _ _ st _ H _); gstate HP
            | refine (more_strings_grows _ _ _ _ st _ H _); gstate HP ]
  | stars _ _ _ ?st = Ok _ =>
      to_grown;
      refine (stars_grows _ _ _ _ _ _ st _ _ H _); [|gstate HP];
      let HPx := fresh "HP" in
      let Hx := fresh "H" in
      intros ? ? ? Hx HPx; grow HPx Hx
  | call_args _ _ _ _ ?st = Ok _ =>
      to_grown;
      refine (call_args_grows _ _ _ _ _ _ st _ _ H _); [|gstate HP];
      let HPx := fresh "HP" in
      let Hx := fresh "H" in
      intros ? ? ? Hx HPx; grow HPx Hx
  end.

Lemma expr_head_grown n s s' :
  expr_head rec n s = Ok s' -> libs_ok s -> grown (e s) (text s) (tbase s) s'.
Proof.
  intros H Hl. pose proof (grows_start s Hl) as HP.
  unfold expr_head in H. grow HP H.
Qed.

Lemma expr_op_grown e0 t0 tb s s' :
  expr_op rec s = Ok s' -> grown e0 t0 tb s -> grown e0 t0 tb s'.
Proof. intros H HP. unfold expr_op in H. grow HP H. Qed.

Lemma expr_tail_grown e0 t0 tb n lev : forall s s',
  expr_tail rec n lev s = Ok s' -> grown e0 t0 tb s -> grown e0 t0 tb s'.
Proof.
  induction n as [|n IH]; intros s s' H HP; cbn [expr_tail] in H.
  - grow HP H.
  - destruct (tk s >=? lev); [|grow HP H].
    apply seqM_inv in H. destruct H as (sm & H1 & H).
    eapply IH; [exact H|]. eapply expr_op_grown; eassumption.
Qed.
End ExprGrowth.

Lemma expr_grown fuel : forall lev s s',
  expr fuel lev s = Ok s' -> libs_ok s -> grown (e s) (text s) (tbase s) s'.
Proof.
  induction fuel as [|f IH]; intros lev s s' H Hl; cbn [expr] in H; [discriminate|].
  apply seqM_inv in H. destruct H as (sm & H1 & H).
  eapply expr_tail_grown; [exact IH|exact H|].
  eapply expr_head_grown; [exact IH|exact H1|exact Hl].
Qed.

Section StmtGrowth.
Variable ex : Z -> M.
Variable st : M.
Hypothesis ex_grown : forall lev s s',
  ex lev s = Ok s' -> libs_ok s -> grown (e s) (text s) (tbase s) s'.
Hypothesis st_grows : forall s s',
  st s = Ok s' -> libs_ok s -> grows (e s) (text s) (tbase s) s'.

Lemma stmts_grows e0 t0 tb n : forall s s',
  stmts st n s = Ok s' -> grows e0 t0 tb s -> grows e0 t0 tb s'.
Proof.
  induction n as [|n IH]; intros s s' H HP; cbn [stmts] in H.
  - grow HP H.
  - destruct (negb (tk s =? 125)); [|grow HP H].
    apply seqM_inv in H. destruct H as (sm & H1 & H).
    eapply IH; [exact H|]. grow HP H1.
Qed.

Ltac grow_special HP H ::=
  lazymatch type of H with
  | stmts _ _ ?st = Ok _ =>
      refine (stmts_grows _ _ _ _ st _ H _); gstate HP
  end.

Lemma stmt_body_grows n s s' :
  stmt_body ex st n s = Ok s' -> libs_ok s -> grows (e s) (text s) (tbase s) s'.
Proof.
  intros H Hl. pose proof (grows_start s Hl) as HP.
  unfold stmt_body in H. grow HP H.
Qed.
End StmtGrowth.

Lemma stmt_grows fuel : forall s s',
  stmt fuel s = Ok s' -> libs_ok s -> grows (e s) (text s) (tbase s) s'.
Proof.
  induction fuel as [|f IH]; intros s s' H Hl; cbn [stmt] in H; [discriminate|].
  eapply stmt_body_grows; [apply expr_grown|exact IH|exact H|exact Hl].
Qed.

(** X21. Compiling an expression only appends to the code: at least one
    cell is emitted, every cell emitted before is left as it was, the text
    stays where it is, and the first cell emitted is not a load. *)
Theorem expression_code_is_appended (fuel : nat) (lev : Z) (s s' : state) :
  libs_ok s -> expr fuel lev s = Ok s' ->
  (e s < e s')%nat
  /\ (forall k, (k <= e s)%nat -> peek 0 k (text s') = peek 0 k (text s))
  /\ tbase s' = tbase s
  /\ peek 0 (S (e s)) (text s') <> Op.LC /\ peek 0 (S (e s)) (text s') <> Op.LI
  /\ libs_ok s'.
Proof.
  intros Hl H.
  destruct (expr_grown _ _ _ _ H Hl) as [(Hl' & Ht & Hle & Hf & Hc) Hlt].
  specialize (Hc Hlt). destruct Hc as [H1 H2].
  repeat split; assumption.
Qed.


Lemma next_code s s' :
  next s = Ok s' -> libs_ok s ->
  e s' = e s /\ text s' = text s /\ tbase s' = tbase s /\ libs_ok s'.
Proof.
  intros H Hl.
  pose proof (next_loop_same s _ _ _ H (same_code_refl s)) as (He & Htx & Htb & _).
  pose proof (next_libs _ _ H Hl). auto.
Qed.

Lemma expect_code c msg s s' :
  expect c msg s = Ok s' -> libs_ok s ->
  e s' = e s /\ text s' = text s /\ tbase s' = tbase s /\ libs_ok s'.
Proof.
  unfold expect. destruct (tk s =? c); [apply next_code|discriminate].
Qed.

(** X23. The jumps of a `while` loop: the code ends with `JMP` to the first
    cell emitted for the condition, and the `BZ` behind the condition goes
    to the cell behind that `JMP` and its operand; the body has not
    disturbed either. *)
Theorem while_loop_jumps (fuel : nat) (s s' : state) :
  libs_ok s -> tk s = Tok.While -> stmt fuel s = Ok s' ->
  exists b : nat,
    (e s + 3 <= b)%nat /\ (b + 2 <= e s')%nat
    /\ peek 0 (b - 1) (text s') = Op.BZ
    /\ peek 0 b (text s') = tbase s + 8 * (Z.of_nat (e s') + 1)
    /\ peek 0 (e s' - 1) (text s') = Op.JMP
    /\ peek 0 (e s') (text s') = tbase s + 8 * (Z.of_nat (e s) + 1).
Proof.
  intros Hl Htk H. destruct fuel as [|f]; [discriminate|].
  cbn [stmt] in H. unfold stmt_body in H. cbv zeta in H. rewrite Htk in H.
  cbn [Z.eqb Pos.eqb Tok.While Tok.If] in H.
  apply seqM_inv in H. destruct H as (s1 & H1 & H). cbv beta zeta in H.
  apply seqM_inv in H. destruct H as (s2 & H2 & H).
  apply seqM_inv in H. destruct H as (s3 & H3 & H).
  apply seqM_inv in H. destruct H as (s4 & H4 & H).
  apply seqM_inv in H. destruct H as (s5 & H5 & H).
  unfold hole in H. cbv beta zeta in H.
  apply seqM_inv in H. destruct H as (s7 & H7 & H).
  apply seqM_inv in H. destruct H as (s8 & H8 & H).
  apply seqM_inv in H. destruct H as (s9 & H9 & H).
  injection H as <-.
  destruct (next_code _ _ H1 Hl) as (E1 & T1 & B1 & L1).
  destruct (expect_code _ _ _ _ H2 L1) as (E2 & T2 & B2 & L2).
  destruct (expr_grown _ _ _ _ H3 L2) as [(L3 & B3 & _ & F3 & _) E3].
  destruct (expect_code _ _ _ _ H4 L3) as (E4 & T4 & B4 & L4).
  injection H5 as <-.
  destruct (stmt_grows _ _ _ H7 L4) as (L7 & B7 & E7 & F7 & _).
  cbn [e text tbase set_e set_text] in E7, F7, B7.
  injection H8 as <-. injection H9 as <-.
  unfold addr_e. cbn [e text tbase set_e set_text patch] in *.
  rewrite B7, B4, B3, B2, B1, E1.
  exists (S (S (e s4))).
  split; [lia|]. split; [lia|].
  split.
  { replace (S (S (e s4)) - 1)%nat with (S (e s4)) by lia.
    read_cells. rewrite F7 by lia. read_cells. }
  split.
  { read_cells. }
  split.
  { replace (S (S (e s7)) - 1)%nat with (S (e s7)) by lia. read_cells. }
  read_cells.
Qed.


(** ** Declarations append, too *)

Lemma id_set_grows e0 t0 tb f s s' :
  id_set f s = Ok s' -> (forall r, lib_rec r -> lib_rec (f r)) ->
  grows e0 t0 tb s -> grows e0 t0 tb s'.
Proof.
  intros H Hf (Hl & HP). split; [eapply id_set_libs; eassumption|].
  injection H as <-. exact HP.
Qed.

Lemma id_set_grown e0 t0 tb f s s' :
  id_set f s = Ok s' -> (forall r, lib_rec r -> lib_rec (f r)) ->
  grown e0 t0 tb s -> grown e0 t0 tb s'.
Proof.
  intros H Hf [HG Hlt]. split; [eapply id_set_grows; eassumption|].
  injection H as <-. exact Hlt.
Qed.

Lemma unwind_grows e0 t0 tb s s' : unwind s = Ok s' -> grows e0 t0 tb s -> grows e0 t0 tb s'.
Proof.
  intros H (Hl & HP). split; [eapply unwind_libs; eassumption|].
  injection H as <-. exact HP.
Qed.

Lemma stmts_stmt_grows e0 t0 tb n m s s' :
  stmts (stmt m) n s = Ok s' -> grows e0 t0 tb s -> grows e0 t0 tb s'.
Proof. apply stmts_grows. apply stmt_grows. Qed.

Ltac grow_special HP H ::=
  lazymatch type of H with
  | id_set _ ?st = Ok _ =>
      first [ refine (id_set_grown _ _ _ _ st _ H _ _); [lib_rec_kept|gstate HP]
            | refine (id_set_grows _ _ _ _ st _ H _ _); [lib_rec_kept|gstate HP] ]
  | unwind ?st = Ok _ => refine (unwind_grows _ _ _ st _ H _); gstate HP
  | stmts (stmt _) _ ?st = Ok _ => refine (stmts_stmt_grows _ _ _ _ _ st _ H _); gstate HP
  end.

Lemma ptr_stars_grows e0 t0 tb n : forall s s',
  ptr_stars n s = Ok s' -> grows e0 t0 tb s -> grows e0 t0 tb s'.
Proof.
  induction n as [|n IH]; intros s s' H HP; cbn [ptr_stars] in H; grow HP H.
Qed.

Lemma enum_items_grows e0 t0 tb n : forall s s',
  enum_items n s = Ok s' -> grows e0 t0 tb s -> grows e0 t0 tb s'.
Proof.
  induction n as [|n IH]; intros s s' H HP; cbn [enum_items] in H; grow HP H.
Qed.

Lemma params_grows e0 t0 tb n : forall s s',
  params n s = Ok s' -> grows e0 t0 tb s -> grows e0 t0 tb s'.
Proof.
  pose proof (ptr_stars_grows e0 t0 tb) as Hstars.
  induction n as [|n IH]; intros s s' H HP; cbn [params] in H; grow HP H.
Qed.

Lemma local_names_grows e0 t0 tb n : forall s s',
  local_names n s = Ok s' -> grows e0 t0 tb s -> grows e0 t0 tb s'.
Proof.
  pose proof (ptr_stars_grows e0 t0 tb) as Hstars.
  induction n as [|n IH]; intros s s' H HP; cbn [local_names] in H; grow HP H.
Qed.

Lemma local_decls_grows e0 t0 tb n : forall s s',
  local_decls n s = Ok s' -> grows e0 t0 tb s -> grows e0 t0 tb s'.
Proof.
  pose proof (local_names_grows e0 t0 tb) as Hnames.
  induction n as [|n IH]; intros s s' H HP; cbn [local_decls] in H; grow HP H.
Qed.

Lemma fundef_grown e0 t0 tb n s s' :
  fundef n s = Ok s' -> grows e0 t0 tb s -> grows e0 t0 tb s'.
Proof.
  pose proof (params_grows e0 t0 tb) as Hparams.
  pose proof (local_decls_grows e0 t0 tb) as Hdecls.
  intros H HP. unfold fundef in H. grow HP H.
Qed.

Lemma declarators_grows e0 t0 tb n : forall s s',
  declarators n s = Ok s' -> grows e0 t0 tb s -> grows e0 t0 tb s'.
Proof.
  pose proof (ptr_stars_grows e0 t0 tb) as Hstars.
  pose proof (fundef_grown e0 t0 tb) as Hfun.
  induction n as [|n IH]; intros s s' H HP; cbn [declarators] in H; grow HP H.
Qed.

Lemma toplevel_grows e0 t0 tb n : forall s s',
  toplevel n s = Ok s' -> grows e0 t0 tb s -> grows e0 t0 tb s'.
Proof.
  pose proof (enum_items_grows e0 t0 tb) as Henum.
  pose proof (declarators_grows e0 t0 tb) as Hdecl.
  induction n as [|n IH]; intros s s' H HP; cbn [toplevel] in H; grow HP H.
Qed.

(** X25. The code of a program is written once: whatever declarations
    follow, no cell emitted so far is changed again, the text stays where
    it is and `e` never goes back. *)
Theorem declarations_append_code (n : nat) (s s' : state) :
  libs_ok s -> toplevel n s = Ok s' ->
  (e s <= e s')%nat
  /\ (forall k, (k <= e s)%nat -> peek 0 k (text s') = peek 0 k (text s))
  /\ tbase s' = tbase s.
Proof.
  intros Hl H.
  destruct (toplevel_grows _ _ _ _ _ _ H (grows_start s Hl)) as (_ & Ht & Hle & Hf & _).
  auto.
Qed.

Lemma libs_okb_ok s : libs_okb s = true -> libs_ok s.
Proof.
  unfold libs_okb, libs_ok. intros H. apply Forall_forall. intros r Hr.
  assert (Hb : lib_recb r = true).
  { rewrite forallb_forall in H. apply H. apply list_elem_of_In. exact Hr. }
  unfold lib_recb in Hb. apply andb_prop in Hb. destruct Hb as [H1 H2].
  split; intros Hc.
  - rewrite Hc in H1. cbn [Z.eqb Tok.Sys Pos.eqb negb orb] in H1.
    apply andb_prop in H1. destruct H1 as [Ha Hb]. apply Z.leb_le in Ha, Hb. lia.
  - rewrite Hc in H2. cbn [Z.eqb Tok.Sys Pos.eqb negb orb] in H2.
    apply andb_prop in H2. destruct H2 as [Ha Hb]. apply Z.leb_le in Ha, Hb. lia.
Qed.

Lemma expression_code_is_appended_witness :
  (e w_pre1 < e w_pre2)%nat
  /\ (forall k, (k <= e w_pre1)%nat -> peek 0 k (text w_pre2) = peek 0 k (text w_pre1))
  /\ tbase w_pre2 = tbase w_pre1
  /\ peek 0 (S (e w_pre1)) (text w_pre2) <> Op.LC
  /\ peek 0 (S (e w_pre1)) (text w_pre2) <> Op.LI
  /\ libs_ok w_pre2.
Proof.
  apply (expression_code_is_appended 10 Tok.Inc w_pre1 w_pre2).
  - apply libs_okb_ok. vm_compute. reflexivity.
  - vm_compute. reflexivity.
Defined.


Lemma while_loop_jumps_witness :
  exists b : nat,
    (e w_while + 3 <= b)%nat /\ (b + 2 <= e (after (stmt 10 w_while)))%nat
    /\ peek 0 (b - 1) (text (after (stmt 10 w_while))) = Op.BZ
    /\ peek 0 b (text (after (stmt 10 w_while)))
       = tbase w_while + 8 * (Z.of_nat (e (after (stmt 10 w_while))) + 1)
    /\ peek 0 (e (after (stmt 10 w_while)) - 1) (text (after (stmt 10 w_while))) = Op.JMP
    /\ peek 0 (e (after (stmt 10 w_while))) (text (after (stmt 10 w_while)))
       = tbase w_while + 8 * (Z.of_nat (e w_while) + 1).
Proof.
  apply (while_loop_jumps 10 w_while (after (stmt 10 w_while))).
  - apply libs_okb_ok. vm_compute. reflexivity.
  - vm_compute. reflexivity.
  - vm_compute. reflexivity.
Defined.


Lemma declarations_append_code_witness :
  (e w_top <= e (after (toplevel 10 w_top)))%nat
  /\ (forall k, (k <= e w_top)%nat ->
        peek 0 k (text (after (toplevel 10 w_top))) = peek 0 k (text w_top))
  /\ tbase (after (toplevel 10 w_top)) = tbase w_top.
Proof.
  apply (declarations_append_code 10 w_top (after (toplevel 10 w_top))).
  - apply libs_okb_ok. vm_compute. reflexivity.
  - vm_compute. reflexivity.
Defined.

(** ** What a compilation keeps *)

(** X26. To the end of a compilation the nineteen records the table was
    seeded with keep their token, hash and name, so that a keyword stays a
    keyword whatever the program declares; no shadow slot holds the class
    `Loc`; and `src` is what the command line made it. *)
Theorem compilation_keeps_the_keywords
  (H : host) (args : list string) (fuel : nat) (calls : list call) (s : state) :
  compile H args fuel = (calls, Ok s) ->
  take 19 (key <$> sym s) = key <$> seed_table
  /\ Forall (fun r => HClass r <> Tok.Loc) (sym s)
  /\ src s = fst (fst (flags (tail args))).
Proof.
  intros Hc. destruct (compile_inv _ _ _ _ _ Hc) as (Hs & Hsh & Hk).
  split; [exact Hk|]. split; [exact Hsh|exact Hs].
Qed.

Lemma compilation_keeps_the_keywords_witness :
  take 19 (key <$> sym (after (compiled five_prog))) = key <$> seed_table
  /\ Forall (fun r => HClass r <> Tok.Loc) (sym (after (compiled five_prog)))
  /\ src (after (compiled five_prog)) = fst (fst (flags (tail ["c4"; "prog.c"]))).
Proof.
  apply (compilation_keeps_the_keywords (demo_host five_prog) ["c4"; "prog.c"] 100
           (fst (compile (demo_host five_prog) ["c4"; "prog.c"] 100))
           (after (compiled five_prog))).
  vm_compute. reflexivity.
Defined.

(** ** No file *)

(** X27. When no argument is left after the flags, [main] prints the usage
    line and returns -1 before anything else: no arena is allocated and
    nothing is read. *)
Theorem no_file_is_a_usage_error
  (H : host) (args : list string) (fuel cycles : nat) :
  snd (flags (tail args)) = [] ->
  main H args fuel cycles = mkOutcome [] usage 0 (Fail usage).
Proof.
  intros Hf. unfold main, compile, startup.
  destruct (flags (tail args)) as [[sr db] argv]. cbn [snd] in Hf. subst argv.
  reflexivity.
Qed.

Lemma no_file_is_a_usage_error_witness :
  main (demo_host five_prog) ["c4"; "-s"; "-d"] 100 100 = mkOutcome [] usage 0 (Fail usage).
Proof.
  apply (no_file_is_a_usage_error (demo_host five_prog) ["c4"; "-s"; "-d"] 100 100).
  reflexivity.
Defined.
